(** * motorengine.queryset: the QuerySet of an asynchronous document mapper

    A shallow embedding of [motorengine/queryset.py] and the properties of its
    query construction, projection building and completion handlers.

    The module is written in callback style on top of a non-blocking store.
    Here a method is a computation over a [World]: the one [QuerySet] object
    the method is called on ([self]), the log of the calls made on the
    collaborators (store, documents), the invocations of the caller's
    continuations, and the lists shared between closures.  A Python exception
    is a [Raise] result; what was mutated before it stays mutated.  Closures
    handed to the store are first-order data ([Closure]); [invoke] runs one
    when the collaborator calls back. *)

From Stdlib Require Import Ascii String ZArith.
From Equations Require Import Equations.
From stdpp Require Import gmap strings list fin_maps pretty.

Local Open Scope string_scope.
Local Open Scope Z_scope.
Local Open Scope list_scope.

(** ** Python values and exceptions *)

(** The values the queryset receives from its callers and from the store:
    [None], integers (projection flags, slice sizes, counts), strings, pairs
    ([slice__comments=(10, 5)]), one-key dicts ([{'$slice': 5}]), object
    ids, what an [on_save] hook returned, and any other object, of which only
    the truth value is kept. *)
Inductive PyVal :=
| PNone
| PInt (n : Z)
| PStr (s : string)
| PTuple (a b : Z)
| PDict (key : string) (v : PyVal)
| PObjectId (oid : string)
| PCall (fn : string) (creating : bool)
| PObject (truth : bool).

#[global] Instance PyVal_eq_dec : EqDecision PyVal.
Proof. solve_decision. Defined.

(** Python truth value of a [PyVal]. *)
Definition truthy (v : PyVal) : bool :=
  match v with
  | PNone => false
  | PInt n => negb (n =? 0)
  | PStr s => negb (String.eqb s "")
  | PTuple _ _ => true
  | PDict _ _ => true
  | PObjectId _ => true
  | PCall _ _ => true
  | PObject t => t
  end.

Inductive Exc :=
| ValueError (msg : string)
| RuntimeError (msg : string)
| TypeError (msg : string)
| IndexError (msg : string)
| AttributeError (msg : string)
| PartlyLoadedDocumentError (msg : string)
| DuplicateKeyError (msg : string)
| UniqueKeyViolationError (msg : string) (klass : string)
| StoreError (msg : string).

(** [str(err)] of an exception object. *)
Definition str (e : Exc) : string :=
  match e with
  | ValueError m | RuntimeError m | TypeError m | IndexError m
  | AttributeError m | PartlyLoadedDocumentError m | DuplicateKeyError m
  | StoreError m => m
  | UniqueKeyViolationError m _ => m
  end.

Inductive Result (A : Type) :=
| Ok (a : A)
| Raise (e : Exc).
Arguments Ok {A} a.
Arguments Raise {A} e.

(** An attribute that is created on first assignment ([self.current_count]):
    absent, [None], or a value. *)
Inductive Attr (A : Type) :=
| Missing
| IsNone
| Val (a : A).
Arguments Missing {A}.
Arguments IsNone {A}.
Arguments Val {A} a.

(** ** The document schema *)

(** Modelled from the spec: the field registry of a document class
    ([motorengine.fields], [motorengine.document] are not part of this file).
    A field has a logical name, a storage name and the uniqueness and
    sparseness flags; it is a plain field, an embedded document, a reference,
    or a list over a base field.  A document class has a name, a collection,
    its lazy default and the ordered mapping [_fields]. *)
Inductive Field :=
| BaseField (name db_field : string) (unique sparse : bool)
    (on_save : option string) (kind : FieldKind)
with FieldKind :=
| PlainField
| EmbeddedDocumentField (embedded_type : Klass)
| ReferenceField (reference_type : string)
| ListField (_base_field : Field)
with Klass :=
| DocumentClass (__name__ __collection__ : string) (__alias__ : option string)
    (__lazy__ : bool) (_fields : list (string * Field)).

Definition name (f : Field) : string :=
  match f with BaseField n _ _ _ _ _ => n end.
Definition db_field (f : Field) : string :=
  match f with BaseField _ d _ _ _ _ => d end.
Definition unique (f : Field) : bool :=
  match f with BaseField _ _ u _ _ _ => u end.
Definition sparse (f : Field) : bool :=
  match f with BaseField _ _ _ s _ _ => s end.
Definition on_save (f : Field) : option string :=
  match f with BaseField _ _ _ _ o _ => o end.
Definition kind (f : Field) : FieldKind :=
  match f with BaseField _ _ _ _ _ k => k end.

Definition __name__ (k : Klass) : string :=
  match k with DocumentClass n _ _ _ _ => n end.
Definition __collection__ (k : Klass) : string :=
  match k with DocumentClass _ c _ _ _ => c end.
Definition __alias__ (k : Klass) : option string :=
  match k with DocumentClass _ _ a _ _ => a end.
Definition __lazy__ (k : Klass) : bool :=
  match k with DocumentClass _ _ _ l _ => l end.
Definition _fields (k : Klass) : list (string * Field) :=
  match k with DocumentClass _ _ _ _ fs => fs end.

(** [d[key]] / [key in d] on an ordered dict kept as a list of items. *)
Fixpoint dict_get {A} (d : list (string * A)) (key : string) : option A :=
  match d with
  | [] => None
  | (k, v) :: rest => if decide (k = key) then Some v else dict_get rest key
  end.

(** [isinstance(field, ListField)]. *)
Definition is_ListField (f : Field) : bool :=
  match kind f with ListField _ => true | _ => false end.

(** [hasattr(field, 'embedded_type')] / [hasattr(field, 'reference_type')]. *)
Definition has_embedded_type (f : Field) : option Klass :=
  match kind f with EmbeddedDocumentField t => Some t | _ => None end.
Definition has_reference_type (f : Field) : bool :=
  match kind f with ReferenceField _ => true | _ => false end.

(** ** Projection sets *)

(** Modelled from the spec: [QueryFieldList.ONLY] and [QueryFieldList.EXCLUDE]
    ([motorengine/query_builder/field_list.py] is not part of this file), the
    INCLUDE and EXCLUDE flags of a driver projection. *)
Definition ONLY : PyVal := PInt 1.
Definition EXCLUDE : PyVal := PInt 0.

(** Modelled from the spec: the Projection Set, "a mapping from storage-level
    field name to one of INCLUDE, EXCLUDE, SLICE(spec), plus a flag only-mode
    active and a set of always-include names". *)
Record QueryFieldList := {
  fields_of : gmap string PyVal;
  _only_called : bool;
  always_include : gset string
}.

(** Modelled from the spec: [QueryFieldList(fields, value=value,
    _only_called=_only_called)], every listed name mapped to [value]. *)
Definition new_QueryFieldList (fields : list string) (value : PyVal)
    (only_called : bool) (always : gset string) : QueryFieldList :=
  {| fields_of := list_to_map ((λ f, (f, value)) <$> fields);
     _only_called := only_called;
     always_include := always |}.

(** Modelled from the spec: [self._loaded_fields += other], "merged into the
    existing Projection Set", a union in which the entries of the later call
    stand, the only-mode flag once set stays set, and the always-include names
    are kept. *)
Definition QueryFieldList_add (self other : QueryFieldList) : QueryFieldList :=
  {| fields_of := fields_of other ∪ fields_of self;
     _only_called := _only_called self || _only_called other;
     always_include := always_include self |}.

(** Modelled from the spec: [bool(self._loaded_fields)], true when the
    Projection Set is non-empty. *)
Definition QueryFieldList_bool (q : QueryFieldList) : bool :=
  negb (bool_decide (fields_of q = ∅)).

(** ** Filters *)

(** Modelled from the spec: a Filter Expression is "an opaque, composable
    predicate" built by [motorengine.query_builder] (not part of this file).
    The queryset only builds it from keyword comparisons, tests its truth
    value and asks it for its compiled query. *)
Inductive QNode :=
| Q (query : list (string * PyVal))
| QNot (q : QNode)
| QCombination (conjunction : bool) (left right : QNode).

(** [self._filters]: the empty dict [{}] or an expression node. *)
Inductive Filters :=
| EmptyDict
| Node (q : QNode).

(** Modelled from the spec: the truth value of [self._filters]; the empty
    dict is false, a node object (which defines no truth value of its own) is
    true. *)
Definition Filters_bool (f : Filters) : bool :=
  match f with EmptyDict => false | Node q => true end.

(** The driver filter document: [{}], [{"_id": id}], or what
    [filters.to_query(klass)] returned. *)
Inductive Query :=
| EmptyQuery
| by_id (id : PyVal)
| to_query (filters : QNode) (klass : string).

Inductive Direction := ASCENDING | DESCENDING.

(** ** The QuerySet object *)

Record QuerySet := {
  __klass__ : Klass;
  _filters : Filters;
  _limit : option Z;
  _skip : option Z;
  _order_fields : list (string * Direction);
  _loaded_fields : QueryFieldList;
  _reference_loaded_fields : gmap string (gmap string PyVal);
  current_count : Attr Z;
  result_size : Attr Z
}.

(** [QuerySet.__init__]. *)
Definition __init__ (klass : Klass) : QuerySet :=
  {| __klass__ := klass;
     _filters := EmptyDict;
     _limit := None;
     _skip := None;
     _order_fields := [];
     _loaded_fields := new_QueryFieldList [] ONLY false ∅;
     _reference_loaded_fields := ∅;
     current_count := Missing;
     result_size := Missing |}.

Definition DEFAULT_LIMIT : Z := 1000.

(** Assignments to the attributes of the queryset. *)
Definition set_filters (v : Filters) (qs : QuerySet) : QuerySet :=
  {| __klass__ := __klass__ qs; _filters := v;
     _limit := _limit qs; _skip := _skip qs;
     _order_fields := _order_fields qs;
     _loaded_fields := _loaded_fields qs;
     _reference_loaded_fields := _reference_loaded_fields qs;
     current_count := current_count qs; result_size := result_size qs |}.

Definition set_limit (v : option Z) (qs : QuerySet) : QuerySet :=
  {| __klass__ := __klass__ qs; _filters := _filters qs;
     _limit := v; _skip := _skip qs;
     _order_fields := _order_fields qs;
     _loaded_fields := _loaded_fields qs;
     _reference_loaded_fields := _reference_loaded_fields qs;
     current_count := current_count qs; result_size := result_size qs |}.


Definition set_order_fields (v : list (string * Direction)) (qs : QuerySet)
    : QuerySet :=
  {| __klass__ := __klass__ qs; _filters := _filters qs;
     _limit := _limit qs; _skip := _skip qs;
     _order_fields := v;
     _loaded_fields := _loaded_fields qs;
     _reference_loaded_fields := _reference_loaded_fields qs;
     current_count := current_count qs; result_size := result_size qs |}.

Definition set_loaded_fields (v : QueryFieldList) (qs : QuerySet) : QuerySet :=
  {| __klass__ := __klass__ qs; _filters := _filters qs;
     _limit := _limit qs; _skip := _skip qs;
     _order_fields := _order_fields qs;
     _loaded_fields := v;
     _reference_loaded_fields := _reference_loaded_fields qs;
     current_count := current_count qs; result_size := result_size qs |}.

Definition set_reference_loaded_fields (v : gmap string (gmap string PyVal))
    (qs : QuerySet) : QuerySet :=
  {| __klass__ := __klass__ qs; _filters := _filters qs;
     _limit := _limit qs; _skip := _skip qs;
     _order_fields := _order_fields qs;
     _loaded_fields := _loaded_fields qs;
     _reference_loaded_fields := v;
     current_count := current_count qs; result_size := result_size qs |}.

Definition set_current_count (v : Attr Z) (qs : QuerySet) : QuerySet :=
  {| __klass__ := __klass__ qs; _filters := _filters qs;
     _limit := _limit qs; _skip := _skip qs;
     _order_fields := _order_fields qs;
     _loaded_fields := _loaded_fields qs;
     _reference_loaded_fields := _reference_loaded_fields qs;
     current_count := v; result_size := result_size qs |}.

Definition set_result_size (v : Attr Z) (qs : QuerySet) : QuerySet :=
  {| __klass__ := __klass__ qs; _filters := _filters qs;
     _limit := _limit qs; _skip := _skip qs;
     _order_fields := _order_fields qs;
     _loaded_fields := _loaded_fields qs;
     _reference_loaded_fields := _reference_loaded_fields qs;
     current_count := current_count qs; result_size := v |}.

(** ** Documents *)

Definition Son := list (string * PyVal).

(** Modelled from the spec: a Materialized Document ([motorengine.document] is
    not part of this file): its class, its identity ([None] here when the
    object has no [_id] attribute at all), its field values, the partly
    loaded flag, the Reference Projection Map that applied, its lazy mode and
    what [validate()] answers. *)
Record Doc := {
  doc_klass : Klass;
  _id : option PyVal;
  values : Son;
  is_partly_loaded : bool;
  doc_reference_loaded_fields : gmap string (gmap string PyVal);
  is_lazy : bool;
  validate : Result bool
}.

(** Modelled from the spec: [klass.from_son(record, _is_partly_loaded,
    _reference_loaded_fields)]; lazy mode is the per-document-type default. *)
Definition from_son (klass : Klass) (record : Son) (partly : bool)
    (refs : gmap string (gmap string PyVal)) : Doc :=
  {| doc_klass := klass;
     _id := Some (default PNone (dict_get record "_id"));
     values := record;
     is_partly_loaded := partly;
     doc_reference_loaded_fields := refs;
     is_lazy := __lazy__ klass;
     validate := Ok true |}.

(** Modelled from the spec: [document.to_son()], the store-ready record. *)
Definition to_son (d : Doc) : Son := values d.

Definition set_id (d : Doc) (id : PyVal) : Doc :=
  {| doc_klass := doc_klass d; _id := Some id; values := values d;
     is_partly_loaded := is_partly_loaded d;
     doc_reference_loaded_fields := doc_reference_loaded_fields d;
     is_lazy := is_lazy d; validate := validate d |}.

(** [setattr(document, field_name, value)]. *)
Fixpoint dict_set {A} (d : list (string * A)) (key : string) (v : A)
    : list (string * A) :=
  match d with
  | [] => [(key, v)]
  | (k, x) :: rest =>
      if decide (k = key) then (k, v) :: rest else (k, x) :: dict_set rest key v
  end.

Definition setattr (d : Doc) (field_name : string) (v : PyVal) : Doc :=
  {| doc_klass := doc_klass d; _id := _id d;
     values := dict_set (values d) field_name v;
     is_partly_loaded := is_partly_loaded d;
     doc_reference_loaded_fields := doc_reference_loaded_fields d;
     is_lazy := is_lazy d; validate := validate d |}.

(** ** Calls, closures and the world *)

(** What a collaborator passes to a callback, and what a callback passes to
    the caller's continuation. *)
Inductive Arg :=
| AVal (v : PyVal)
| ARecord (r : Son)
| ARecords (l : list Son)
| AWrite (n : Z) (updatedExisting : bool)
| AErr (e : Exc)
| ADoc (d : Doc)
| ADocs (l : list Doc)
| AUpdated (count : Z) (updated_existing : bool).

Definition Arg_bool (a : Arg) : bool :=
  match a with
  | AVal v => truthy v
  | ARecord r => negb (bool_decide (r = []))
  | ARecords l => match l with [] => false | _ => true end
  | ADocs l => match l with [] => false | _ => true end
  | AWrite _ _ | AErr _ | ADoc _ | AUpdated _ _ => true
  end.

(** The closures of the module, as data.  [caller k] is a continuation
    supplied by the caller; the others are the inner [handle] functions, with
    the variables they capture. *)
Inductive Closure :=
| caller (k : nat)
| handle_save (document : Doc) (callback : Closure)
| handle_update (document : Doc) (callback : Closure)
| indexes_saved_before_save (document : Doc) (callback : Closure)
    (alias : option string)
| handle_update_documents (callback : Closure)
| handle_remove (callback : Closure)
| handle_auto_load_references (doc : Doc) (callback : Closure)
| handle_get (callback : Closure)
| handle_find_all_auto_load_references (callback : Closure)
    (results : list Doc)
| handle_find_all (callback : Closure) (lazy : option bool)
| handle_count (callback : Closure)
| handle_ensure_index (callback : Closure) (created_indexes : nat)
    (total_indexes : nat).

(** The driver projection: what [self._loaded_fields.to_query(klass)]
    returned. *)
Inductive Projection :=
| loaded_to_query (loaded : QueryFieldList) (klass : string).

(** The cursor [coll.find(query_filters, projection=..., **find_arguments)]. *)
Record Cursor := {
  query_filters : Query;
  projection : Projection;
  sort : option (list (string * Direction));
  limit_arg : option Z;
  skip_arg : option Z
}.

(** The collection [conn[klass.__collection__]] a call is made on. *)
Record Collection := { connection : option string; collection : string }.

(** The calls made on the collaborators: the store's collection and cursor
    methods, and [doc.load_references]. *)
Inductive Call :=
| insert (coll : Collection) (doc : Son) (callback : Closure)
| update_one (coll : Collection) (id : PyVal) (doc : Son) (callback : Closure)
| update_multi (coll : Collection) (spec : Query)
    (set : list (string * PyVal)) (callback : Closure)
| remove_one (coll : Collection) (id : PyVal) (callback : Closure)
| remove_matching (coll : Collection) (spec : Query) (callback : Closure)
| remove_all (coll : Collection) (callback : Closure)
| find_one (coll : Collection) (filters : Query) (proj : Projection)
    (callback : Closure)
| to_list (coll : Collection) (cursor : Cursor) (length : Z)
    (callback : Closure)
| count_documents (coll : Collection) (cursor : Cursor) (callback : Closure)
| ensure_index_on (coll : Collection) (field : string) (uniq spars : bool)
    (callback : Closure)
| load_references (doc : Doc) (fields : option (list (string * Field)))
    (callback : Closure).

Definition callback_of (c : Call) : Closure :=
  match c with
  | insert _ _ k | update_one _ _ _ k | update_multi _ _ _ k
  | remove_one _ _ k | remove_matching _ _ k | remove_all _ k
  | find_one _ _ _ k | to_list _ _ _ k | count_documents _ _ k
  | ensure_index_on _ _ _ _ k | load_references _ _ k => k
  end.

Record World := {
  self : QuerySet;
  calls : list Call;
  waiting : list nat;
  called : list (nat * list Arg);
  lists : gmap nat (list Arg);
  answers_at_once : Doc -> option (list Arg)
}.

(** A fresh world around a queryset.  [answers_at_once doc] says whether
    [doc.load_references] invokes its callback before it returns (and with
    what), or later. *)
Definition world (qs : QuerySet) (at_once : Doc -> option (list Arg)) : World :=
  {| self := qs; calls := []; waiting := []; called := []; lists := ∅;
     answers_at_once := at_once |}.

(** ** Methods as computations *)

Definition M (A : Type) : Type := World -> Result A * World.

Definition ret {A} (a : A) : M A := λ w, (Ok a, w).
Definition raise {A} (e : Exc) : M A := λ w, (Raise e, w).
Definition bind {A B} (m : M A) (f : A -> M B) : M B :=
  λ w, match m w with
       | (Ok a, w') => f a w'
       | (Raise e, w') => (Raise e, w')
       end.

Notation "x <- c1 ;; c2" := (bind c1 (λ x, c2))
  (at level 100, c1 at next level, right associativity).
Notation "c1 ;; c2" := (bind c1 (λ _, c2))
  (at level 100, right associativity).

Definition get_self : M QuerySet := λ w, (Ok (self w), w).

Definition set_self (f : QuerySet -> QuerySet) : M unit :=
  λ w, (Ok tt, {| self := f (self w); calls := calls w; waiting := waiting w;
                 called := called w; lists := lists w;
                 answers_at_once := answers_at_once w |}).

(** A call on a collaborator whose callback will be invoked later. *)
Definition issue (c : Call) : M unit :=
  λ w, (Ok tt, {| self := self w; calls := calls w ++ [c];
                 waiting := waiting w ++ [length (calls w)];
                 called := called w; lists := lists w;
                 answers_at_once := answers_at_once w |}).

(** A call on a collaborator that invokes its callback before returning. *)
Definition issue_answered (c : Call) : M unit :=
  λ w, (Ok tt, {| self := self w; calls := calls w ++ [c];
                 waiting := waiting w;
                 called := called w; lists := lists w;
                 answers_at_once := answers_at_once w |}).

(** The caller's continuation [k] is invoked. *)
Definition deliver (k : nat) (arguments : list Arg) : M unit :=
  λ w, (Ok tt, {| self := self w; calls := calls w; waiting := waiting w;
                 called := called w ++ [(k, arguments)]; lists := lists w;
                 answers_at_once := answers_at_once w |}).

Definition new_list : M nat :=
  λ w, let l := fresh (dom (lists w)) in
       (Ok l, {| self := self w; calls := calls w; waiting := waiting w;
                 called := called w; lists := <[l := []]> (lists w);
                 answers_at_once := answers_at_once w |}).

Definition list_append (l : nat) (a : Arg) : M unit :=
  λ w, (Ok tt, {| self := self w; calls := calls w; waiting := waiting w;
                 called := called w;
                 lists := <[l := default [] (lists w !! l) ++ [a]]> (lists w);
                 answers_at_once := answers_at_once w |}).

Definition list_len (l : nat) : M nat :=
  λ w, (Ok (length (default [] (lists w !! l))), w).

Definition at_once (d : Doc) : M (option (list Arg)) :=
  λ w, (Ok (answers_at_once w d), w).

(** [for x in xs: body(x)]. *)
Fixpoint for_each {A} (xs : list A) (body : A -> M unit) : M unit :=
  match xs with
  | [] => ret tt
  | x :: rest => body x ;; for_each rest body
  end.

(** ** Completion handlers *)

(** [self.coll(alias)]: the collection of the document class on the
    connection of [alias], of the class's own alias, or on the default one. *)
Definition coll (alias : option string) : M Collection :=
  qs <- get_self ;;
  ret {| connection := match alias with
                       | Some a => Some a
                       | None => __alias__ (__klass__ qs)
                       end;
         collection := __collection__ (__klass__ qs) |}.

(** [len(arguments) > 1 and arguments[1]]: the error a collaborator
    reported, if any. *)
Definition reported_error (arguments : list Arg) : option Arg :=
  match arguments with
  | _ :: e :: _ => if Arg_bool e then Some e else None
  | _ => None
  end.

(** [raise arguments[1]]. *)
Definition raise_reported {A} (a : Arg) : M A :=
  match a with
  | AErr e => raise e
  | _ => raise (TypeError "exceptions must derive from BaseException")
  end.

(** [arguments[0]]. *)
Definition first_argument (arguments : list Arg) : M Arg :=
  match arguments with
  | a :: _ => ret a
  | [] => raise (IndexError "tuple index out of range")
  end.

(** The value an argument is when it is stored in an attribute. *)
Definition as_value (a : Arg) : PyVal :=
  match a with
  | AVal v => v
  | _ => PObject (Arg_bool a)
  end.

(** [document._id is not None]. *)
Definition id_is_not_None (d : Doc) : M bool :=
  match _id d with
  | None => raise (AttributeError "_id")
  | Some PNone => ret false
  | Some _ => ret true
  end.

(** [update_field_on_save_values]: every field with an [on_save] hook is set
    to what the hook returns. *)
Fixpoint update_field_on_save_values (fields : list (string * Field))
    (document : Doc) (creating : bool) : Doc :=
  match fields with
  | [] => document
  | (field_name, field) :: rest =>
      let document :=
        match on_save field with
        | Some hook => setattr document field_name (PCall hook creating)
        | None => document
        end in
      update_field_on_save_values rest document creating
  end.

(** [(lazy is not None and not lazy) or not doc.is_lazy], the test of
    [handle_find_all] that sends a document to [load_references]. *)
Definition loads_references (lazy : option bool) (doc : Doc) : bool :=
  match lazy with Some l => negb l | None => false end || negb (is_lazy doc).

(** The inner [handle] of [handle_find_all_auto_load_references], given how to
    invoke [callback]. *)
Definition find_all_signal (call : list Arg -> M unit) (results : list Doc)
    : M unit :=
  qs <- get_self ;;
  match current_count qs with
  | Missing => raise (AttributeError "current_count")
  | IsNone => raise (TypeError "unsupported operand type(s) for +=")
  | Val n =>
      set_self (set_current_count (Val (n + 1))) ;;
      match result_size qs with
      | Missing => raise (AttributeError "result_size")
      | IsNone => ret tt
      | Val size =>
          if decide (n + 1 = size) then
            set_self (set_current_count IsNone) ;;
            set_self (set_result_size IsNone) ;;
            call [ADocs results]
          else ret tt
      end
  end.

(** The second loop of [handle_find_all]: every document of the batch is
    either sent to [load_references] or signalled at once. *)
Definition find_all_resolve (call : list Arg -> M unit) (callback : Closure)
    (lazy : option bool) (result : list Doc) (todo : list Doc) : M unit :=
  for_each todo (λ doc,
    if loads_references lazy doc then
      let request :=
        load_references doc (Some (_fields (doc_klass doc)))
          (handle_find_all_auto_load_references callback result) in
      now <- at_once doc ;;
      match now with
      | Some _ => issue_answered request ;; find_all_signal call result
      | None => issue request
      end
    else find_all_signal call result).

(** The end of the inner [handle] of [handle_find_all]: an empty batch is
    delivered at once, any other goes through the second loop. *)
Definition find_all_deliver (call : list Arg -> M unit) (callback : Closure)
    (lazy : option bool) (result : list Doc) : M unit :=
  match result with
  | [] => call [ADocs result]
  | _ => find_all_resolve call callback lazy result result
  end.

(** The inner [handle] of [handle_auto_load_references]. *)
Definition auto_load_signal (call : list Arg -> M unit) (doc : Doc)
    (arguments : list Arg) : M unit :=
  match arguments with
  | _ :: _ => call [ADoc doc]
  | [] => call [AVal PNone]
  end.

(** [invoke c arguments]: the closure [c] is called with [*arguments]. *)
Fixpoint invoke (c : Closure) (arguments : list Arg) {struct c} : M unit :=
  match c with
  | caller k => deliver k arguments
  | handle_save document callback =>
      match reported_error arguments with
      | Some (AErr (DuplicateKeyError m)) =>
          qs <- get_self ;;
          raise (UniqueKeyViolationError (str (DuplicateKeyError m))
                   (__name__ (__klass__ qs)))
      | Some e => raise_reported e
      | None =>
          id <- first_argument arguments ;;
          invoke callback [ADoc (set_id document (as_value id))]
      end
  | handle_update document callback =>
      match reported_error arguments with
      | Some e => raise_reported e
      | None => invoke callback [ADoc document]
      end
  | indexes_saved_before_save document callback alias =>
      qs <- get_self ;;
      creating <- id_is_not_None document ;;
      let document :=
        update_field_on_save_values (_fields (__klass__ qs)) document creating in
      let doc := to_son document in
      existing <- id_is_not_None document ;;
      c <- coll alias ;;
      if (existing : bool) then
        issue (update_one c (default PNone (_id document)) doc
                 (handle_update document callback))
      else issue (insert c doc (handle_save document callback))
  | handle_update_documents callback =>
      match reported_error arguments with
      | Some e => raise_reported e
      | None =>
          reply <- first_argument arguments ;;
          match reply with
          | AWrite n updated => invoke callback [AUpdated n updated]
          | _ => raise (TypeError "object is not subscriptable")
          end
      end
  | handle_remove callback =>
      reply <- first_argument arguments ;;
      match reply with
      | AWrite n _ => invoke callback [AVal (PInt n)]
      | _ => raise (TypeError "object is not subscriptable")
      end
  | handle_auto_load_references doc callback =>
      auto_load_signal (invoke callback) doc arguments
  | handle_get callback =>
      instance <- first_argument arguments ;;
      match instance with
      | AVal PNone => invoke callback [AVal PNone]
      | ARecord record =>
          qs <- get_self ;;
          let doc := from_son (__klass__ qs) record
                       (QueryFieldList_bool (_loaded_fields qs))
                       (_reference_loaded_fields qs) in
          if __lazy__ (__klass__ qs) then invoke callback [ADoc doc]
          else
            let request :=
              load_references doc None
                (handle_auto_load_references doc callback) in
            now <- at_once doc ;;
            match now with
            | Some answer =>
                issue_answered request ;;
                auto_load_signal (invoke callback) doc answer
            | None => issue request
            end
      | _ => raise (TypeError "from_son expects a record")
      end
  | handle_find_all_auto_load_references callback results =>
      find_all_signal (invoke callback) results
  | handle_find_all callback lazy =>
      match reported_error arguments with
      | Some e => raise_reported e
      | None =>
          set_self (set_current_count (Val 0)) ;;
          records <- first_argument arguments ;;
          match records with
          | ARecords records =>
              set_self (set_result_size (Val (Z.of_nat (length records)))) ;;
              qs <- get_self ;;
              let is_partly_loaded := QueryFieldList_bool (_loaded_fields qs) in
              let result :=
                (λ doc, from_son (__klass__ qs) doc is_partly_loaded
                          (_reference_loaded_fields qs)) <$> records in
              find_all_deliver (invoke callback) callback lazy result
          | _ => raise (TypeError "object has no len()")
          end
      end
  | handle_count callback =>
      match reported_error arguments with
      | Some e => raise_reported e
      | None =>
          n <- first_argument arguments ;;
          invoke callback [n]
      end
  | handle_ensure_index callback created_indexes total_indexes =>
      match reported_error arguments with
      | Some e => raise_reported e
      | None =>
          index <- first_argument arguments ;;
          list_append created_indexes index ;;
          n <- list_len created_indexes ;;
          if (n <? total_indexes)%nat then ret tt
          else invoke callback [AVal (PInt (Z.of_nat total_indexes))]
      end
  end.

(** A collaborator invokes the callback of the call it received as the
    [i]-th, with [arguments].  [None] when that call is not waiting for its
    callback. *)
Definition answer (i : nat) (arguments : list Arg) (w : World)
    : option (Result unit * World) :=
  if decide (i ∈ waiting w) then
    match calls w !! i with
    | Some c =>
        Some (invoke (callback_of c) arguments
                {| self := self w; calls := calls w;
                   waiting := filter (λ j, j ≠ i) (waiting w);
                   called := called w; lists := lists w;
                   answers_at_once := answers_at_once w |})
    | None => None
    end
  else None.

(** ** Terminal operations *)

(** [get_query_from_filters]. *)
Definition get_query_from_filters (filters : Filters) : M Query :=
  qs <- get_self ;;
  match filters with
  | Node q =>
      if negb (Filters_bool filters) then ret EmptyQuery
      else ret (to_query q (__name__ (__klass__ qs)))
  | EmptyDict => ret EmptyQuery
  end.

(** [_get_find_cursor]. *)
Definition _get_find_cursor (alias : option string) : M (Collection * Cursor) :=
  qs <- get_self ;;
  let sort_argument :=
    match _order_fields qs with [] => None | fs => Some fs end in
  let limit_argument :=
    match _limit qs with
    | Some n => if truthy (PInt n) then Some n else None
    | None => None
    end in
  let skip_argument :=
    match _skip qs with
    | Some n => if truthy (PInt n) then Some n else None
    | None => None
    end in
  query_filters <- get_query_from_filters (_filters qs) ;;
  c <- coll alias ;;
  ret (c, {| query_filters := query_filters;
             projection := loaded_to_query (_loaded_fields qs)
                             (__name__ (__klass__ qs));
             sort := sort_argument;
             limit_arg := limit_argument;
             skip_arg := skip_argument |}).

(** [self._filters = {}]. *)
Definition reset_filters : M unit :=
  set_self (set_filters EmptyDict).

(** [find_all]. *)
Definition find_all (callback : Closure) (lazy : option bool)
    (alias : option string) : M unit :=
  qs <- get_self ;;
  let handler := handle_find_all callback lazy in
  let length :=
    match _limit qs with
    | Some n => n
    | None => DEFAULT_LIMIT
    end in
  found <- _get_find_cursor alias ;;
  let '(c, cursor) := found in
  reset_filters ;;
  issue (to_list c cursor length handler).

(** [count]. *)
Definition count (callback : Closure) (alias : option string) : M unit :=
  found <- _get_find_cursor alias ;;
  let '(c, cursor) := found in
  reset_filters ;;
  issue (count_documents c cursor (handle_count callback)).

(** A field specification: a logical name or a field-handle object. *)
Inductive FieldSpec :=
| by_name (s : string)
| by_field (f : Field).

(** [transform_definition]: field-handle keys become storage names. *)
Fixpoint transform_definition (definition : list (FieldSpec * PyVal))
    (result : list (string * PyVal)) : list (string * PyVal) :=
  match definition with
  | [] => result
  | (by_field f, value) :: rest =>
      transform_definition rest (dict_set result (db_field f) value)
  | (by_name key, value) :: rest =>
      transform_definition rest (dict_set result key value)
  end.

(** [update]. *)
Definition update (definition : list (FieldSpec * PyVal))
    (callback : option Closure) (alias : option string) : M unit :=
  match callback with
  | None => raise (RuntimeError "The callback argument is required")
  | Some callback =>
      let definition := transform_definition definition [] in
      qs <- get_self ;;
      update_filters <-
        (if Filters_bool (_filters qs)
         then get_query_from_filters (_filters qs)
         else ret EmptyQuery) ;;
      c <- coll alias ;;
      issue (update_multi c update_filters definition
               (handle_update_documents callback))
  end.

(** [remove]. *)
Definition remove (instance : option Doc) (callback : option Closure)
    (alias : option string) : M unit :=
  match callback with
  | None => raise (RuntimeError "The callback argument is required")
  | Some callback =>
      match instance with
      | Some instance =>
          match _id instance with
          | Some id =>
              if truthy id then
                c <- coll alias ;;
                issue (remove_one c id (handle_remove callback))
              else ret tt
          | None => ret tt
          end
      | None =>
          qs <- get_self ;;
          if Filters_bool (_filters qs) then
            remove_filters <- get_query_from_filters (_filters qs) ;;
            c <- coll alias ;;
            issue (remove_matching c remove_filters (handle_remove callback))
          else
            c <- coll alias ;;
            issue (remove_all c (handle_remove callback))
      end
  end.

(** [delete]. *)
Definition delete (callback : option Closure) (alias : option string)
    : M unit :=
  remove None callback alias.

(** [get]. *)
Definition get (id : option PyVal) (callback : Closure)
    (alias : option string) (kwargs : list (string * PyVal)) : M unit :=
  match id, kwargs with
  | None, [] =>
      raise (RuntimeError "Either an id or a filter must be provided to get")
  | _, _ =>
      filters <-
        match id with
        | Some (PObjectId o) => ret (by_id (PObjectId o))
        | Some (PStr s) => ret (by_id (PObjectId s))
        | Some _ => raise (TypeError "id must be an instance of ObjectId")
        | None => get_query_from_filters (Node (Q kwargs))
        end ;;
      qs <- get_self ;;
      c <- coll alias ;;
      issue (find_one c filters
               (loaded_to_query (_loaded_fields qs) (__name__ (__klass__ qs)))
               (handle_get callback))
  end.

(** [ensure_index]. *)
Definition ensure_index (callback : Closure) (alias : option string)
    : M unit :=
  qs <- get_self ;;
  let fields_with_index :=
    filter (λ field, unique field || sparse field = true)
      (snd <$> _fields (__klass__ qs)) in
  created_indexes <- new_list ;;
  for_each fields_with_index (λ field,
    c <- coll alias ;;
    issue (ensure_index_on c (db_field field) (unique field) (sparse field)
             (handle_ensure_index callback created_indexes
                (length fields_with_index)))) ;;
  match fields_with_index with
  | [] => invoke callback [AVal (PInt 0)]
  | _ => ret tt
  end.

(** [validate_document]; a document is an instance of the class of its
    name. *)
Definition validate_document (document : Doc) : M bool :=
  qs <- get_self ;;
  if decide (__name__ (doc_klass document) = __name__ (__klass__ qs)) then
    match validate document with
    | Ok b => ret b
    | Raise e => raise e
    end
  else raise (ValueError
    ("This queryset for class '" +:+ __name__ (__klass__ qs) +:+
     "' can't save an instance of type '" +:+
     __name__ (doc_klass document) +:+ "'.")).

(** [save]. *)
Definition save (document : Doc) (callback : Closure)
    (alias : option string) : M unit :=
  if is_partly_loaded document then
    raise (PartlyLoadedDocumentError
      ("Partly loaded document " +:+ __name__ (doc_klass document) +:+
       " can't be saved. Document should be loaded without 'only', " +:+
       "'exclude' or 'fields' QuerySet's modifiers"))
  else
    valid <- validate_document document ;;
    if (valid : bool) then
      ensure_index (indexes_saved_before_save document callback alias) alias
    else ret tt.

(** ** Builder methods *)


(** [limit]. *)
Definition limit (n : Z) : M unit :=
  set_self (set_limit (Some n)).

Definition list_field_message : string :=
  "Can't order by a list field. If you meant to order by the size of the list, please use either an Aggregation Pipeline query (look for Document.objects.aggregate) or create an IntField with the size of the list field in your Document.".

(** [order_by]. *)
Definition order_by (field_name : FieldSpec) (direction : Direction)
    : M unit :=
  match field_name with
  | by_field f =>
      if is_ListField f then raise (ValueError list_field_message)
      else ret tt
  | by_name _ => ret tt
  end ;;
  let field_name :=
    match field_name with
    | by_field f => name f
    | by_name s => s
    end in
  qs <- get_self ;;
  match dict_get (_fields (__klass__ qs)) field_name with
  | None =>
      raise (ValueError
        ("Invalid order by field '" +:+ field_name +:+
         "': Field not found in '" +:+ __name__ (__klass__ qs) +:+ "'."))
  | Some field =>
      set_self (λ qs, set_order_fields
                        (_order_fields qs ++ [(db_field field, direction)]) qs)
  end.

(** ** The projection builder *)

(** ['.' in s]. *)
Fixpoint contains_dot (s : string) : bool :=
  match s with
  | EmptyString => false
  | String c rest => Ascii.eqb c "." || contains_dot rest
  end.

(** [s.split('.', 1)]: the part before the first dot and, when there is a
    dot, the part after it. *)
Fixpoint split_once (s : string) : string * option string :=
  match s with
  | EmptyString => (EmptyString, None)
  | String c rest =>
      if Ascii.eqb c "." then (EmptyString, Some rest)
      else let '(h, t) := split_once rest in (String c h, t)
  end.

(** [s.split('__')]. *)
Fixpoint split_dunder (s : string) : list string :=
  match s with
  | EmptyString => [EmptyString]
  | String c rest =>
      let otherwise :=
        match split_dunder rest with
        | p :: ps => String c p :: ps
        | [] => [String c EmptyString]
        end in
      if Ascii.eqb c "_" then
        match rest with
        | String c' rest' =>
            if Ascii.eqb c' "_" then EmptyString :: split_dunder rest'
            else otherwise
        | EmptyString => otherwise
        end
      else otherwise
  end.

(** ['.'.join(parts)]. *)
Definition join_dots (parts : list string) : string := String.concat "." parts.

(** The truth value of [tail]: [None] and the empty string are false. *)
Definition tail_bool (t : option string) : bool :=
  match t with
  | Some s => negb (String.eqb s "")
  | None => false
  end.

Definition tail_size (t : option string) : nat :=
  match t with
  | Some s => S (String.length s)
  | None => O
  end.

(** [_fill_reference_loaded_fields]. *)
Definition _fill_reference_loaded_fields (head : list string)
    (rest : option string) (field_name : string) (value : PyVal)
    : M (string * PyVal) :=
  let name := join_dots head in
  match rest with
  | Some t =>
      if tail_bool rest then
        set_self (λ qs,
          set_reference_loaded_fields
            (<[name := <[t := value]>
                         (default ∅ (_reference_loaded_fields qs !! name))]>
               (_reference_loaded_fields qs)) qs) ;;
        ret (name, ONLY)
      else ret (field_name, value)
  | None => ret (field_name, value)
  end.

Definition field_not_found (field_name klass_name : string) : Exc :=
  ValueError ("Invalid field '" +:+ field_name +:+
              "': Field not found in '" +:+ klass_name +:+ "'.").

Definition inspect {A} (x : A) : { y : A | x = y } := exist _ x eq_refl.

(** The [while tail:] loop of [_check_valid_field_name_to_project]; [obj] is
    the class the next component is looked up in ([None] after a field that
    has no fields of its own), [before] the list [head] of the components
    consumed so far, [klass_name] the name of the root class.  The
    item type of a list of embedded documents is the embedded type of its
    base field. *)
Equations? walk (klass_name field_name : string) (value : PyVal)
    (rest : option string) (before : list string) (obj : option Klass)
    : M (string * PyVal) by wf (tail_size rest) lt :=
  walk klass_name field_name value None before obj := ret (field_name, value);
  walk klass_name field_name value (Some t) before obj
    with inspect (split_once t) := {
    | exist _ (field_value, rest') E =>
        if tail_bool (Some t) then
          let before := before ++ [field_value] in
          match obj with
          | None => raise (field_not_found field_name klass_name)
          | Some o =>
              match dict_get (_fields o) field_value with
              | None => raise (field_not_found field_name klass_name)
              | Some field =>
                  match kind field with
                  | EmbeddedDocumentField embedded_type =>
                      walk klass_name field_name value rest' before
                        (Some embedded_type)
                  | ListField base =>
                      match kind base with
                      | EmbeddedDocumentField item_type =>
                          walk klass_name field_name value rest' before
                            (Some item_type)
                      | ReferenceField _ =>
                          _fill_reference_loaded_fields before rest'
                            field_name value
                      | _ => walk klass_name field_name value rest' before None
                      end
                  | ReferenceField _ =>
                      _fill_reference_loaded_fields before rest' field_name value
                  | PlainField =>
                      walk klass_name field_name value rest' before None
                  end
              end
          end
        else ret (field_name, value) }.
Proof.
  all: clear - E; revert field_value rest' E;
    induction t as [|c t IH]; simpl; intros h r E;
    [ inversion E; subst; simpl; lia | ];
    destruct (Ascii.eqb c _);
    [ inversion E; subst; simpl; lia | ];
    destruct (split_once t) as [h' r'] eqn:Es; inversion E; subst;
    specialize (IH _ _ eq_refl); destruct r; simpl in *; lia.
Qed.

(** [_check_valid_field_name_to_project]. *)
Definition _check_valid_field_name_to_project (field_name : string)
    (value : PyVal) : M (string * PyVal) :=
  qs <- get_self ;;
  if negb (contains_dot field_name) &&
     (bool_decide (field_name = "_id") ||
      bool_decide (is_Some (dict_get (_fields (__klass__ qs)) field_name)))
  then ret (field_name, value)
  else walk (__name__ (__klass__ qs)) field_name value (Some field_name) []
         (Some (__klass__ qs)).

(** The rank of a value's type and the comparison of two values, as
    [sorted] orders the projection values of one [fields] call: numbers by
    value, then the other kinds, each kind among itself. *)
Definition type_rank (v : PyVal) : Z :=
  match v with
  | PNone => 0
  | PInt _ => 1
  | PObjectId _ => 2
  | PCall _ _ => 3
  | PObject _ => 4
  | PDict _ _ => 5
  | PStr _ => 6
  | PTuple _ _ => 7
  end.

Fixpoint compare_values (a b : PyVal) : comparison :=
  match a, b with
  | PInt n, PInt m => Z.compare n m
  | PStr s, PStr t => String.compare s t
  | PTuple a1 a2, PTuple b1 b2 =>
      match Z.compare a1 b1 with
      | Eq => Z.compare a2 b2
      | c => c
      end
  | PDict k v, PDict k' v' =>
      match String.compare k k' with
      | Eq => compare_values v v'
      | c => c
      end
  | _, _ => Z.compare (type_rank a) (type_rank b)
  end.

(** [sorted(cleaned_fields, key=operator.itemgetter(1))], a stable sort. *)
Fixpoint insert_sorted (x : string * PyVal) (l : list (string * PyVal))
    : list (string * PyVal) :=
  match l with
  | [] => [x]
  | y :: rest =>
      match compare_values (snd y) (snd x) with
      | Lt => y :: insert_sorted x rest
      | _ => x :: y :: rest
      end
  end.

Definition sorted (l : list (string * PyVal)) : list (string * PyVal) :=
  foldr insert_sorted [] l.

(** [itertools.groupby(fields, lambda x: x[1])] with the names of each
    group. *)
Fixpoint groupby (l : list (string * PyVal)) : list (PyVal * list string) :=
  match l with
  | [] => []
  | (field, value) :: rest =>
      match groupby rest with
      | (value', group) :: groups =>
          if decide (value = value') then (value, field :: group) :: groups
          else (value, [field]) :: (value', group) :: groups
      | [] => [(value, [field])]
      end
  end.

Definition operators : list string := ["slice"].

(** The head of one turn of the first loop of [fields]: an operator prefix
    is turned into a driver operator around the value, the parts are joined
    with dots. *)
Definition transform_operator (key : string) (value : PyVal)
    : string * PyVal :=
  let parts := split_dunder key in
  let '(parts, value) :=
    match parts with
    | op :: others =>
        if bool_decide (op ∈ operators)
        then (others, PDict ("$" +:+ op) value)
        else (parts, value)
    | [] => (parts, value)
    end in
  (join_dots parts, value).

(** One turn of the first loop of [fields]. *)
Definition clean_field (key : string) (value : PyVal) : M (string * PyVal) :=
  let '(key, value) := transform_operator key value in
  _check_valid_field_name_to_project key value.

Fixpoint clean_fields (kwargs : list (string * PyVal))
    (cleaned_fields : list (string * PyVal)) : M (list (string * PyVal)) :=
  match kwargs with
  | [] => ret cleaned_fields
  | (key, value) :: rest =>
      cleaned <- clean_field key value ;;
      clean_fields rest (cleaned_fields ++ [cleaned])
  end.

(** [self._loaded_fields += QueryFieldList(fields, value=value,
    _only_called=_only_called)]. *)
Definition add_loaded_fields (only_called : bool)
    (group : PyVal * list string) : M unit :=
  set_self (λ qs,
    set_loaded_fields
      (QueryFieldList_add (_loaded_fields qs)
         (new_QueryFieldList (snd group) (fst group) only_called ∅)) qs).

(** [fields]. *)
Definition fields (only_called : bool) (kwargs : list (string * PyVal))
    : M unit :=
  cleaned_fields <- clean_fields kwargs [] ;;
  for_each (groupby (sorted cleaned_fields)) (add_loaded_fields only_called).

(** The keyword dict [only] and [exclude] build: every field, by its name,
    mapped to [value]. *)
Fixpoint named_fields (specs : list FieldSpec) (value : PyVal)
    (result : list (string * PyVal)) : list (string * PyVal) :=
  match specs with
  | [] => result
  | by_field f :: rest => named_fields rest value (dict_set result (name f) value)
  | by_name s :: rest => named_fields rest value (dict_set result s value)
  end.

(** [only]. *)
Definition only (specs : list FieldSpec) : M unit :=
  fields true (named_fields specs ONLY []).

(** [exclude]. *)
Definition exclude (specs : list FieldSpec) : M unit :=
  fields false (named_fields specs EXCLUDE []).

(** [all_fields]. *)
Definition all_fields : M unit :=
  set_self (λ qs,
    set_loaded_fields
      (new_QueryFieldList [] ONLY false (always_include (_loaded_fields qs)))
      qs).

(** ** Sample classes *)

Definition StringField (n : string) : Field :=
  BaseField n n false false None PlainField.

Definition Comment : Klass :=
  DocumentClass "Comment" "Comment" None true
    [("text", StringField "text"); ("votes", StringField "votes")].

Definition BlogPost : Klass :=
  DocumentClass "BlogPost" "BlogPost" None false
    [("title", BaseField "title" "title" true false None PlainField);
     ("slug", BaseField "slug" "slug" true true None PlainField);
     ("tags", BaseField "tags" "tags" false false None
                (ListField (StringField "tag")));
     ("author", BaseField "author" "author" false false None
                  (ReferenceField "User"));
     ("meta", BaseField "meta" "meta" false false None
                (EmbeddedDocumentField Comment));
     ("comments", BaseField "comments" "comments" false false None
                    (ListField (BaseField "comment" "comment" false false None
                                  (EmbeddedDocumentField Comment))))].

Definition later : Doc -> option (list Arg) := λ _, None.

Definition unsaved (klass : Klass) (record : Son) : Doc :=
  {| doc_klass := klass; _id := Some PNone; values := record;
     is_partly_loaded := false; doc_reference_loaded_fields := ∅;
     is_lazy := __lazy__ klass; validate := Ok true |}.

(** ** Running computations and callbacks *)

Definition outcome {A} (m : M A) (w : World) : Result A := fst (m w).
Definition after {A} (m : M A) (w : World) : World := snd (m w).

(** The collaborators call back, one after the other: [(i, arguments)] is
    the callback of the [i]-th call invoked with [arguments].  The results
    of the callbacks are collected; an exception in one does not stop the
    next.  [None] when a callback is invoked that no call is waiting for. *)
Fixpoint play (events : list (nat * list Arg)) (w : World)
    : option (list (Result unit) * World) :=
  match events with
  | [] => Some ([], w)
  | (i, arguments) :: rest =>
      match answer i arguments w with
      | None => None
      | Some (r, w') =>
          match play rest w' with
          | Some (rs, w'') => Some (r :: rs, w'')
          | None => None
          end
      end
  end.

(** The waiting calls among those made from the [base]-th on. *)
Definition waiting_from (base : nat) (w : World) : list nat :=
  filter (λ i, base ≤ i)%nat (waiting w).

(** A world is well formed when every waiting index is the index of a call
    and no index waits twice. *)
Definition well_formed (w : World) : Prop :=
  NoDup (waiting w) ∧ ∀ i, i ∈ waiting w → (i < length (calls w))%nat.

(** The query a filter state compiles to. *)
Definition compiled (qs : QuerySet) : Query :=
  match _filters qs with
  | EmptyDict => EmptyQuery
  | Node q => to_query q (__name__ (__klass__ qs))
  end.

(** The fields of a class that carry an index. *)
Definition indexed_fields (klass : Klass) : list Field :=
  filter (λ field, unique field || sparse field = true) (snd <$> _fields klass).

(** The collection the calls of a queryset go to. *)
Definition target (qs : QuerySet) (alias : option string) : Collection :=
  {| connection := match alias with
                   | Some a => Some a
                   | None => __alias__ (__klass__ qs)
                   end;
     collection := __collection__ (__klass__ qs) |}.

(** The cursor a queryset asks for. *)
Definition cursor_of (qs : QuerySet) : Cursor :=
  {| query_filters := compiled qs;
     projection := loaded_to_query (_loaded_fields qs) (__name__ (__klass__ qs));
     sort := match _order_fields qs with [] => None | fs => Some fs end;
     limit_arg := match _limit qs with
                  | Some n => if truthy (PInt n) then Some n else None
                  | None => None
                  end;
     skip_arg := match _skip qs with
                 | Some n => if truthy (PInt n) then Some n else None
                 | None => None
                 end |}.

(** A queryset with its filter state reset. *)
Definition without_filters (qs : QuerySet) : QuerySet :=
  set_filters EmptyDict qs.

(** The world after one more call was made, on a queryset left as [qs]. *)
Definition issued (c : Call) (qs : QuerySet) (w : World) : World :=
  {| self := qs; calls := calls w ++ [c];
     waiting := waiting w ++ [length (calls w)];
     called := called w; lists := lists w;
     answers_at_once := answers_at_once w |}.

(** The index-ensure call for a field, as [ensure_index] issues it. *)
Definition ensure_call (qs : QuerySet) (alias : option string)
    (callback : Closure) (cell : nat) (field : Field) : Call :=
  ensure_index_on (target qs alias)
    (db_field field) (unique field) (sparse field)
    (handle_ensure_index callback cell (length (indexed_fields (__klass__ qs)))).

(** A callback reports success when it carries a result and no error. *)
Definition succeeds (arguments : list Arg) : bool :=
  match arguments, reported_error arguments with
  | _ :: _, None => true
  | _, _ => false
  end.

(** ** Dotted paths, as the specification reads them *)

(** [s.split('.')]: the components of a dotted path. *)
Fixpoint split_dots (s : string) : list string :=
  match s with
  | EmptyString => [EmptyString]
  | String c rest =>
      if Ascii.eqb c "." then EmptyString :: split_dots rest
      else match split_dots rest with
           | p :: ps => String c p :: ps
           | [] => [String c EmptyString]
           end
  end.

(** The walk of the specification over the components of a path: from an
    embedded document field it descends into the embedded type, from a list
    of embedded documents into the item type; it stops at a reference or a
    list of references; after any other field no type is reached.
    [undeclared obj components] holds when some component met on the walk
    does not name a declared field of the type reached there. *)
Fixpoint undeclared (obj : option Klass) (components : list string) : bool :=
  match components with
  | [] => false
  | c :: rest =>
      match obj with
      | None => true
      | Some o =>
          match dict_get (_fields o) c with
          | None => true
          | Some field =>
              match kind field with
              | EmbeddedDocumentField embedded_type =>
                  undeclared (Some embedded_type) rest
              | ListField base =>
                  match kind base with
                  | EmbeddedDocumentField item_type =>
                      undeclared (Some item_type) rest
                  | ReferenceField _ => false
                  | _ => undeclared None rest
                  end
              | ReferenceField _ => false
              | PlainField => undeclared None rest
              end
          end
      end
  end.

(** A path the walk must reject: not the bare identity name, not ending in
    an empty component, and with an undeclared component. *)
Definition rejected (klass : Klass) (path : string) : Prop :=
  path ≠ "_id" ∧ last (split_dots path) ≠ Some "" ∧
  undeclared (Some klass) (split_dots path) = true.

(** The name a field specification stands for. *)
Definition spec_name (spec : FieldSpec) : string :=
  match spec with
  | by_field f => name f
  | by_name s => s
  end.

(** A field name proper: a keyword without an operator prefix. *)
Definition is_field_name (s : string) : Prop :=
  ∀ op others, split_dunder s = op :: others → op ∉ operators.

(** [_reference_loaded_fields[name][rest] = value] on the queryset of a
    world. *)
Definition set_reference (name rest : string) (value : PyVal) (w : World)
    : World :=
  {| self :=
       set_reference_loaded_fields
         (<[name := <[rest := value]>
                      (default ∅ (_reference_loaded_fields (self w) !! name))]>
            (_reference_loaded_fields (self w))) (self w);
     calls := calls w; waiting := waiting w; called := called w;
     lists := lists w; answers_at_once := answers_at_once w |}.

(** ** Sample worlds *)

Definition Bernardo : Filters := Node (Q [("name", PStr "Bernardo")]).

Definition filtered (klass : Klass) : QuerySet :=
  {| __klass__ := klass; _filters := Bernardo; _limit := None; _skip := None;
     _order_fields := []; _loaded_fields := new_QueryFieldList [] ONLY false ∅;
     _reference_loaded_fields := ∅;
     current_count := Missing; result_size := Missing |}.

Definition tags_field : Field :=
  BaseField "tags" "tags" false false None (ListField (StringField "tag")).

Definition saved_post : Doc :=
  {| doc_klass := BlogPost; _id := Some (PObjectId "5f1d7f3e");
     values := [("title", PStr "Hello"); ("slug", PStr "hello")];
     is_partly_loaded := false; doc_reference_loaded_fields := ∅;
     is_lazy := false; validate := Ok true |}.

Definition duplicate : Exc :=
  DuplicateKeyError "E11000 duplicate key error index: slug_1".

(** One turn of the loop of [walk], as a function of its own. *)
Definition walk_step (klass_name field_name : string) (value : PyVal)
    (t : string) (before : list string) (obj : option Klass)
    : M (string * PyVal) :=
  let '(field_value, rest') := split_once t in
  if tail_bool (Some t) then
    let before := before ++ [field_value] in
    match obj with
    | None => raise (field_not_found field_name klass_name)
    | Some o =>
        match dict_get (_fields o) field_value with
        | None => raise (field_not_found field_name klass_name)
        | Some field =>
            match kind field with
            | EmbeddedDocumentField embedded_type =>
                walk klass_name field_name value rest' before
                  (Some embedded_type)
            | ListField base =>
                match kind base with
                | EmbeddedDocumentField item_type =>
                    walk klass_name field_name value rest' before
                      (Some item_type)
                | ReferenceField _ =>
                    _fill_reference_loaded_fields before rest' field_name value
                | _ => walk klass_name field_name value rest' before None
                end
            | ReferenceField _ =>
                _fill_reference_loaded_fields before rest' field_name value
            | PlainField => walk klass_name field_name value rest' before None
            end
        end
    end
  else ret (field_name, value).

(** Two worlds with the same calls made, the same calls waiting and the same
    invocations of the caller. *)
Definition same_calls (w w' : World) : Prop :=
  calls w' = calls w ∧ waiting w' = waiting w ∧ called w' = called w ∧
  lists w' = lists w.

(** What checking the field [field_name] with the value [value] can do:
    raise the error of the walk, return the pair unchanged, or file a
    reference projection and return the reference field. *)
Inductive Cleaned (klass_name field_name : string) (value : PyVal)
    (m : M (string * PyVal)) : Prop :=
| cleaned_raises :
    (∀ w, m w = (Raise (field_not_found field_name klass_name), w)) →
    Cleaned klass_name field_name value m
| cleaned_returns :
    (∀ w, m w = (Ok (field_name, value), w)) →
    Cleaned klass_name field_name value m
| cleaned_reference name rest :
    (∀ w, m w = (Ok (name, ONLY), set_reference name rest value w)) →
    Cleaned klass_name field_name value m.

(** How a key of [only] resolves on a class: it is refused, kept as it is,
    or filed as a projection of a reference. *)
Inductive Resolution :=
| Bad (e : Exc)
| Kept (name : string)
| Filed (name rest : string).

Definition resolve (klass : Klass) (key : string) : Resolution :=
  match clean_field key ONLY (world (__init__ klass) later) with
  | (Raise e, _) => Bad e
  | (Ok (name, _), w) =>
      match map_to_list
              (default ∅ (_reference_loaded_fields (self w) !! name)) with
      | (rest, _) :: _ => Filed name rest
      | [] => Kept name
      end
  end.

Definition resolved (r : Resolution) : M (string * PyVal) :=
  match r with
  | Bad e => raise e
  | Kept name => ret (name, ONLY)
  | Filed name rest => λ w, (Ok (name, ONLY), set_reference name rest ONLY w)
  end.

Definition is_Bad (r : Resolution) : Prop :=
  match r with Bad _ => True | _ => False end.

#[global] Instance is_Bad_dec r : Decision (is_Bad r).
Proof. destruct r; cbn; apply _. Defined.

Definition resolved_name (r : Resolution) : string :=
  match r with
  | Bad _ => ""
  | Kept name | Filed name _ => name
  end.

(** The reference projection a resolution files. *)
Definition filing (r : Resolution) : option (string * string) :=
  match r with
  | Filed name rest => Some (name, rest)
  | _ => None
  end.

Definition file (refs : gmap string (gmap string PyVal))
    (entry : string * string) : gmap string (gmap string PyVal) :=
  <[fst entry := <[snd entry := ONLY]> (default ∅ (refs !! fst entry))]> refs.

(** The keys of the keyword dict [only] builds: the names in the order of
    their first occurrence. *)
Definition add_key (keys : list string) (key : string) : list string :=
  if decide (key ∈ keys) then keys else keys ++ [key].

(** The error of the first resolution that is refused. *)
Fixpoint first_bad (rs : list Resolution) : option Exc :=
  match rs with
  | [] => None
  | Bad e :: _ => Some e
  | _ :: rest => first_bad rest
  end.

(** The queryset with the reference projections of [rs] filed. *)
Definition filed (rs : list Resolution) (qs : QuerySet) : QuerySet :=
  set_reference_loaded_fields
    (foldl file (_reference_loaded_fields qs) (omap filing rs)) qs.

(** The queryset after [only] went through: the reference projections filed,
    the names merged into the loaded fields. *)
Definition projected (rs : list Resolution) (qs : QuerySet) : QuerySet :=
  set_loaded_fields
    match rs with
    | [] => _loaded_fields qs
    | _ => QueryFieldList_add (_loaded_fields qs)
             (new_QueryFieldList (resolved_name <$> rs) ONLY true ∅)
    end
    (filed rs qs).

(** The world with its queryset changed by [f]. *)
Definition with_self (f : QuerySet → QuerySet) (w : World) : World :=
  {| self := f (self w); calls := calls w; waiting := waiting w;
     called := called w; lists := lists w;
     answers_at_once := answers_at_once w |}.

(** The keys [only] passes to [fields] for a list of field
    specifications. *)
Definition only_keys (specs : list FieldSpec) : list string :=
  foldl add_key [] (spec_name <$> specs).

(** What the callback of a store call returns when the caller's continuation
    is all it may invoke: the reported error raised, or nothing. *)
Definition reply (arguments : list Arg) : Result unit :=
  match reported_error arguments with
  | Some (AErr e) => Raise e
  | Some _ => Raise (TypeError "exceptions must derive from BaseException")
  | None =>
      match arguments with
      | [] => Raise (IndexError "tuple index out of range")
      | _ => Ok tt
      end
  end.

(** The number of callbacks that reported success. *)
Definition successes (events : list (nat * list Arg)) : nat :=
  length (filter (λ e, succeeds (snd e) = true) events).

(** The length of the list [created_indexes] kept in [cell]. *)
Definition created (cell : nat) (w : World) : nat :=
  length (default [] (lists w !! cell)).

(** Every call waiting from the [base]-th on has the closure [h] as its
    callback. *)
Definition awaits (base : nat) (h : Closure) (w : World) : Prop :=
  ∀ i, i ∈ waiting w → (base ≤ i)%nat →
       ∃ c, calls w !! i = Some c ∧ callback_of c = h.

(** The field an index-ensure call is for. *)
Definition ensured_field (c : Call) : option string :=
  match c with
  | ensure_index_on _ field _ _ _ => Some field
  | _ => None
  end.

(** The [load_references] call [handle_find_all] makes for a document of
    the batch [result]. *)
Definition load_call (k : nat) (result : list Doc) (doc : Doc) : Call :=
  load_references doc (Some (_fields (doc_klass doc)))
    (handle_find_all_auto_load_references (caller k) result).

(** The state of a batch of which [o] documents have not signalled yet: with
    none left the batch has been delivered to the continuation [k], once, on
    top of the invocations [before]; otherwise nothing has been delivered
    and the counter stands at the number of signals received. *)
Definition outstanding (before : list (nat * list Arg)) (k : nat)
    (result : list Doc) (w : World) (o : nat) : Prop :=
  match o with
  | O => called w = before ++ [(k, [ADocs result])]
  | S _ =>
      current_count (self w) = Val (Z.of_nat (length result) - Z.of_nat o) ∧
      result_size (self w) = Val (Z.of_nat (length result)) ∧
      called w = before
  end.

(** A queryset with the two counters of a batch set. *)
Definition counting (size : Z) (qs : QuerySet) : QuerySet :=
  set_result_size (Val size) (set_current_count (Val 0) qs).

Definition eager_post : Doc :=
  {| doc_klass := BlogPost; _id := Some (PObjectId "a1");
     values := [("title", PStr "Eager")];
     is_partly_loaded := false; doc_reference_loaded_fields := ∅;
     is_lazy := false; validate := Ok true |}.

Definition lazy_post : Doc :=
  {| doc_klass := BlogPost; _id := Some (PObjectId "b2");
     values := [("title", PStr "Lazy")];
     is_partly_loaded := false; doc_reference_loaded_fields := ∅;
     is_lazy := true; validate := Ok true |}.

(** ** filter and filter_not *)

(** A positional argument of [filter] and [filter_not]: an expression node,
    a dict, or any other value. *)
Inductive FilterArgument :=
| a_node (q : QNode)
| a_dict (d : list (string * PyVal))
| a_value (v : PyVal).

(** [isinstance(q, (Q, QCombination))], the test of [filter_not]. *)
Definition is_Q_or_QCombination (q : QNode) : bool :=
  match q with
  | Q _ | QCombination _ _ _ => true
  | QNot _ => false
  end.

Section Collaborators.

(** What [filter] asks of [motorengine.query_builder], which is not part of
    this file: [validate_fields(klass, kwargs)], which returns or raises;
    [Q(d)] for a dict [d]; and [p & q] on two nodes. *)
Variable validate_fields : Klass → list (string * PyVal) → Result unit.
Variable raw : list (string * PyVal) → QNode.
Variable and_ : QNode → QNode → QNode.

(** [self._filters & q]; the empty dict has no such operator. *)
Definition conjoin (filters : Filters) (q : QNode) : M Filters :=
  match filters with
  | Node p => ret (Node (and_ p q))
  | EmptyDict => raise (TypeError "unsupported operand type(s) for &")
  end.

(** [filter]. *)
Definition QuerySet_filter (arguments : list FilterArgument)
    (kwargs : list (string * PyVal)) : M unit :=
  qs <- get_self ;;
  match arguments with
  | [a_node q] =>
      if Filters_bool (_filters qs) then
        combined <- conjoin (_filters qs) q ;;
        set_self (set_filters combined)
      else set_self (set_filters (Node q))
  | _ =>
      match validate_fields (__klass__ qs) kwargs with
      | Raise e => raise e
      | Ok _ =>
          if Filters_bool (_filters qs) then
            combined <- conjoin (_filters qs) (Q kwargs) ;;
            set_self (set_filters combined)
          else
            match arguments with
            | [a_dict d] => set_self (set_filters (Node (raw d)))
            | _ => set_self (set_filters (Node (Q kwargs)))
            end
      end
  end.

(** [filter_not]. *)
Definition filter_not (arguments : list FilterArgument)
    (kwargs : list (string * PyVal)) : M unit :=
  match arguments with
  | [a_node q] =>
      if is_Q_or_QCombination q then QuerySet_filter [a_node (QNot q)] []
      else QuerySet_filter [a_node (QNot (Q kwargs))] []
  | _ => QuerySet_filter [a_node (QNot (Q kwargs))] []
  end.

End Collaborators.

(** ** bulk_insert *)

(** The loop of the inner [handle] of [handle_bulk_insert]:
    [documents[object_index]._id = object_id] for the identities of the
    store's answer, in their order. *)
Fixpoint assign_ids (documents : list Doc) (ids : list PyVal)
    : Result (list Doc) :=
  match ids with
  | [] => Ok documents
  | object_id :: ids =>
      match documents with
      | [] => Raise (IndexError "list index out of range")
      | document :: documents =>
          match assign_ids documents ids with
          | Ok documents => Ok (set_id document object_id :: documents)
          | Raise e => Raise e
          end
      end
  end.

(** The inner [handle] of [handle_bulk_insert], called with the list of
    identities [ids] as [arguments[0]] and with [error] as [arguments[1]]
    when there is one. *)
Definition handle_bulk_insert (documents : list Doc) (callback : Closure)
    (ids : list PyVal) (error : option Arg) : M unit :=
  match error with
  | Some e =>
      if Arg_bool e then raise_reported e
      else
        match assign_ids documents ids with
        | Ok documents => invoke callback [ADocs documents]
        | Raise e => raise e
        end
  | None =>
      match assign_ids documents ids with
      | Ok documents => invoke callback [ADocs documents]
      | Raise e => raise e
      end
  end.

Definition bulk_validation_message (document_index : nat) (err : Exc)
    : string :=
  "Validation for document " +:+ pretty document_index +:+
  " in the documents you are saving failed with: " +:+ str err.

(** The loop of [bulk_insert] from the document at [document_index] on:
    [None] when the method returns from inside the loop, the records to
    insert otherwise. *)
Fixpoint bulk_validate (documents : list Doc) (document_index : nat)
    (docs_to_insert : list Son) : M (option (list Son)) :=
  match documents with
  | [] => ret (Some docs_to_insert)
  | document :: rest =>
      λ w, match validate_document document w with
           | (Raise err, w') =>
               (Raise (ValueError (bulk_validation_message document_index err)),
                w')
           | (Ok is_valid, w') =>
               if (is_valid : bool) then
                 bulk_validate rest (S document_index)
                   (docs_to_insert ++ [to_son document]) w'
               else (Ok None, w')
           end
  end.

(** The one call [bulk_insert] makes on the store:
    [coll.insert(docs_to_insert, callback=handle_bulk_insert(documents,
    callback))]. *)
Record BulkInsert := {
  bulk_coll : Collection;
  docs_to_insert : list Son;
  bulk_documents : list Doc;
  bulk_callback : Closure
}.

(** [bulk_insert].  The log of calls of a world holds the inserts of one
    record; the insert of a batch is what the computation returns, [None]
    when the method returns without making it. *)
Definition bulk_insert (documents : list Doc) (callback : Closure)
    (alias : option string) : M (option BulkInsert) :=
  docs <- bulk_validate documents 0 [] ;;
  match docs with
  | None => ret None
  | Some docs =>
      c <- coll alias ;;
      ret (Some {| bulk_coll := c; docs_to_insert := docs;
                   bulk_documents := documents; bulk_callback := callback |})
  end.

(** ** Writes, ranges of calls and storage names *)

(** The write [indexes_saved_before_save] makes for a document: the [on_save]
    hooks are applied, then a document with an identity is updated in place
    and one without is inserted. *)
Definition save_write (qs : QuerySet) (alias : option string)
    (callback : Closure) (document : Doc) : Call :=
  let existing := negb (bool_decide (_id document = Some PNone)) in
  let saved :=
    update_field_on_save_values (_fields (__klass__ qs)) document existing in
  if existing then
    update_one (target qs alias) (default PNone (_id document)) (to_son saved)
      (handle_update saved callback)
  else insert (target qs alias) (to_son saved) (handle_save saved callback).

(** The waiting calls among the [n] made from the [base]-th on. *)
Definition waiting_in (base n : nat) (w : World) : list nat :=
  filter (λ i, base ≤ i < base + n)%nat (waiting w).

(** Every waiting call among the [n] made from the [base]-th on has the
    closure [h] as its callback. *)
Definition awaits_in (base n : nat) (h : Closure) (w : World) : Prop :=
  ∀ i, i ∈ waiting w → (base ≤ i < base + n)%nat →
       ∃ c, calls w !! i = Some c ∧ callback_of c = h.

(** The key [transform_definition] files a definition entry under. *)
Definition storage_key (spec : FieldSpec) : string :=
  match spec with
  | by_field f => db_field f
  | by_name s => s
  end.

(** The value of the last entry of a definition filed under [key], if
    any. *)
Definition last_value (definition : list (FieldSpec * PyVal)) (key : string)
    (before : option PyVal) : option PyVal :=
  foldl (λ found entry,
           if decide (storage_key (fst entry) = key) then Some (snd entry)
           else found)
    before definition.

(** The queryset after [filter] took the node [q]. *)
Definition filtered_by (and_ : QNode → QNode → QNode) (q : QNode)
    (qs : QuerySet) : QuerySet :=
  set_filters
    (Node match _filters qs with
          | Node p => and_ p q
          | EmptyDict => q
          end) qs.

(** A class without indexed fields. *)
Definition Note : Klass :=
  DocumentClass "Note" "notes" None true
    [("text", StringField "text");
     ("stamp", BaseField "stamp" "ts" false false (Some "now") PlainField)].

(** ** What the further properties speak of *)

(** What checking one field leaves of the queryset: everything but the
    reference projections. *)
Definition same_but_references (qs qs' : QuerySet) : Prop :=
  __klass__ qs' = __klass__ qs ∧ _filters qs' = _filters qs ∧
  _limit qs' = _limit qs ∧ _skip qs' = _skip qs ∧
  _order_fields qs' = _order_fields qs ∧
  _loaded_fields qs' = _loaded_fields qs.

(** The world in which the call made last is no longer waiting. *)
Definition answered_last (c : Call) (qs : QuerySet) (w : World) : World :=
  {| self := qs; calls := calls w ++ [c];
     waiting := filter (λ j, j ≠ length (calls w))
                  (waiting w ++ [length (calls w)]);
     called := called w; lists := lists w;
     answers_at_once := answers_at_once w |}.

(** The document [handle_get] and [handle_find_all] make of a record. *)
Definition materialized (qs : QuerySet) (record : Son) : Doc :=
  from_son (__klass__ qs) record (QueryFieldList_bool (_loaded_fields qs))
    (_reference_loaded_fields qs).

(** The call [remove] makes for an instance with an identity, or for none. *)
Definition remove_call (qs : QuerySet) (alias : option string)
    (callback : Closure) (instance : option Doc) : Call :=
  match instance with
  | Some d =>
      remove_one (target qs alias) (default PNone (_id d))
        (handle_remove callback)
  | None =>
      match _filters qs with
      | EmptyDict => remove_all (target qs alias) (handle_remove callback)
      | Node _ =>
          remove_matching (target qs alias) (compiled qs)
            (handle_remove callback)
      end
  end.

(** A document [save] accepts: fully loaded, of the class of the queryset,
    valid, and with an [_id] attribute. *)
Definition savable (qs : QuerySet) (document : Doc) : Prop :=
  is_partly_loaded document = false ∧
  __name__ (doc_klass document) = __name__ (__klass__ qs) ∧
  validate document = Ok true ∧
  is_Some (_id document).

(** The index-ensure calls [save] makes first. *)
Definition save_ensures (w : World) (alias : option string)
    (callback : Closure) (document : Doc) : list Call :=
  ensure_call (self w) alias
    (indexes_saved_before_save document callback alias)
    (fresh (dom (lists w))) <$> indexed_fields (__klass__ (self w)).

(** The document [save] hands to the store and, in the end, to the
    continuation: the document with its [on_save] hooks applied. *)
Definition saved_document (qs : QuerySet) (document : Doc) : Doc :=
  update_field_on_save_values (_fields (__klass__ qs)) document
    (negb (bool_decide (_id document = Some PNone))).



(** A document [validate_document] answers true for. *)
Definition valid_for (qs : QuerySet) (document : Doc) : Prop :=
  __name__ (doc_klass document) = __name__ (__klass__ qs) ∧
  validate document = Ok true.

(** * Properties *)

(** ** The terminal operations, unfolded *)

Ltac run_method :=
  unfold outcome, after, find_all, count, update, remove, delete, get,
    _get_find_cursor, get_query_from_filters, reset_filters, coll, issue,
    set_self, get_self, bind, ret, raise, issued, target, cursor_of,
    without_filters, compiled; cbn.

Lemma find_all_runs w callback lazy alias :
  find_all callback lazy alias w =
  (Ok tt,
   issued (to_list (target (self w) alias) (cursor_of (self w))
             (default DEFAULT_LIMIT (_limit (self w)))
             (handle_find_all callback lazy))
     (without_filters (self w)) w).
Proof.
  run_method.
  destruct (_filters (self w)); cbn; destruct (_limit (self w)); reflexivity.
Qed.

Lemma count_runs w callback alias :
  count callback alias w =
  (Ok tt,
   issued (count_documents (target (self w) alias) (cursor_of (self w))
             (handle_count callback))
     (without_filters (self w)) w).
Proof.
  run_method. destruct (_filters (self w)); reflexivity.
Qed.

Lemma update_runs w definition callback alias :
  update definition (Some callback) alias w =
  (Ok tt,
   issued (update_multi (target (self w) alias) (compiled (self w))
             (transform_definition definition [])
             (handle_update_documents callback))
     (self w) w).
Proof.
  run_method. destruct (_filters (self w)); reflexivity.
Qed.

Lemma remove_filtered_runs w callback alias :
  remove None (Some callback) alias w =
  (Ok tt,
   issued (match _filters (self w) with
           | EmptyDict => remove_all (target (self w) alias)
                            (handle_remove callback)
           | Node _ => remove_matching (target (self w) alias)
                         (compiled (self w)) (handle_remove callback)
           end)
     (self w) w).
Proof.
  run_method. destruct (_filters (self w)); reflexivity.
Qed.

Lemma get_keeps_self w id callback alias kwargs :
  self (after (get id callback alias kwargs) w) = self w.
Proof.
  run_method. destruct id as [[]|], kwargs; reflexivity.
Qed.

(** ** Filter state and terminal operations *)

(** C1, the claim as stated fails: after [update], after [delete] and after
    [get], on a queryset filtered by name the filter state is what it was,
    not empty. *)
Lemma update_keeps_filters :
  outcome (update [(by_name "status", PStr "active")] (Some (caller 0%nat)) None)
    (world (filtered BlogPost) later) = Ok tt ∧
  _filters (self (after (update [(by_name "status", PStr "active")]
                           (Some (caller 0%nat)) None)
                    (world (filtered BlogPost) later))) = Bernardo ∧
  _filters (self (after (delete (Some (caller 0%nat)) None)
                    (world (filtered BlogPost) later))) = Bernardo ∧
  _filters (self (after (get None (caller 0%nat) None
                           [("name", PStr "Bernardo")])
                    (world (filtered BlogPost) later))) = Bernardo ∧
  Bernardo ≠ EmptyDict.
Proof. repeat split; try reflexivity. discriminate. Qed.

(** C1 (amended): for [find_all] and [count], on a queryset in any filter
    state, the operation issues its one store call on a cursor built from the
    filter state it found, and leaves the filter state empty, so that the
    same operation run again finds no filter. *)
Theorem find_all_and_count_reset_filters w callback lazy alias :
  (outcome (find_all callback lazy alias) w = Ok tt ∧
   calls (after (find_all callback lazy alias) w) =
     calls w ++ [to_list (target (self w) alias) (cursor_of (self w))
                   (default DEFAULT_LIMIT (_limit (self w)))
                   (handle_find_all callback lazy)] ∧
   query_filters (cursor_of (self w)) = compiled (self w) ∧
   _filters (self (after (find_all callback lazy alias) w)) = EmptyDict ∧
   compiled (self (after (find_all callback lazy alias) w)) = EmptyQuery) ∧
  (outcome (count callback alias) w = Ok tt ∧
   calls (after (count callback alias) w) =
     calls w ++ [count_documents (target (self w) alias) (cursor_of (self w))
                   (handle_count callback)] ∧
   _filters (self (after (count callback alias) w)) = EmptyDict ∧
   compiled (self (after (count callback alias) w)) = EmptyQuery).
Proof.
  unfold outcome, after. rewrite find_all_runs, count_runs. cbn.
  repeat split.
Qed.

(** [update] and [remove] leave the queryset as it was. *)
Lemma update_keeps_self w definition callback alias :
  self (after (update definition callback alias) w) = self w.
Proof.
  destruct callback as [callback|]; [|reflexivity].
  unfold after. rewrite update_runs. reflexivity.
Qed.

Lemma remove_keeps_self w instance callback alias :
  self (after (remove instance callback alias) w) = self w.
Proof.
  destruct callback as [callback|]; [|reflexivity].
  destruct instance as [instance|].
  - run_method. destruct (_id instance) as [id|]; [|reflexivity].
    destruct (truthy id); reflexivity.
  - unfold after. rewrite remove_filtered_runs. reflexivity.
Qed.

(** ** The drain length of find_all *)

(** C8: [find_all] on a queryset whose limit is unset drains the cursor with
    length 1000, the default limit; on a queryset whose limit was set, with
    that limit; [limit] sets it and a new queryset has none. *)
Theorem find_all_drain_length w callback lazy alias :
  DEFAULT_LIMIT = 1000 ∧
  (∀ klass, _limit (__init__ klass) = None) ∧
  (∀ n, _limit (self (after (limit n) w)) = Some n) ∧
  (_limit (self w) = None →
   calls (after (find_all callback lazy alias) w) =
     calls w ++ [to_list (target (self w) alias) (cursor_of (self w)) 1000
                   (handle_find_all callback lazy)]) ∧
  (∀ n, _limit (self w) = Some n →
   calls (after (find_all callback lazy alias) w) =
     calls w ++ [to_list (target (self w) alias) (cursor_of (self w)) n
                   (handle_find_all callback lazy)]).
Proof.
  unfold after. rewrite find_all_runs. cbn.
  repeat split; try reflexivity.
  - intros ->. reflexivity.
  - intros n ->. reflexivity.
Qed.

Lemma find_all_drain_length_witness :
  _limit (self (world (__init__ BlogPost) later)) = None ∧
  calls (after (find_all (caller 0%nat) None None)
           (world (__init__ BlogPost) later)) =
    [to_list (target (__init__ BlogPost) None) (cursor_of (__init__ BlogPost))
       1000 (handle_find_all (caller 0%nat) None)] ∧
  calls (after (find_all (caller 0%nat) None None)
           (after (limit 10) (world (__init__ BlogPost) later))) =
    [to_list (target (__init__ BlogPost) None)
       (cursor_of (self (after (limit 10) (world (__init__ BlogPost) later))))
       10 (handle_find_all (caller 0%nat) None)].
Proof.
  split; [reflexivity|]. split.
  - destruct (find_all_drain_length (world (__init__ BlogPost) later)
                (caller 0%nat) None None) as (_ & _ & _ & H & _).
    apply H. reflexivity.
  - destruct (find_all_drain_length
                (after (limit 10) (world (__init__ BlogPost) later))
                (caller 0%nat) None None) as (_ & _ & _ & _ & H).
    apply H. reflexivity.
Defined.

(** ** order_by *)



Lemma order_by_declared_name w s field direction :
  dict_get (_fields (__klass__ (self w))) s = Some field →
  outcome (order_by (by_name s) direction) w = Ok tt ∧
  _order_fields (self (after (order_by (by_name s) direction) w)) =
    _order_fields (self w) ++ [(db_field field, direction)].
Proof.
  intros H. unfold outcome, after, order_by, bind, raise, ret, get_self.
  cbn. rewrite H. split; reflexivity.
Qed.

(** C6, the code at the failing input: [tags] is a declared list field of
    [BlogPost]; [order_by("tags")] raises nothing and records the sort pair,
    where the handle of the same field is refused. *)
Theorem order_by_list_field_by_name :
  dict_get (_fields BlogPost) "tags" = Some tags_field ∧
  is_ListField tags_field = true ∧
  outcome (order_by (by_name "tags") ASCENDING)
    (world (__init__ BlogPost) later) = Ok tt ∧
  _order_fields (self (after (order_by (by_name "tags") ASCENDING)
                         (world (__init__ BlogPost) later))) =
    [("tags", ASCENDING)] ∧
  outcome (order_by (by_field tags_field) ASCENDING)
    (world (__init__ BlogPost) later) = Raise (ValueError list_field_message).
Proof. repeat split. Qed.

(** ** remove *)

(** C10: [remove] with an instance whose [_id] is absent or false, and with
    a callback, returns normally and leaves the world as it was: no call on
    the store, no invocation of the callback. *)
Theorem remove_unsaved_instance_is_silent w instance callback alias :
  (_id instance = None ∨ ∃ id, _id instance = Some id ∧ truthy id = false) →
  remove (Some instance) (Some callback) alias w = (Ok tt, w) ∧
  calls (after (remove (Some instance) (Some callback) alias) w) = calls w ∧
  called (after (remove (Some instance) (Some callback) alias) w) = called w.
Proof.
  intros H.
  assert (remove (Some instance) (Some callback) alias w = (Ok tt, w)) as E.
  { unfold remove. destruct H as [-> | (id & -> & ->)]; reflexivity. }
  unfold after. rewrite E. repeat split.
Qed.

Lemma remove_unsaved_instance_is_silent_witness :
  (_id (unsaved BlogPost [("title", PStr "Hello")]) = Some PNone ∧
   truthy PNone = false) ∧
  remove (Some (unsaved BlogPost [("title", PStr "Hello")]))
    (Some (caller 0%nat)) None (world (__init__ BlogPost) later) =
  (Ok tt, world (__init__ BlogPost) later).
Proof.
  split; [split; reflexivity|].
  apply (remove_unsaved_instance_is_silent (world (__init__ BlogPost) later)
           (unsaved BlogPost [("title", PStr "Hello")]) (caller 0%nat) None).
  right. exists PNone. split; reflexivity.
Defined.

(** ** Duplicate keys on save *)

Lemma handle_save_translates w document callback result m :
  invoke (handle_save document callback) [result; AErr (DuplicateKeyError m)] w =
  (Raise (UniqueKeyViolationError m (__name__ (__klass__ (self w)))), w).
Proof. reflexivity. Qed.

Lemma handle_update_propagates w document callback result e :
  invoke (handle_update document callback) [result; AErr e] w = (Raise e, w).
Proof. reflexivity. Qed.

(** C4, the code at the failing input: a post that has an identity is
    saved; the two indexes are confirmed, the update by identity is issued,
    and the store reports a duplicate key.  The callback of the update
    raises the store's own error.  The same report on the insert of a post
    without identity is raised as [UniqueKeyViolationError] for
    [BlogPost]. *)
Theorem save_update_path_duplicate_key :
  fst <$> play [(0, [AVal (PStr "title_1")]); (1, [AVal (PStr "slug_1")]);
                (2, [AVal PNone; AErr duplicate])]%nat
            (after (save saved_post (caller 0%nat) None)
               (world (__init__ BlogPost) later)) =
    Some [Ok tt; Ok tt; Raise duplicate] ∧
  fst <$> play [(0, [AVal (PStr "title_1")]); (1, [AVal (PStr "slug_1")]);
                (2, [AVal PNone; AErr duplicate])]%nat
            (after (save (unsaved BlogPost (values saved_post))
                      (caller 0%nat) None)
               (world (__init__ BlogPost) later)) =
    Some [Ok tt; Ok tt; Raise (UniqueKeyViolationError (str duplicate) "BlogPost")].
Proof. split; vm_compute; reflexivity. Qed.

(** ** Lazy mode in find_all *)

Lemma loads_references_cases doc :
  loads_references (Some false) doc = true ∧
  loads_references (Some true) doc = negb (is_lazy doc) ∧
  loads_references None doc = negb (is_lazy doc).
Proof. repeat split. Qed.

(** C5, the code at the failing input: [find_all(lazy=True)] on [BlogPost],
    whose type is not lazy; the store answers with one record.  The document
    is sent to [load_references] and nothing is delivered to the caller. *)
Theorem find_all_lazy_true_loads_references :
  __lazy__ BlogPost = false ∧
  fst <$> play [(0%nat, [ARecords [[("title", PStr "Hello")]]; AVal PNone])]
            (after (find_all (caller 0%nat) (Some true) None)
               (world (__init__ BlogPost) later)) = Some [Ok tt] ∧
  (λ p, calls (snd p) !! 1%nat) <$>
    play [(0%nat, [ARecords [[("title", PStr "Hello")]]; AVal PNone])]
      (after (find_all (caller 0%nat) (Some true) None)
         (world (__init__ BlogPost) later)) =
    Some (Some (load_references
                  (from_son BlogPost [("title", PStr "Hello")] false ∅)
                  (Some (_fields BlogPost))
                  (handle_find_all_auto_load_references (caller 0%nat)
                     [from_son BlogPost [("title", PStr "Hello")] false ∅]))) ∧
  (λ p, (waiting (snd p), called (snd p))) <$>
    play [(0%nat, [ARecords [[("title", PStr "Hello")]]; AVal PNone])]
      (after (find_all (caller 0%nat) (Some true) None)
         (world (__init__ BlogPost) later)) = Some ([1%nat], []).
Proof. repeat split; vm_compute; reflexivity. Qed.

(** ** The projection builder: the walk over a dotted path *)

Lemma split_once_shorter s h t :
  split_once s = (h, t) → (tail_size t < tail_size (Some s))%nat.
Proof.
  revert h t. induction s as [|c s IH]; simpl; intros h t E.
  - inversion E; subst. simpl. lia.
  - destruct (Ascii.eqb c _).
    + inversion E; subst. simpl. lia.
    + destruct (split_once s) as [h' t'] eqn:Es. inversion E; subst.
      specialize (IH _ _ eq_refl). destruct t; simpl in *; lia.
Qed.

Lemma walk_some kn fn v t before obj :
  walk kn fn v (Some t) before obj = walk_step kn fn v t before obj.
Proof.
  rewrite walk_equation_1. unfold walk_step, inspect.
  assert (∀ p (E : split_once t = p),
    walk_unfold_clause_2 kn fn v t (exist _ p E) before obj =
    (let '(field_value, rest') := p in
     if tail_bool (Some t) then
       let before := before ++ [field_value] in
       match obj with
       | None => raise (field_not_found fn kn)
       | Some o =>
           match dict_get (_fields o) field_value with
           | None => raise (field_not_found fn kn)
           | Some field =>
               match kind field with
               | EmbeddedDocumentField embedded_type =>
                   walk kn fn v rest' before (Some embedded_type)
               | ListField base =>
                   match kind base with
                   | EmbeddedDocumentField item_type =>
                       walk kn fn v rest' before (Some item_type)
                   | ReferenceField _ =>
                       _fill_reference_loaded_fields before rest' fn v
                   | _ => walk kn fn v rest' before None
                   end
               | ReferenceField _ =>
                   _fill_reference_loaded_fields before rest' fn v
               | PlainField => walk kn fn v rest' before None
               end
           end
       end
     else ret (fn, v))) as H.
  { intros [fv r] E. simpl.
    destruct (tail_bool (Some t)); [|reflexivity].
    destruct obj as [o|]; [|reflexivity].
    destruct (dict_get (_fields o) fv) as [field|]; [|reflexivity].
    destruct (kind field) as [| |?|base]; try reflexivity. }
  apply H.
Qed.

Lemma fill_reference_cases kn before rest fn v :
  Cleaned kn fn v (_fill_reference_loaded_fields before rest fn v).
Proof.
  unfold _fill_reference_loaded_fields.
  destruct rest as [t|]; [|by eapply cleaned_returns].
  destruct (tail_bool (Some t)); [|by eapply cleaned_returns].
  by eapply (cleaned_reference _ _ _ _ (join_dots before) t).
Qed.

Lemma walk_cases kn fn v rest before obj :
  Cleaned kn fn v (walk kn fn v rest before obj).
Proof.
  remember (S (tail_size rest)) as n eqn:Hn.
  assert (tail_size rest < n)%nat as Hlt by lia. clear Hn.
  revert rest before obj Hlt.
  induction n as [|n IH]; intros rest before obj Hlt; [lia|].
  destruct rest as [t|].
  - rewrite walk_some. unfold walk_step.
    destruct (split_once t) as [fv r] eqn:E.
    pose proof (split_once_shorter _ _ _ E) as Hs.
    destruct (tail_bool (Some t)); [|by eapply cleaned_returns].
    destruct obj as [o|]; [|by eapply cleaned_raises].
    destruct (dict_get (_fields o) fv) as [field|];
      [|by eapply cleaned_raises].
    destruct (kind field) as [| |?|base].
    + apply IH. lia.
    + apply IH. lia.
    + apply fill_reference_cases.
    + destruct (kind base).
      * apply IH. lia.
      * apply IH. lia.
      * apply fill_reference_cases.
      * apply IH. lia.
  - rewrite walk_equation_2. by eapply cleaned_returns.
Qed.

Lemma check_valid_cases klass field_name value :
  ∃ m, Cleaned (__name__ klass) field_name value m ∧
       ∀ w, __klass__ (self w) = klass →
            _check_valid_field_name_to_project field_name value w = m w.
Proof.
  destruct (negb (contains_dot field_name) &&
            (bool_decide (field_name = "_id") ||
             bool_decide (is_Some (dict_get (_fields klass) field_name))))
    eqn:Hfast.
  - exists (ret (field_name, value)). split; [by eapply cleaned_returns|].
    intros w <-.
    unfold _check_valid_field_name_to_project, bind, get_self. cbn.
    by rewrite Hfast.
  - exists (walk (__name__ klass) field_name value (Some field_name) []
              (Some klass)).
    split; [apply walk_cases|]. intros w <-.
    unfold _check_valid_field_name_to_project, bind, get_self. cbn.
    rewrite Hfast. reflexivity.
Qed.

Lemma Cleaned_same_calls kn fn v m w :
  Cleaned kn fn v m → same_calls w (snd (m w)) ∧
                      __klass__ (self (snd (m w))) = __klass__ (self w).
Proof.
  intros [H|H|n r H]; rewrite H; repeat split.
Qed.

Lemma clean_field_same_calls key value w :
  same_calls w (snd (clean_field key value w)) ∧
  __klass__ (self (snd (clean_field key value w))) = __klass__ (self w).
Proof.
  unfold clean_field. destruct (transform_operator key value) as [k v].
  destruct (check_valid_cases (__klass__ (self w)) k v) as (m & Hm & E).
  rewrite (E w eq_refl). eapply Cleaned_same_calls, Hm.
Qed.

Lemma same_calls_trans w1 w2 w3 :
  same_calls w1 w2 → same_calls w2 w3 → same_calls w1 w3.
Proof.
  unfold same_calls. intros (-> & -> & -> & ->) (-> & -> & -> & ->). done.
Qed.

Lemma clean_fields_same_calls kwargs cleaned w :
  same_calls w (snd (clean_fields kwargs cleaned w)) ∧
  __klass__ (self (snd (clean_fields kwargs cleaned w))) = __klass__ (self w).
Proof.
  revert cleaned w. induction kwargs as [|[key value] rest IH];
    intros cleaned w; cbn.
  - repeat split.
  - unfold bind.
    destruct (clean_field_same_calls key value w) as [Hs Hk].
    destruct (clean_field key value w) as [[c|e] w']; cbn in *.
    + destruct (IH (cleaned ++ [c]) w') as [Hs' Hk'].
      split; [eapply same_calls_trans; eauto | congruence].
    + by split.
Qed.

Lemma add_loaded_fields_same_calls groups only_called w :
  outcome (for_each groups (add_loaded_fields only_called)) w = Ok tt ∧
  same_calls w (after (for_each groups (add_loaded_fields only_called)) w).
Proof.
  revert w. induction groups as [|g groups IH]; intros w; cbn.
  - repeat split.
  - unfold outcome, after, bind in *. cbn.
    match goal with |- context [for_each groups _ ?w'] =>
      destruct (IH w') as [Ho Hs]; split; [exact Ho|] end.
    exact Hs.
Qed.

(** [fields], and with it [only] and [exclude], never calls a
    collaborator. *)
Lemma fields_same_calls only_called kwargs w :
  same_calls w (after (fields only_called kwargs) w).
Proof.
  unfold after, fields, bind.
  destruct (clean_fields_same_calls kwargs [] w) as [Hs _].
  destruct (clean_fields kwargs [] w) as [[c|e] w']; cbn in *; [|done].
  eapply same_calls_trans; [exact Hs|].
  apply add_loaded_fields_same_calls.
Qed.

Lemma split_dots_once t :
  split_dots t =
  match split_once t with
  | (h, None) => [h]
  | (h, Some r) => h :: split_dots r
  end.
Proof.
  induction t as [|c t IH]; [reflexivity|]. simpl.
  destruct (Ascii.eqb c _); [reflexivity|].
  rewrite IH. destruct (split_once t) as [h [r|]]; reflexivity.
Qed.

Lemma split_dots_not_nil t : split_dots t ≠ [].
Proof. rewrite split_dots_once. destruct (split_once t) as [h [r|]]; done. Qed.

Lemma split_once_no_dot s : contains_dot s = false → split_once s = (s, None).
Proof.
  induction s as [|c s IH]; [reflexivity|]. simpl.
  destruct (Ascii.eqb c _); [discriminate|]. simpl. intros H.
  rewrite (IH H). reflexivity.
Qed.

Lemma last_cons_not_nil {A} (x : A) l : l ≠ [] → last (x :: l) = last l.
Proof. destruct l; done. Qed.

(** The loop raises on every path that has an undeclared component and does
    not end in an empty one. *)
Lemma walk_rejects kn fn v t before obj w :
  last (split_dots t) ≠ Some "" →
  undeclared obj (split_dots t) = true →
  walk kn fn v (Some t) before obj w = (Raise (field_not_found fn kn), w).
Proof.
  remember (S (String.length t)) as n eqn:Hn.
  assert (String.length t < n)%nat as Hlt by lia. clear Hn.
  revert t before obj Hlt.
  induction n as [|n IH]; intros t before obj Hlt Hlast Hu; [lia|].
  rewrite walk_some. unfold walk_step.
  rewrite split_dots_once in Hlast, Hu.
  destruct (split_once t) as [c r] eqn:E.
  pose proof (split_once_shorter _ _ _ E) as Hs.
  assert (tail_bool (Some t) = true) as ->.
  { destruct t; [|reflexivity]. simpl in E. inversion E; subst. done. }
  cbn zeta.
  assert (∀ o', undeclared o' match r with
                               | Some r' => split_dots r'
                               | None => []
                               end = true →
          walk kn fn v r (before ++ [c]) o' w =
          (Raise (field_not_found fn kn), w)) as Hrec.
  { intros o' Hu'. destruct r as [r'|]; [|discriminate].
    apply IH; [simpl in Hs; lia| |exact Hu'].
    rewrite last_cons_not_nil in Hlast by apply split_dots_not_nil.
    exact Hlast. }
  assert (undeclared obj (c :: match r with
                               | Some r' => split_dots r'
                               | None => []
                               end) = true) as Hu'.
  { destruct r; exact Hu. }
  clear Hu. simpl in Hu'.
  destruct obj as [o|]; [|reflexivity].
  destruct (dict_get (_fields o) c) as [field|]; [|reflexivity].
  destruct (kind field) as [| |?|base]; try (by apply Hrec); try discriminate.
  destruct (kind base); try (by apply Hrec); discriminate.
Qed.

Lemma check_valid_rejects path value w :
  rejected (__klass__ (self w)) path →
  _check_valid_field_name_to_project path value w =
  (Raise (field_not_found path (__name__ (__klass__ (self w)))), w).
Proof.
  intros (Hid & Hlast & Hu).
  unfold _check_valid_field_name_to_project, bind, get_self. cbn.
  destruct (negb (contains_dot path) && _) eqn:Hfast.
  - apply andb_prop in Hfast as [Hdot Hdecl].
    apply negb_true_iff in Hdot.
    rewrite split_dots_once, (split_once_no_dot _ Hdot) in Hu. simpl in Hu.
    apply orb_prop in Hdecl as [H|H].
    + apply bool_decide_eq_true in H. done.
    + apply bool_decide_eq_true in H. destruct H as [field H].
      rewrite H in Hu. destruct (kind field) as [| |?|base]; try discriminate.
      destruct (kind base); discriminate.
  - by apply walk_rejects.
Qed.

Lemma clean_fields_rejects kwargs cleaned key value w :
  (key, value) ∈ kwargs →
  rejected (__klass__ (self w)) (fst (transform_operator key value)) →
  ∃ path, outcome (clean_fields kwargs cleaned) w =
          Raise (field_not_found path (__name__ (__klass__ (self w)))).
Proof.
  revert cleaned w. induction kwargs as [|[k v] rest IH];
    intros cleaned w Hin Hrej; [by apply elem_of_nil in Hin|].
  cbn. unfold outcome, bind in *.
  apply elem_of_cons in Hin as [Heq|Hin].
  - inversion Heq; subst k v. unfold clean_field.
    destruct (transform_operator key value) as [path value'] eqn:Et.
    cbn in Hrej. rewrite (check_valid_rejects _ _ _ Hrej). cbn. eauto.
  - destruct (clean_field_same_calls k v w) as [_ Hk].
    unfold clean_field in *.
    destruct (transform_operator k v) as [path value'] eqn:Et.
    destruct (check_valid_cases (__klass__ (self w)) path value')
      as (m & Hm & E).
    rewrite (E w eq_refl) in *. destruct Hm as [H|H|n r H]; rewrite H in *.
    + cbn. eauto.
    + cbn in *. apply IH; auto.
    + cbn in *.
      destruct (IH (cleaned ++ [(n, ONLY)]) (set_reference n r value' w))
        as [p Hp]; auto. cbn in Hp. eauto.
Qed.

Lemma dict_set_elem {A} (d : list (string * A)) k k' (v : A) :
  (k, v) ∈ d → (k, v) ∈ dict_set d k' v.
Proof.
  induction d as [|[k0 v0] d IH]; intros Hin; [by apply elem_of_nil in Hin|].
  simpl. apply elem_of_cons in Hin as [Heq|Hin].
  - inversion Heq; subst. destruct (decide (k0 = k')); apply list_elem_of_here.
  - destruct (decide (k0 = k')).
    + by apply list_elem_of_further.
    + apply list_elem_of_further. by apply IH.
Qed.

Lemma dict_set_here {A} (d : list (string * A)) k (v : A) :
  (k, v) ∈ dict_set d k v.
Proof.
  induction d as [|[k0 v0] d IH]; simpl; [apply list_elem_of_here|].
  destruct (decide (k0 = k)) as [->|].
  - apply list_elem_of_here.
  - by apply list_elem_of_further.
Qed.

Lemma named_fields_elem specs value result key :
  (key, value) ∈ result ∨ (∃ spec, spec ∈ specs ∧ spec_name spec = key) →
  (key, value) ∈ named_fields specs value result.
Proof.
  revert result. induction specs as [|spec specs IH]; intros result H; simpl.
  - destruct H as [H|(spec & Hin & _)]; [done|by apply elem_of_nil in Hin].
  - destruct H as [H|(spec' & Hin & Hn)].
    + destruct spec; apply IH; left; by apply dict_set_elem.
    + apply elem_of_cons in Hin as [->|Hin].
      * destruct spec; simpl in Hn; subst; apply IH; left; apply dict_set_here.
      * destruct spec; apply IH; right; eauto.
Qed.

Lemma transform_operator_key key value value' :
  fst (transform_operator key value) = fst (transform_operator key value').
Proof.
  unfold transform_operator. destruct (split_dunder key) as [|op others];
    [reflexivity|]. destruct (bool_decide _); reflexivity.
Qed.

(** C3, the claim as stated fails: [_id] is not a declared field of
    [BlogPost], it is the one component of the path [_id], and [only("_id")]
    raises nothing. *)
Lemma identity_name_is_accepted :
  dict_get (_fields BlogPost) "_id" = None ∧
  split_dots "_id" = ["_id"] ∧
  undeclared (Some BlogPost) (split_dots "_id") = true ∧
  outcome (only [by_name "_id"]) (world (__init__ BlogPost) later) = Ok tt.
Proof. repeat split. Qed.

(** A path that ends in an empty component is accepted too: the loop ends on
    the empty tail before it looks the component up. *)
Lemma trailing_dot_is_accepted :
  split_dots "title." = ["title"; ""] ∧
  undeclared (Some BlogPost) (split_dots "title.") = true ∧
  outcome (only [by_name "title."]) (world (__init__ BlogPost) later) = Ok tt ∧
  outcome (only [by_name ""]) (world (__init__ BlogPost) later) = Ok tt.
Proof. repeat split. Qed.

(** C3 (amended): a keyword of [fields], or a field of [only] or [exclude],
    whose path is not the bare identity name, does not end in an empty
    component, and has a component that does not name a declared field of
    the type the walk has reached, makes the call raise the [ValueError] of
    the walk; and the call makes no call on the store, whatever it
    returns. *)
Theorem rejected_path_raises_before_any_store_call w :
  (∀ only_called kwargs key value,
     (key, value) ∈ kwargs →
     rejected (__klass__ (self w)) (fst (transform_operator key value)) →
     (∃ path, outcome (fields only_called kwargs) w =
              Raise (field_not_found path (__name__ (__klass__ (self w))))) ∧
     same_calls w (after (fields only_called kwargs) w)) ∧
  (∀ specs spec,
     spec ∈ specs →
     rejected (__klass__ (self w))
       (fst (transform_operator (spec_name spec) ONLY)) →
     (∃ path, outcome (only specs) w =
              Raise (field_not_found path (__name__ (__klass__ (self w))))) ∧
     same_calls w (after (only specs) w) ∧
     (∃ path, outcome (exclude specs) w =
              Raise (field_not_found path (__name__ (__klass__ (self w))))) ∧
     same_calls w (after (exclude specs) w)).
Proof.
  assert (∀ only_called kwargs key value,
     (key, value) ∈ kwargs →
     rejected (__klass__ (self w)) (fst (transform_operator key value)) →
     (∃ path, outcome (fields only_called kwargs) w =
              Raise (field_not_found path (__name__ (__klass__ (self w))))) ∧
     same_calls w (after (fields only_called kwargs) w)) as Hfields.
  { intros only_called kwargs key value Hin Hrej.
    split; [|apply fields_same_calls].
    destruct (clean_fields_rejects kwargs [] key value w Hin Hrej) as [p Hp].
    exists p. unfold outcome, fields, bind in *.
    destruct (clean_fields kwargs [] w) as [[c|e] w']; cbn in *; congruence. }
  split; [exact Hfields|].
  intros specs spec Hin Hrej. unfold only, exclude.
  destruct (Hfields true (named_fields specs ONLY []) (spec_name spec) ONLY)
    as [H1 H2]; [apply named_fields_elem; eauto|exact Hrej|].
  destruct (Hfields false (named_fields specs EXCLUDE []) (spec_name spec)
              EXCLUDE) as [H3 H4]; [apply named_fields_elem; eauto| |].
  { by rewrite (transform_operator_key _ _ ONLY). }
  auto.
Qed.

Lemma rejected_path_raises_before_any_store_call_witness :
  rejected BlogPost (fst (transform_operator "meta__bogus" EXCLUDE)) ∧
  rejected BlogPost (fst (transform_operator "title.length" ONLY)) ∧
  (∃ path, outcome (fields false [("title", ONLY); ("meta__bogus", EXCLUDE)])
             (world (__init__ BlogPost) later) =
           Raise (field_not_found path "BlogPost")) ∧
  (∃ path, outcome (only [by_name "comments.text"; by_name "title.length"])
             (world (__init__ BlogPost) later) =
           Raise (field_not_found path "BlogPost")).
Proof.
  assert (rejected BlogPost (fst (transform_operator "meta__bogus" EXCLUDE)))
    as Hmeta by (repeat split; vm_compute; congruence).
  assert (rejected BlogPost (fst (transform_operator "title.length" ONLY)))
    as Htitle by (repeat split; vm_compute; congruence).
  destruct (rejected_path_raises_before_any_store_call
              (world (__init__ BlogPost) later)) as [Hf Ho].
  split; [exact Hmeta|]. split; [exact Htitle|]. split.
  - apply (Hf false [("title", ONLY); ("meta__bogus", EXCLUDE)]
             "meta__bogus" EXCLUDE).
    + apply list_elem_of_further, list_elem_of_here.
    + exact Hmeta.
  - apply (Ho [by_name "comments.text"; by_name "title.length"]
             (by_name "title.length")).
    + apply list_elem_of_further, list_elem_of_here.
    + exact Htitle.
Defined.

(** ** ensure_index *)

Lemma world_eta w :
  {| self := self w; calls := calls w; waiting := waiting w;
     called := called w; lists := lists w;
     answers_at_once := answers_at_once w |} = w.
Proof. destruct w; reflexivity. Qed.

Lemma issue_each {A} (xs : list A) (mk : Collection → A → Call) alias w :
  for_each xs (λ x, c <- coll alias ;; issue (mk c x)) w =
  (Ok tt,
   {| self := self w;
      calls := calls w ++ (mk (target (self w) alias) <$> xs);
      waiting := waiting w ++ seq (length (calls w)) (length xs);
      called := called w; lists := lists w;
      answers_at_once := answers_at_once w |}).
Proof.
  revert w. induction xs as [|x xs IH]; intros w; cbn.
  - rewrite !app_nil_r. rewrite world_eta. reflexivity.
  - unfold bind at 1. unfold coll, bind, get_self, ret, issue. cbn.
    rewrite IH. cbn. rewrite length_app. cbn.
    rewrite <- !app_assoc. cbn.
    replace (length (calls w) + 1)%nat with (S (length (calls w))) by lia.
    reflexivity.
Qed.

Lemma ensure_index_runs w k alias :
  ensure_index (caller k) alias w =
  (Ok tt,
   {| self := self w;
      calls := calls w ++
               (ensure_call (self w) alias (caller k) (fresh (dom (lists w)))
                  <$> indexed_fields (__klass__ (self w)));
      waiting := waiting w ++
                 seq (length (calls w))
                   (length (indexed_fields (__klass__ (self w))));
      called := called w ++
                (if decide (length (indexed_fields (__klass__ (self w))) = 0%nat)
                 then [(k, [AVal (PInt 0)])] else []);
      lists := <[fresh (dom (lists w)) := []]> (lists w);
      answers_at_once := answers_at_once w |}).
Proof.
  unfold ensure_index. unfold bind at 1. unfold get_self.
  unfold bind at 1. unfold new_list.
  unfold bind at 1.
  rewrite (issue_each _
    (λ c field, ensure_index_on c (db_field field) (unique field)
                  (sparse field)
                  (handle_ensure_index (caller k) (fresh (dom (lists w)))
                     (length (filter (λ field, unique field || sparse field = true)
                                (snd <$> _fields (__klass__ (self w)))))))).
  cbn. fold (indexed_fields (__klass__ (self w))). unfold ensure_call.
  destruct (indexed_fields (__klass__ (self w))) as [|f fs] eqn:E; cbn.
  - unfold deliver. cbn. rewrite !app_nil_r. reflexivity.
  - rewrite app_nil_r. reflexivity.
Qed.

(** The callback of an index-ensure call, run on a world. *)
Lemma handle_ensure_index_runs k cell total arguments w :
  invoke (handle_ensure_index (caller k) cell total) arguments w =
  (reply arguments,
   if succeeds arguments then
     {| self := self w; calls := calls w; waiting := waiting w;
        called := called w ++
                  (if (length (default [] (lists w !! cell)) + 1 <? total)%nat
                   then [] else [(k, [AVal (PInt (Z.of_nat total))])]);
        lists := <[cell := default [] (lists w !! cell) ++
                           [default (AVal PNone) (head arguments)]]> (lists w);
        answers_at_once := answers_at_once w |}
   else w).
Proof.
  assert (∀ a rest, reported_error (a :: rest) = None →
    invoke (handle_ensure_index (caller k) cell total) (a :: rest) w =
    (Ok tt,
     {| self := self w; calls := calls w; waiting := waiting w;
        called := called w ++
                  (if (length (default [] (lists w !! cell)) + 1 <? total)%nat
                   then [] else [(k, [AVal (PInt (Z.of_nat total))])]);
        lists := <[cell := default [] (lists w !! cell) ++ [a]]> (lists w);
        answers_at_once := answers_at_once w |})) as Hok.
  { intros a rest E. cbn [invoke]. rewrite E.
    unfold bind, first_argument, list_append, list_len, ret, deliver.
    cbn -[Nat.ltb].
    rewrite lookup_insert_eq. cbn -[Nat.ltb]. rewrite length_app.
    cbn -[Nat.ltb].
    destruct (Nat.ltb _ total); cbn; rewrite ?app_nil_r; reflexivity. }
  unfold reply, succeeds.
  destruct arguments as [|a rest]; [reflexivity|].
  destruct (reported_error (a :: rest)) as [e|] eqn:E.
  - cbn [invoke]. rewrite E. destruct e; reflexivity.
  - rewrite (Hok a rest E). reflexivity.
Qed.

Lemma filter_not_in_nil (l : list nat) : filter (λ j, j ∉ @nil nat) l = l.
Proof.
  induction l as [|x l IH]; [reflexivity|].
  rewrite filter_cons_True; [by rewrite IH|apply not_elem_of_nil].
Qed.

Lemma filter_not_in_cons (i : nat) (js : list nat) (l : list nat) :
  filter (λ j, j ∉ js) (filter (λ j, j ≠ i) l) = filter (λ j, j ∉ i :: js) l.
Proof.
  rewrite list_filter_filter. apply list_filter_iff. intros x.
  rewrite not_elem_of_cons. tauto.
Qed.

Lemma waiting_from_answered base i (l : list nat) :
  i ∈ l → (base ≤ i)%nat →
  (length (filter (λ j, base ≤ j)%nat (filter (λ j, j ≠ i) l)) <
   length (filter (λ j, base ≤ j)%nat l))%nat.
Proof.
  intros Hin Hb.
  replace (filter (λ j, base ≤ j)%nat (filter (λ j, j ≠ i) l))
    with (filter (λ j, j ≠ i) (filter (λ j, base ≤ j)%nat l)).
  2:{ rewrite !list_filter_filter. apply list_filter_iff. tauto. }
  apply (length_filter_lt _ _ i).
  - apply list_elem_of_filter. by split.
  - intros H. by apply H.
Qed.

Section EnsureIndexCallbacks.
Variables (base total cell k : nat).

Lemma answer_ensure_index i arguments w :
  awaits base (handle_ensure_index (caller k) cell total) w →
  i ∈ waiting w → (base ≤ i)%nat →
  ∃ w1,
    answer i arguments w = Some (reply arguments, w1) ∧
    self w1 = self w ∧ calls w1 = calls w ∧
    waiting w1 = filter (λ j, j ≠ i) (waiting w) ∧
    created cell w1 =
      (created cell w + if succeeds arguments then 1 else 0)%nat ∧
    called w1 =
      called w ++
      (if succeeds arguments && negb (created cell w + 1 <? total)%nat
       then [(k, [AVal (PInt (Z.of_nat total))])] else []).
Proof.
  intros Haw Hin Hb. destruct (Haw i Hin Hb) as (c & Hc & Hh).
  unfold answer. rewrite decide_True by done. rewrite Hc, Hh.
  rewrite handle_ensure_index_runs. eexists. split; [reflexivity|].
  unfold created. destruct (succeeds arguments); cbn -[Nat.ltb].
  - rewrite lookup_insert_eq. cbn -[Nat.ltb]. rewrite length_app.
    cbn -[Nat.ltb]. repeat split.
    destruct (Nat.ltb _ total); reflexivity.
  - rewrite app_nil_r, Nat.add_0_r. repeat split.
Qed.

Lemma play_ensure_index events : ∀ w rs w',
  awaits base (handle_ensure_index (caller k) cell total) w →
  Forall (λ e, base ≤ fst e)%nat events →
  (created cell w + length (waiting_from base w) ≤ total)%nat →
  play events w = Some (rs, w') →
  rs = (λ e, reply (snd e)) <$> events ∧
  self w' = self w ∧ calls w' = calls w ∧
  waiting w' = filter (λ j, j ∉ (fst <$> events)) (waiting w) ∧
  created cell w' = (created cell w + successes events)%nat ∧
  (created cell w' + length (waiting_from base w') ≤ total)%nat ∧
  called w' =
    called w ++
    (if decide (created cell w < total ∧ created cell w' = total)%nat
     then [(k, [AVal (PInt (Z.of_nat total))])] else []) ∧
  (length (waiting_from base w') + length events ≤
   length (waiting_from base w))%nat ∧
  awaits base (handle_ensure_index (caller k) cell total) w'.
Proof.
  induction events as [|[i arguments] events IH];
    intros w rs w' Haw Hbase Hbound Hplay.
  - cbn in Hplay. inversion Hplay; subst. cbn.
    rewrite filter_not_in_nil. unfold successes. cbn.
    rewrite Nat.add_0_r. repeat split; try done; try lia.
    rewrite decide_False by lia. by rewrite app_nil_r.
  - cbn in Hplay. apply Forall_cons in Hbase as [Hb Hbase]. cbn in Hb.
    destruct (decide (i ∈ waiting w)) as [Hin|Hnin].
    2:{ unfold answer in Hplay. rewrite decide_False in Hplay by done.
        discriminate. }
    destruct (answer_ensure_index i arguments w Haw Hin Hb)
      as (w1 & Ha & Hs1 & Hc1 & Hw1 & Hn1 & Hd1).
    rewrite Ha in Hplay.
    destruct (play events w1) as [[rs1 w2]|] eqn:Hp; [|discriminate].
    inversion Hplay; subst rs w'. clear Hplay.
    assert (length (waiting_from base w1) < length (waiting_from base w))%nat
      as Hless.
    { unfold waiting_from. rewrite Hw1.
      by apply (waiting_from_answered base i). }
    assert (awaits base (handle_ensure_index (caller k) cell total) w1)
      as Haw1.
    { intros j Hj Hbj. rewrite Hw1 in Hj.
      apply list_elem_of_filter in Hj as [_ Hj]. rewrite Hc1. by apply Haw. }
    assert (created cell w1 + length (waiting_from base w1) ≤ total)%nat
      as Hbound1.
    { rewrite Hn1. destruct (succeeds arguments); lia. }
    destruct (IH w1 rs1 w2 Haw1 Hbase Hbound1 Hp)
      as (Hrs & Hs2 & Hc2 & Hw2 & Hn2 & Hb2 & Hd2 & Hl2 & Haw2).
    assert (successes ((i, arguments) :: events) =
            ((if succeeds arguments then 1 else 0) + successes events)%nat)
      as Hsucc.
    { unfold successes. destruct (succeeds arguments) eqn:Es.
      - rewrite filter_cons_True by exact Es. reflexivity.
      - rewrite filter_cons_False; [reflexivity|]. cbn. congruence. }
    repeat split.
    + cbn. by rewrite Hrs.
    + congruence.
    + congruence.
    + rewrite Hw2, Hw1. cbn. apply filter_not_in_cons.
    + rewrite Hn2, Hn1, Hsucc. lia.
    + exact Hb2.
    + rewrite Hd2, Hd1, <- app_assoc. f_equal.
      rewrite Hn1 in *.
      destruct (succeeds arguments); cbn -[Nat.ltb].
      * destruct (Nat.ltb_spec (created cell w + 1) total).
        -- cbn. apply decide_ext. lia.
        -- cbn. rewrite decide_False by lia. rewrite decide_True; [done|].
           lia.
      * apply decide_ext. lia.
    + cbn. lia.
    + exact Haw2.
Qed.
End EnsureIndexCallbacks.

Lemma filter_all_below (base : nat) (l : list nat) :
  (∀ i, i ∈ l → (i < base)%nat) → filter (λ i, base ≤ i)%nat l = [].
Proof.
  induction l as [|x l IH]; intros H; [reflexivity|].
  rewrite filter_cons_False.
  - apply IH. intros i Hi. apply H. by apply list_elem_of_further.
  - specialize (H x (list_elem_of_here _ _)). lia.
Qed.

Lemma filter_all_from (base n : nat) :
  filter (λ i, base ≤ i)%nat (seq base n) = seq base n.
Proof.
  assert (∀ m, (base ≤ m)%nat → filter (λ i, base ≤ i)%nat (seq m n) = seq m n)
    as H; [|by apply H].
  induction n as [|n IH]; intros m Hm; [reflexivity|]. cbn [seq].
  rewrite filter_cons_True by done. rewrite IH by lia. reflexivity.
Qed.

(** C9, the claim as stated fails: both index-ensure calls of [BlogPost] are
    made before any answer; the first is answered with an error, which is
    raised; the second, for [slug], is still waiting, is answered, and its
    index is recorded.  The count is never delivered. *)
Lemma failed_index_does_not_abort_the_next :
  ensured_field <$>
    calls (after (ensure_index (caller 0%nat) None)
             (world (__init__ BlogPost) later)) = [Some "title"; Some "slug"] ∧
  (λ p, (fst p, waiting (snd p))) <$>
    play [(0%nat, [AVal PNone; AErr (StoreError "no space")])]
      (after (ensure_index (caller 0%nat) None)
         (world (__init__ BlogPost) later)) =
    Some ([Raise (StoreError "no space")], [1%nat]) ∧
  (λ p, (fst p, map_to_list (lists (snd p)), called (snd p))) <$>
    play [(0%nat, [AVal PNone; AErr (StoreError "no space")]);
          (1%nat, [AVal (PStr "slug_1")])]
      (after (ensure_index (caller 0%nat) None)
         (world (__init__ BlogPost) later)) =
    Some ([Raise (StoreError "no space"); Ok tt],
          [(0%nat, [AVal (PStr "slug_1")])], []).
Proof. repeat split; vm_compute; reflexivity. Qed.

(** C9 (amended): [ensure_index] makes one index-ensure call per field
    flagged unique or sparse, all of them before any is answered, and with no
    such field it makes none and delivers 0 at once.  However the calls are
    answered, each callback raises the error reported to it, the calls not
    yet answered stay waiting and can be answered, and the total is
    delivered to the continuation once, exactly when every call has been
    answered without error. *)
Theorem ensure_index_confirms_every_index w k alias :
  well_formed w →
  let total := length (indexed_fields (__klass__ (self w))) in
  let base := length (calls w) in
  let w1 := after (ensure_index (caller k) alias) w in
  outcome (ensure_index (caller k) alias) w = Ok tt ∧
  (∃ cell, calls w1 =
           calls w ++ (ensure_call (self w) alias (caller k) cell <$>
                       indexed_fields (__klass__ (self w)))) ∧
  waiting w1 = waiting w ++ seq base total ∧
  called w1 =
    called w ++ (if decide (total = 0%nat) then [(k, [AVal (PInt 0)])] else []) ∧
  ∀ events rs w2,
    Forall (λ e, base ≤ fst e)%nat events →
    play events w1 = Some (rs, w2) →
    rs = (λ e, reply (snd e)) <$> events ∧
    calls w2 = calls w1 ∧
    waiting w2 = filter (λ j, j ∉ (fst <$> events)) (waiting w1) ∧
    (length events ≤ total)%nat ∧
    called w2 =
      called w1 ++
      (if decide (total ≠ 0%nat ∧ successes events = total)
       then [(k, [AVal (PInt (Z.of_nat total))])] else []) ∧
    (∀ i arguments, i ∈ waiting w2 → (base ≤ i)%nat →
                    is_Some (answer i arguments w2)).
Proof.
  intros [Hnd Hlt] total base w1.
  unfold outcome. subst w1. unfold after. rewrite ensure_index_runs. cbn.
  fold total. fold base.
  set (cell := fresh (dom (lists w))).
  set (w1 := {| self := self w; calls := _; waiting := _; called := _;
                lists := _; answers_at_once := _ |}).
  split; [reflexivity|]. split; [by exists cell|].
  split; [reflexivity|]. split; [reflexivity|].
  intros events rs w2 Hbase Hplay.
  assert (waiting_from base w1 = seq base total) as Hwf.
  { unfold waiting_from, w1. cbn. rewrite filter_app.
    rewrite filter_all_below by exact Hlt. apply filter_all_from. }
  assert (created cell w1 = 0%nat) as Hcr.
  { unfold created, w1. cbn. by rewrite lookup_insert_eq. }
  assert (awaits base (handle_ensure_index (caller k) cell total) w1) as Haw.
  { intros i Hi Hb. unfold w1 in *. cbn in *.
    apply elem_of_app in Hi as [Hi|Hi]; [apply Hlt in Hi; lia|].
    apply elem_of_seq in Hi.
    rewrite lookup_app_r by lia. rewrite list_lookup_fmap.
    destruct (lookup_lt_is_Some_2 (indexed_fields (__klass__ (self w)))
                (i - base)) as [f Hf]; [fold total; lia|].
    fold base. rewrite Hf. cbn. eexists. split; reflexivity. }
  destruct (play_ensure_index base total cell k events w1 rs w2 Haw Hbase)
    as (Hrs & _ & Hc & Hw & Hn & Hb & Hd & Hl & Haw2); [|exact Hplay|].
  { rewrite Hwf, Hcr, length_seq. lia. }
  rewrite Hwf, length_seq in Hl. rewrite Hcr in *.
  repeat split; try done.
  - lia.
  - rewrite Hd. f_equal. apply decide_ext. lia.
  - intros i arguments Hi Hbi.
    destruct (answer_ensure_index base total cell k i arguments w2 Haw2 Hi Hbi)
      as (w3 & -> & _). by eexists.
Qed.

Lemma ensure_index_confirms_every_index_witness :
  well_formed (world (__init__ BlogPost) later) ∧
  (λ p, (fst p, called (snd p))) <$>
    play [(1%nat, [AVal (PStr "slug_1")]); (0%nat, [AVal (PStr "title_1")])]
      (after (ensure_index (caller 7%nat) None)
         (world (__init__ BlogPost) later)) =
  Some ([Ok tt; Ok tt], [(7%nat, [AVal (PInt 2)])]).
Proof.
  assert (well_formed (world (__init__ BlogPost) later)) as Hwf.
  { split; [apply NoDup_nil_2|]. intros i Hi. by apply elem_of_nil in Hi. }
  split; [exact Hwf|].
  destruct (ensure_index_confirms_every_index
              (world (__init__ BlogPost) later) 7%nat None Hwf)
    as (_ & _ & _ & _ & Hplay).
  destruct (play [(1%nat, [AVal (PStr "slug_1")]);
                  (0%nat, [AVal (PStr "title_1")])]
              (after (ensure_index (caller 7%nat) None)
                 (world (__init__ BlogPost) later))) as [[rs w2]|] eqn:E;
    [|vm_compute in E; discriminate].
  assert (Forall (λ e : nat * list Arg,
                    length (calls (world (__init__ BlogPost) later)) ≤ fst e)%nat
            [(1%nat, [AVal (PStr "slug_1")]); (0%nat, [AVal (PStr "title_1")])])
    as Hfrom by (repeat constructor; cbn; lia).
  destruct (Hplay _ rs w2 Hfrom E) as (Hrs & _ & _ & _ & Hcalled & _).
  cbn [fmap option_fmap option_map fst snd]. rewrite Hrs, Hcalled.
  reflexivity.
Defined.

(** ** The batch counter of find_all *)

Lemma length_filter_answered (i : nat) (l : list nat) :
  NoDup l → i ∈ l → (length (filter (λ j, j ≠ i) l) + 1 = length l)%nat.
Proof.
  induction l as [|x l IH]; intros Hnd Hin; [by apply elem_of_nil in Hin|].
  apply NoDup_cons in Hnd as [Hx Hnd].
  apply elem_of_cons in Hin as [->|Hin].
  - rewrite filter_cons_False by (intros H; by apply H).
    assert (filter (λ j, j ≠ x) l = l) as ->; [|cbn; lia].
    clear IH Hnd. induction l as [|y l IH]; [reflexivity|].
    apply not_elem_of_cons in Hx as [Hne Hx].
    rewrite filter_cons_True by done. by rewrite IH.
  - rewrite filter_cons_True by (intros ->; done). cbn.
    rewrite IH by done. lia.
Qed.

Lemma well_formed_answered i w w' :
  well_formed w → calls w' = calls w →
  waiting w' = filter (λ j, j ≠ i) (waiting w) → well_formed w'.
Proof.
  intros [Hnd Hlt] Hc Hw. split.
  - rewrite Hw. by apply NoDup_filter.
  - intros j Hj. rewrite Hw in Hj. apply list_elem_of_filter in Hj as [_ Hj].
    rewrite Hc. by apply Hlt.
Qed.

Section Batch.
Variables (k base : nat) (lazy : option bool) (result : list Doc).
Variable before : list (nat * list Arg).

Lemma signal_runs w o :
  outstanding before k result w (S o) →
  ∃ w', find_all_signal (deliver k) result w = (Ok tt, w') ∧
        outstanding before k result w' o ∧
        calls w' = calls w ∧ waiting w' = waiting w ∧
        answers_at_once w' = answers_at_once w.
Proof.
  intros (Hc & Hs & Hb).
  unfold find_all_signal, bind, get_self, set_self, ret, deliver. cbn.
  rewrite Hc, Hs. cbn.
  destruct (decide (Z.of_nat (length result) - Z.of_nat (S o) + 1 =
                    Z.of_nat (length result))) as [He|Hne].
  - eexists. split; [reflexivity|]. cbn.
    assert (o = 0%nat) as -> by lia. cbn. rewrite Hb. repeat split.
  - eexists. split; [reflexivity|]. cbn.
    destruct o as [|o]; [lia|]. cbn. repeat split; [|done..].
    f_equal. lia.
Qed.

Lemma outstanding_frame w w' o :
  self w' = self w → called w' = called w →
  outstanding before k result w o → outstanding before k result w' o.
Proof. intros Hs Hc. unfold outstanding. rewrite Hs, Hc. done. Qed.

Lemma resolve_loop todo : ∀ w,
  well_formed w → (base ≤ length (calls w))%nat →
  awaits base (handle_find_all_auto_load_references (caller k) result) w →
  outstanding before k result w
    (length todo + length (waiting_from base w)) →
  ∃ w', find_all_resolve (deliver k) (caller k) lazy result todo w =
          (Ok tt, w') ∧
        well_formed w' ∧
        awaits base (handle_find_all_auto_load_references (caller k) result)
          w' ∧
        calls w' =
          calls w ++
          (load_call k result <$>
           filter (λ doc, loads_references lazy doc = true) todo) ∧
        outstanding before k result w' (length (waiting_from base w')) ∧
        answers_at_once w' = answers_at_once w.
Proof.
  induction todo as [|doc todo IH]; intros w Hwf Hbase Haw Hout.
  - exists w. cbn. rewrite app_nil_r. repeat split; try done; apply Hwf.
  - change (outstanding before k result w
              (S (length todo + length (waiting_from base w)))) in Hout.
    unfold find_all_resolve in *. cbn [for_each]. unfold bind at 1.
    destruct (loads_references lazy doc) eqn:Hloads.
    + rewrite filter_cons_True by exact Hloads.
      unfold bind at 1. unfold at_once at 1.
      destruct (answers_at_once w doc) as [now|] eqn:Hnow.
      * unfold bind at 1. unfold issue_answered at 1.
        set (wa := {| self := self w; calls := calls w ++ [_];
                      waiting := waiting w; called := called w;
                      lists := lists w;
                      answers_at_once := answers_at_once w |}).
        assert (outstanding before k result wa
                  (S (length todo + length (waiting_from base wa)))) as Ho.
        { eapply outstanding_frame; [| |exact Hout]; reflexivity. }
        destruct (signal_runs wa _ Ho) as (ws & -> & Hos & Hcs & Hws & Has).
        destruct (IH ws) as (w' & Hrun & Hwf' & Haw' & Hc' & Ho' & Ha').
        -- destruct Hwf as [Hnd Hlt]. split; rewrite Hws; [exact Hnd|].
           intros i Hi. rewrite Hcs. cbn. rewrite length_app.
           specialize (Hlt i Hi). lia.
        -- rewrite Hcs. cbn. rewrite length_app. lia.
        -- intros i Hi Hb. rewrite Hws in Hi. rewrite Hcs. cbn.
           destruct (Haw i Hi Hb) as (c & Hc & Hh). exists c. split; [|done].
           rewrite lookup_app_l; [done|]. by apply lookup_lt_Some in Hc.
        -- unfold waiting_from in *. rewrite Hws. exact Hos.
        -- exists w'. rewrite Hrun.
           split; [reflexivity|]. split; [exact Hwf'|].
           split; [exact Haw'|]. split; [|split; [exact Ho'|]].
           ++ rewrite Hc', Hcs. cbn. rewrite <- app_assoc. reflexivity.
           ++ rewrite Ha', Has. reflexivity.
      * unfold issue at 1.
        set (wi := {| self := self w; calls := calls w ++ [_];
                      waiting := waiting w ++ [length (calls w)];
                      called := called w; lists := lists w;
                      answers_at_once := answers_at_once w |}).
        assert (waiting_from base wi =
                waiting_from base w ++ [length (calls w)]) as Hwi.
        { unfold waiting_from, wi. cbn. rewrite filter_app.
          rewrite filter_cons_True by exact Hbase. reflexivity. }
        destruct (IH wi) as (w' & Hrun & Hwf' & Haw' & Hc' & Ho' & Ha').
        -- destruct Hwf as [Hnd Hlt]. split; cbn.
           ++ apply NoDup_app. split; [exact Hnd|]. split.
              ** intros i Hi Hi'. apply list_elem_of_singleton in Hi'.
                 specialize (Hlt i Hi). lia.
              ** apply NoDup_singleton.
           ++ intros i Hi. rewrite length_app. cbn.
              apply elem_of_app in Hi as [Hi|Hi].
              ** specialize (Hlt i Hi). lia.
              ** apply list_elem_of_singleton in Hi. lia.
        -- cbn. rewrite length_app. lia.
        -- intros i Hi Hb. cbn in Hi |- *.
           apply elem_of_app in Hi as [Hi|Hi].
           ++ destruct (Haw i Hi Hb) as (c & Hc & Hh). exists c.
              split; [|done]. rewrite lookup_app_l; [done|].
              by apply lookup_lt_Some in Hc.
           ++ apply list_elem_of_singleton in Hi. subst i.
              rewrite lookup_app_r by lia. rewrite Nat.sub_diag. cbn.
              eexists. split; reflexivity.
        -- rewrite Hwi, length_app. cbn [length].
           replace (length todo + (length (waiting_from base w) + 1))%nat
             with (S (length todo + length (waiting_from base w))) by lia.
           eapply outstanding_frame; [| |exact Hout]; reflexivity.
        -- exists w'. rewrite Hrun.
           split; [reflexivity|]. split; [exact Hwf'|].
           split; [exact Haw'|]. split; [|split; [exact Ho'|exact Ha']].
           rewrite Hc'. cbn. rewrite <- app_assoc. reflexivity.
    + rewrite filter_cons_False by (rewrite Hloads; discriminate).
      destruct (signal_runs w _ Hout) as (ws & -> & Hos & Hcs & Hws & Has).
      destruct (IH ws) as (w' & Hrun & Hwf' & Haw' & Hc' & Ho' & Ha').
      * destruct Hwf as [Hnd Hlt]. split; rewrite Hws; [exact Hnd|].
        intros i Hi. rewrite Hcs. by apply Hlt.
      * by rewrite Hcs.
      * intros i Hi Hb. rewrite Hws in Hi. rewrite Hcs. by apply Haw.
      * unfold waiting_from in *. rewrite Hws. exact Hos.
      * exists w'. rewrite Hrun.
        split; [reflexivity|]. split; [exact Hwf'|].
        split; [exact Haw'|]. split; [|split; [exact Ho'|]].
        -- by rewrite Hc', Hcs.
        -- by rewrite Ha', Has.
Qed.
End Batch.

Section BatchCallbacks.
Variables (k base : nat) (result : list Doc).
Variable before : list (nat * list Arg).

Lemma answer_batch i arguments w :
  well_formed w →
  awaits base (handle_find_all_auto_load_references (caller k) result) w →
  outstanding before k result w (length (waiting_from base w)) →
  i ∈ waiting w → (base ≤ i)%nat →
  ∃ w1, answer i arguments w = Some (Ok tt, w1) ∧
        well_formed w1 ∧
        awaits base (handle_find_all_auto_load_references (caller k) result)
          w1 ∧
        calls w1 = calls w ∧
        waiting w1 = filter (λ j, j ≠ i) (waiting w) ∧
        outstanding before k result w1 (length (waiting_from base w1)) ∧
        (length (waiting_from base w1) + 1 =
         length (waiting_from base w))%nat.
Proof.
  intros Hwf Haw Hout Hin Hb. destruct (Haw i Hin Hb) as (c & Hc & Hh).
  unfold answer. rewrite decide_True by done. rewrite Hc, Hh.
  set (wf := {| self := self w; calls := calls w;
                waiting := filter (λ j, j ≠ i) (waiting w);
                called := called w; lists := lists w;
                answers_at_once := answers_at_once w |}).
  change (invoke (handle_find_all_auto_load_references (caller k) result)
            arguments wf)
    with (find_all_signal (deliver k) result wf).
  assert (length (waiting_from base wf) + 1 =
          length (waiting_from base w))%nat as Hlen.
  { unfold waiting_from, wf. cbn.
    replace (filter (λ j, base ≤ j)%nat (filter (λ j, j ≠ i) (waiting w)))
      with (filter (λ j, j ≠ i) (filter (λ j, base ≤ j)%nat (waiting w))).
    2:{ rewrite !list_filter_filter. apply list_filter_iff. tauto. }
    apply length_filter_answered.
    - apply NoDup_filter, Hwf.
    - apply list_elem_of_filter. by split. }
  assert (outstanding before k result wf
            (S (length (waiting_from base wf)))) as Ho.
  { replace (S (length (waiting_from base wf)))
      with (length (waiting_from base w)) by lia.
    eapply outstanding_frame; [| |exact Hout]; reflexivity. }
  destruct (signal_runs k result before wf _ Ho)
    as (w1 & -> & Ho1 & Hc1 & Hw1 & Ha1).
  exists w1. split; [reflexivity|].
  assert (waiting_from base w1 = waiting_from base wf) as Hsame.
  { unfold waiting_from. by rewrite Hw1. }
  split; [|split; [|split; [exact Hc1|split; [exact Hw1|split]]]].
  - eapply (well_formed_answered i w); [exact Hwf|exact Hc1|exact Hw1].
  - intros j Hj Hbj. rewrite Hw1 in Hj. cbn in Hj.
    apply list_elem_of_filter in Hj as [_ Hj]. rewrite Hc1. by apply Haw.
  - by rewrite Hsame.
  - by rewrite Hsame.
Qed.

Lemma play_batch events : ∀ w rs w',
  well_formed w →
  awaits base (handle_find_all_auto_load_references (caller k) result) w →
  outstanding before k result w (length (waiting_from base w)) →
  Forall (λ e, base ≤ fst e)%nat events →
  play events w = Some (rs, w') →
  Forall (λ r, r = Ok tt) rs ∧
  calls w' = calls w ∧
  waiting w' = filter (λ j, j ∉ (fst <$> events)) (waiting w) ∧
  well_formed w' ∧
  awaits base (handle_find_all_auto_load_references (caller k) result) w' ∧
  outstanding before k result w' (length (waiting_from base w')) ∧
  (length (waiting_from base w') + length events =
   length (waiting_from base w))%nat.
Proof.
  induction events as [|[i arguments] events IH];
    intros w rs w' Hwf Haw Hout Hbase Hplay.
  - cbn in Hplay. inversion Hplay; subst. cbn.
    rewrite filter_not_in_nil. repeat split; try done; try apply Hwf;
      try lia.
  - cbn in Hplay. apply Forall_cons in Hbase as [Hb Hbase]. cbn in Hb.
    destruct (decide (i ∈ waiting w)) as [Hin|Hnin].
    2:{ unfold answer in Hplay. rewrite decide_False in Hplay by done.
        discriminate. }
    destruct (answer_batch i arguments w Hwf Haw Hout Hin Hb)
      as (w1 & Ha & Hwf1 & Haw1 & Hc1 & Hw1 & Ho1 & Hl1).
    rewrite Ha in Hplay.
    destruct (play events w1) as [[rs1 w2]|] eqn:Hp; [|discriminate].
    inversion Hplay; subst rs w'. clear Hplay.
    destruct (IH w1 rs1 w2 Hwf1 Haw1 Ho1 Hbase Hp)
      as (Hrs & Hc2 & Hw2 & Hwf2 & Haw2 & Ho2 & Hl2).
    split; [by constructor|]. split; [congruence|].
    split; [|split; [exact Hwf2|split; [exact Haw2|split; [exact Ho2|]]]].
    + rewrite Hw2, Hw1. cbn. apply filter_not_in_cons.
    + cbn. lia.
Qed.
End BatchCallbacks.

(** What the inner [handle] of [handle_find_all] does with the records of
    the store: the counters are set, the documents made, and the batch goes
    to [find_all_deliver]. *)
Lemma handle_find_all_runs callback lazy records w :
  invoke (handle_find_all callback lazy) [ARecords records] w =
  find_all_deliver (invoke callback) callback lazy
    ((λ doc, from_son (__klass__ (self w)) doc
               (QueryFieldList_bool (_loaded_fields (self w)))
               (_reference_loaded_fields (self w))) <$> records)
    {| self := counting (Z.of_nat (length records)) (self w);
       calls := calls w; waiting := waiting w; called := called w;
       lists := lists w; answers_at_once := answers_at_once w |}.
Proof. reflexivity. Qed.

(** The world [handle_find_all] hands to [find_all_deliver] has its counters
    at 0 and at the size of the batch. *)
Lemma handle_find_all_counters records (make : Son → Doc) w :
  well_formed w →
  well_formed
    {| self := counting (Z.of_nat (length records)) (self w);
       calls := calls w; waiting := waiting w; called := called w;
       lists := lists w; answers_at_once := answers_at_once w |} ∧
  current_count (counting (Z.of_nat (length records)) (self w)) = Val 0 ∧
  result_size (counting (Z.of_nat (length records)) (self w)) =
    Val (Z.of_nat (length (make <$> records))).
Proof. intros H. rewrite length_fmap. repeat split; apply H. Qed.

(** C2: a batch of N documents goes through the second loop of
    [handle_find_all] with the counters set as the handler sets them.  The
    documents that [loads_references] selects, K of them, are sent to
    [load_references] and no other; the rest signal at once.  Whatever the
    order in which the loads call back, and whether a load calls back at once
    or later: every callback returns normally; while some load has not
    called back, nothing is delivered and the counter stands at N less the
    loads outstanding; when none is outstanding the batch has been delivered
    to the continuation exactly once; and every outstanding load can call
    back. *)
Theorem batch_is_delivered_exactly_once w k lazy result :
  well_formed w →
  current_count (self w) = Val 0 →
  result_size (self w) = Val (Z.of_nat (length result)) →
  let base := length (calls w) in
  let w1 := after (find_all_deliver (invoke (caller k)) (caller k) lazy result)
              w in
  outcome (find_all_deliver (invoke (caller k)) (caller k) lazy result) w =
    Ok tt ∧
  calls w1 =
    calls w ++
    (load_call k result <$>
     filter (λ doc, loads_references lazy doc = true) result) ∧
  ∀ events rs w2,
    Forall (λ e, base ≤ fst e)%nat events →
    play events w1 = Some (rs, w2) →
    Forall (λ r, r = Ok tt) rs ∧
    calls w2 = calls w1 ∧
    waiting w2 = filter (λ j, j ∉ (fst <$> events)) (waiting w1) ∧
    (waiting_from base w2 ≠ [] →
     called w2 = called w ∧
     current_count (self w2) =
       Val (Z.of_nat (length result) -
            Z.of_nat (length (waiting_from base w2)))) ∧
    (waiting_from base w2 = [] →
     called w2 = called w ++ [(k, [ADocs result])]) ∧
    (∀ i arguments, i ∈ waiting w2 → (base ≤ i)%nat →
                    is_Some (answer i arguments w2)).
Proof.
  intros Hwf Hcount Hsize base w1.
  assert (waiting_from base w = []) as Hnone.
  { apply filter_all_below. apply Hwf. }
  assert (awaits base (handle_find_all_auto_load_references (caller k) result)
            w) as Haw.
  { intros i Hi Hb. destruct Hwf as [_ Hlt]. specialize (Hlt i Hi).
    unfold base in Hb. lia. }
  assert (∃ w', find_all_deliver (invoke (caller k)) (caller k) lazy result w =
                  (Ok tt, w') ∧
                well_formed w' ∧
                awaits base
                  (handle_find_all_auto_load_references (caller k) result) w' ∧
                calls w' =
                  calls w ++
                  (load_call k result <$>
                   filter (λ doc, loads_references lazy doc = true) result) ∧
                outstanding (called w) k result w'
                  (length (waiting_from base w'))) as (w' & Hrun & Hwf' & Haw' &
                                                       Hc' & Ho').
  { destruct (decide (result = [])) as [->|Hne].
    - cbn. unfold deliver. eexists. split; [reflexivity|]. cbn.
      split; [exact Hwf|]. split; [exact Haw|]. split; [by rewrite app_nil_r|].
      unfold waiting_from. cbn. fold (waiting_from base w). rewrite Hnone.
      reflexivity.
    - assert (find_all_deliver (invoke (caller k)) (caller k) lazy result =
              find_all_resolve (deliver k) (caller k) lazy result result)
        as -> by (destruct result; done).
      assert (outstanding (called w) k result w (length result)) as Hout.
      { clear Haw Hnone. destruct result as [|d r]; [done|].
        cbn [outstanding]. split; [|split; [exact Hsize|reflexivity]].
        rewrite Hcount. f_equal. lia. }
      destruct (resolve_loop k base lazy result (called w) result w Hwf)
        as (w' & Hrun & Hwf' & Haw' & Hc' & Ho' & _).
      + unfold base. lia.
      + exact Haw.
      + by rewrite Hnone, Nat.add_0_r.
      + exists w'. by rewrite Hrun. }
  unfold outcome. subst w1. unfold after. rewrite Hrun. cbn [fst snd].
  split; [reflexivity|]. split; [exact Hc'|].
  intros events rs w2 Hbase Hplay.
  destruct (play_batch k base result (called w) events w' rs w2 Hwf' Haw' Ho'
              Hbase Hplay) as (Hrs & Hc2 & Hw2 & Hwf2 & Haw2 & Ho2 & Hl2).
  split; [exact Hrs|]. split; [exact Hc2|]. split; [exact Hw2|].
  split; [|split].
  - intros Hne. destruct (waiting_from base w2) as [|j js]; [done|].
    cbn [length] in *. destruct Ho2 as (Hcc & _ & Hcd). by split.
  - intros He. rewrite He in Ho2. exact Ho2.
  - intros i arguments Hi Hbi.
    destruct (answer_batch k base result (called w) i arguments w2 Hwf2 Haw2
                Ho2 Hi Hbi) as (w3 & -> & _). by eexists.
Qed.

Lemma batch_is_delivered_exactly_once_witness :
  well_formed (world (counting 2 (__init__ BlogPost)) later) ∧
  current_count (self (world (counting 2 (__init__ BlogPost)) later)) = Val 0 ∧
  (λ p, called (snd p)) <$>
    play [(0%nat, [])]
      (after (find_all_deliver (invoke (caller 5%nat)) (caller 5%nat) None
                [eager_post; lazy_post])
         (world (counting 2 (__init__ BlogPost)) later)) =
  Some [(5%nat, [ADocs [eager_post; lazy_post]])].
Proof.
  assert (well_formed (world (counting 2 (__init__ BlogPost)) later)) as Hwf.
  { split; [apply NoDup_nil_2|]. intros i Hi. by apply elem_of_nil in Hi. }
  split; [exact Hwf|]. split; [reflexivity|].
  destruct (batch_is_delivered_exactly_once
              (world (counting 2 (__init__ BlogPost)) later) 5%nat None
              [eager_post; lazy_post] Hwf eq_refl eq_refl)
    as (_ & _ & Hplay).
  destruct (play [(0%nat, [])]
              (after (find_all_deliver (invoke (caller 5%nat)) (caller 5%nat)
                        None [eager_post; lazy_post])
                 (world (counting 2 (__init__ BlogPost)) later)))
    as [[rs w2]|] eqn:E; [|vm_compute in E; discriminate].
  assert (Forall (λ e : nat * list Arg,
                    length (calls (world (counting 2 (__init__ BlogPost))
                                     later)) ≤ fst e)%nat
            [(0%nat, @nil Arg)]) as Hfrom by (repeat constructor).
  destruct (Hplay _ rs w2 Hfrom E) as (_ & _ & Hw & _ & Hdone & _).
  cbn [fmap option_fmap option_map fst snd]. f_equal. apply Hdone.
  unfold waiting_from. rewrite Hw. vm_compute. reflexivity.
Defined.

(** ** only: chained calls and the single call *)

Lemma transform_operator_field_name key value :
  is_field_name key →
  transform_operator key value = (join_dots (split_dunder key), value).
Proof.
  intros H. unfold transform_operator.
  destruct (split_dunder key) as [|op others] eqn:E; [reflexivity|].
  rewrite bool_decide_eq_false_2; [reflexivity|]. by eapply H.
Qed.

Lemma clean_field_resolves klass key w :
  is_field_name key → __klass__ (self w) = klass →
  clean_field key ONLY w = resolved (resolve klass key) w.
Proof.
  intros Hname Hk. unfold resolve, clean_field.
  rewrite (transform_operator_field_name _ _ Hname).
  destruct (check_valid_cases klass (join_dots (split_dunder key)) ONLY)
    as (m & Hm & E).
  rewrite (E w Hk), (E (world (__init__ klass) later) eq_refl).
  destruct Hm as [H|H|n r H]; rewrite !H; cbn.
  - reflexivity.
  - rewrite lookup_empty. cbn. rewrite map_to_list_empty. reflexivity.
  - rewrite lookup_insert_eq. cbn. rewrite lookup_empty. cbn.
    rewrite insert_empty, map_to_list_singleton. reflexivity.
Qed.

Lemma first_bad_app rs rs' :
  first_bad (rs ++ rs') =
  match first_bad rs with Some e => Some e | None => first_bad rs' end.
Proof. induction rs as [|[] rs IH]; cbn; auto. Qed.

Lemma first_bad_none rs r : first_bad rs = None → r ∈ rs → ¬ is_Bad r.
Proof.
  induction rs as [|r' rs IH]; intros Hn Hin; [by apply elem_of_nil in Hin|].
  apply elem_of_cons in Hin as [->|Hin].
  - destruct r'; cbn in *; [discriminate|tauto..].
  - destruct r'; cbn in *; [discriminate|by apply IH..].
Qed.

Lemma clean_fields_resolves klass keys :
  Forall is_field_name keys →
  ∀ cleaned w, __klass__ (self w) = klass →
    match first_bad (resolve klass <$> keys) with
    | Some e =>
        fst (clean_fields ((λ key, (key, ONLY)) <$> keys) cleaned w) = Raise e
    | None =>
        clean_fields ((λ key, (key, ONLY)) <$> keys) cleaned w =
        (Ok (cleaned ++
             ((λ r, (resolved_name r, ONLY)) <$> (resolve klass <$> keys))),
         with_self (filed (resolve klass <$> keys)) w)
    end.
Proof.
  induction 1 as [|key keys Hname Hnames IH]; intros cleaned w Hk.
  - cbn. rewrite app_nil_r. unfold with_self, filed, ret. cbn.
    destruct w as [[] ? ? ? ? ?]; reflexivity.
  - cbn [fmap list_fmap first_bad clean_fields]. unfold bind.
    rewrite (clean_field_resolves klass key w Hname Hk).
    destruct (resolve klass key) as [e|n|n r] eqn:Er; cbn [resolved first_bad].
    + reflexivity.
    + unfold ret. specialize (IH (cleaned ++ [(n, ONLY)]) w Hk).
      destruct (first_bad (resolve klass <$> keys)); [exact IH|].
      rewrite IH. cbn. rewrite <- app_assoc. reflexivity.
    + specialize (IH (cleaned ++ [(n, ONLY)]) (set_reference n r ONLY w) Hk).
      destruct (first_bad (resolve klass <$> keys)); [exact IH|].
      rewrite IH. cbn. rewrite <- app_assoc. reflexivity.
Qed.

Lemma sorted_only (l : list (string * PyVal)) :
  Forall (λ x, snd x = ONLY) l → sorted l = l.
Proof.
  induction 1 as [|[f v] l Hx Hl IH]; [reflexivity|].
  unfold sorted in *. cbn [foldr]. rewrite IH. cbn in Hx. subst v.
  destruct Hl as [|[f' v'] l' Hy Hl']; [reflexivity|].
  cbn in Hy. subst v'. reflexivity.
Qed.

Lemma groupby_only (l : list (string * PyVal)) :
  Forall (λ x, snd x = ONLY) l →
  groupby l = match l with [] => [] | _ => [(ONLY, fst <$> l)] end.
Proof.
  induction 1 as [|[f v] l Hx Hl IH]; [reflexivity|].
  cbn [groupby]. rewrite IH. cbn in Hx. subst v.
  destruct l as [|y l]; [reflexivity|]. rewrite decide_True by done.
  reflexivity.
Qed.

(** [fields(True, ...)] on keys that are field names, all mapped to ONLY. *)
Lemma fields_only_runs klass keys w :
  Forall is_field_name keys → __klass__ (self w) = klass →
  match first_bad (resolve klass <$> keys) with
  | Some e =>
      outcome (fields true ((λ key, (key, ONLY)) <$> keys)) w = Raise e
  | None =>
      fields true ((λ key, (key, ONLY)) <$> keys) w =
      (Ok tt, with_self (projected (resolve klass <$> keys)) w)
  end.
Proof.
  intros Hnames Hk. unfold outcome, fields, bind.
  pose proof (clean_fields_resolves klass keys Hnames [] w Hk) as H.
  destruct (first_bad (resolve klass <$> keys)).
  - destruct (clean_fields _ [] w) as [[c|e'] w']; cbn in *; congruence.
  - rewrite H. cbn [app].
    set (rs := resolve klass <$> keys).
    assert (Forall (λ x : string * PyVal, snd x = ONLY)
              ((λ r, (resolved_name r, ONLY)) <$> rs)) as Hall.
    { apply Forall_fmap. by apply Forall_true. }
    rewrite (sorted_only _ Hall), (groupby_only _ Hall).
    destruct rs as [|r rs]; [reflexivity|].
    cbn [fmap list_fmap for_each]. unfold bind, add_loaded_fields, set_self, ret.
    cbn. unfold with_self, projected. cbn. repeat f_equal.
    rewrite <- list_fmap_compose. reflexivity.
Qed.

Lemma dict_set_add_key (keys : list string) key (v : PyVal) :
  dict_set ((λ k, (k, v)) <$> keys) key v = (λ k, (k, v)) <$> add_key keys key.
Proof.
  unfold add_key. induction keys as [|k0 keys IH]; [reflexivity|].
  cbn [fmap list_fmap dict_set]. destruct (decide (k0 = key)) as [->|Hne].
  - rewrite decide_True by apply list_elem_of_here. reflexivity.
  - rewrite IH. destruct (decide (key ∈ keys)) as [Hin|Hnin].
    + rewrite decide_True by (by apply list_elem_of_further). reflexivity.
    + rewrite decide_False; [reflexivity|].
      intros H. apply elem_of_cons in H as [->|H]; done.
Qed.

Lemma named_fields_keys specs (v : PyVal) : ∀ keys,
  named_fields specs v ((λ k, (k, v)) <$> keys) =
  (λ k, (k, v)) <$> foldl add_key keys (spec_name <$> specs).
Proof.
  induction specs as [|spec specs IH]; intros keys; [reflexivity|].
  destruct spec; cbn [named_fields fmap list_fmap foldl spec_name];
    rewrite dict_set_add_key; apply IH.
Qed.

Lemma only_runs specs :
  only specs = fields true ((λ k, (k, ONLY)) <$> only_keys specs).
Proof.
  unfold only, only_keys. f_equal. exact (named_fields_keys specs ONLY []).
Qed.

Lemma add_keys_elem (l : list string) : ∀ keys x,
  x ∈ foldl add_key keys l ↔ x ∈ keys ∨ x ∈ l.
Proof.
  induction l as [|y l IH]; intros keys x; cbn.
  - rewrite elem_of_nil. tauto.
  - rewrite IH, elem_of_cons. unfold add_key.
    destruct (decide (y ∈ keys)) as [Hin|Hnin].
    + split; [tauto|]. intros [H|[->|H]]; tauto.
    + rewrite elem_of_app, list_elem_of_singleton. tauto.
Qed.

Lemma add_keys_field_names (l : list string) : ∀ keys,
  Forall is_field_name keys → Forall is_field_name l →
  Forall is_field_name (foldl add_key keys l).
Proof.
  intros keys Hk Hl. apply Forall_forall. intros x Hx.
  apply add_keys_elem in Hx as [Hx|Hx];
    [eapply (proj1 (Forall_forall _ _) Hk)|eapply (proj1 (Forall_forall _ _) Hl)];
    done.
Qed.

(** The first refused key of the accumulated keys is the first refused key
    of the keys so far, or else of the names added. *)
Lemma first_bad_add_keys klass (l : list string) : ∀ keys,
  first_bad (resolve klass <$> foldl add_key keys l) =
  match first_bad (resolve klass <$> keys) with
  | Some e => Some e
  | None => first_bad (resolve klass <$> l)
  end.
Proof.
  induction l as [|x l IH]; intros keys; cbn [foldl fmap list_fmap].
  - cbn. by destruct (first_bad _).
  - rewrite IH. unfold add_key. destruct (decide (x ∈ keys)) as [Hin|Hnin].
    + destruct (first_bad (resolve klass <$> keys)) eqn:Hfb; [reflexivity|].
      assert (¬ is_Bad (resolve klass x)) as Hok.
      { eapply first_bad_none; [exact Hfb|]. by apply list_elem_of_fmap_2. }
      cbn. destruct (resolve klass x); cbn in *; tauto.
    + rewrite fmap_app, first_bad_app. cbn.
      destruct (first_bad (resolve klass <$> keys)); [reflexivity|].
      destruct (resolve klass x); reflexivity.
Qed.

Lemma file_comm refs u u' : file (file refs u) u' = file (file refs u') u.
Proof.
  destruct u as [n t], u' as [n' t']. unfold file. cbn.
  destruct (decide (n = n')) as [<-|Hne].
  - rewrite !lookup_insert_eq, !insert_insert_eq. cbn. f_equal.
    destruct (decide (t = t')) as [<-|Ht]; [reflexivity|].
    by apply insert_insert_ne.
  - rewrite !lookup_insert_ne by done. by apply insert_insert_ne.
Qed.

Lemma file_idem refs u : file (file refs u) u = file refs u.
Proof.
  destruct u as [n t]. unfold file. cbn.
  rewrite lookup_insert_eq, !insert_insert_eq. cbn.
  by rewrite insert_insert_eq.
Qed.

Lemma foldl_file_comm l : ∀ refs u,
  foldl file (file refs u) l = file (foldl file refs l) u.
Proof.
  induction l as [|x l IH]; intros refs u; [reflexivity|]. cbn.
  rewrite file_comm. apply IH.
Qed.

Lemma foldl_file_absorb l : ∀ refs u,
  u ∈ l → file (foldl file refs l) u = foldl file refs l.
Proof.
  induction l as [|x l IH]; intros refs u Hin; [by apply elem_of_nil in Hin|].
  cbn. apply elem_of_cons in Hin as [->|Hin].
  - rewrite foldl_file_comm. apply file_idem.
  - by apply IH.
Qed.

(** Filing reference projections is a union: the result depends on the set
    of the entries only. *)
Lemma foldl_file_same l1 : ∀ l2 refs,
  (∀ u, u ∈ l1 → u ∈ l2) → (∀ u, u ∈ l2 → u ∈ l1) →
  foldl file refs l1 = foldl file refs l2.
Proof.
  assert (∀ l l' refs, (∀ u, u ∈ l → u ∈ l') →
            foldl file (foldl file refs l') l = foldl file refs l') as Hsub.
  { induction l as [|x l IH]; intros l' refs H; [reflexivity|]. cbn.
    rewrite foldl_file_absorb by (apply H, list_elem_of_here).
    apply IH. intros u Hu. by apply H, list_elem_of_further. }
  assert (∀ l l' refs,
            foldl file (foldl file refs l') l =
            foldl file (foldl file refs l) l') as Hswap.
  { induction l as [|x l IH]; intros l' refs; [reflexivity|]. cbn.
    rewrite <- IH. f_equal. symmetry. apply foldl_file_comm. }
  intros l2 refs H12 H21.
  rewrite <- (Hsub l1 l2 refs H12), Hswap. symmetry. apply Hsub, H21.
Qed.

Lemma only_lookup (names : list string) k :
  (list_to_map ((λ f, (f, ONLY)) <$> names) : gmap string PyVal) !! k =
  if decide (k ∈ names) then Some ONLY else None.
Proof.
  induction names as [|n names IH]; cbn.
  - rewrite lookup_empty. rewrite decide_False; [done|apply not_elem_of_nil].
  - destruct (decide (n = k)) as [->|Hne].
    + rewrite lookup_insert_eq. rewrite decide_True by apply list_elem_of_here.
      reflexivity.
    + rewrite lookup_insert_ne by done. rewrite IH.
      destruct (decide (k ∈ names)) as [Hin|Hnin].
      * rewrite decide_True by (by apply list_elem_of_further). reflexivity.
      * rewrite decide_False; [reflexivity|].
        intros H. apply elem_of_cons in H as [->|H]; done.
Qed.

Lemma projected_loaded rs qs :
  fields_of (_loaded_fields (projected rs qs)) =
    list_to_map ((λ f, (f, ONLY)) <$> (resolved_name <$> rs)) ∪
    fields_of (_loaded_fields qs) ∧
  _only_called (_loaded_fields (projected rs qs)) =
    _only_called (_loaded_fields qs) || negb (bool_decide (rs = [])) ∧
  always_include (_loaded_fields (projected rs qs)) =
    always_include (_loaded_fields qs).
Proof.
  destruct rs as [|r rs]; cbn.
  - rewrite (left_id_L ∅ (∪)), orb_false_r. done.
  - done.
Qed.

Lemma QueryFieldList_eq (q q' : QueryFieldList) :
  fields_of q = fields_of q' → _only_called q = _only_called q' →
  always_include q = always_include q' → q = q'.
Proof. destruct q, q'; cbn; intros -> -> ->; reflexivity. Qed.

Lemma QuerySet_eq (q q' : QuerySet) :
  __klass__ q = __klass__ q' → _filters q = _filters q' →
  _limit q = _limit q' → _skip q = _skip q' →
  _order_fields q = _order_fields q' →
  _loaded_fields q = _loaded_fields q' →
  _reference_loaded_fields q = _reference_loaded_fields q' →
  current_count q = current_count q' → result_size q = result_size q' →
  q = q'.
Proof.
  destruct q, q'; cbn; intros -> -> -> -> -> -> -> -> ->; reflexivity.
Qed.

(** Going through the keys of [a] and then through those of [b] leaves the
    queryset that going through the keys of both leaves. *)
Lemma projected_twice klass (a b : list string) qs :
  projected (resolve klass <$> foldl add_key [] b)
    (projected (resolve klass <$> foldl add_key [] a) qs) =
  projected (resolve klass <$> foldl add_key (foldl add_key [] a) b) qs.
Proof.
  set (A := foldl add_key [] a). set (B := foldl add_key [] b).
  set (AB := foldl add_key A b).
  assert (∀ x, x ∈ AB ↔ x ∈ A ∨ x ∈ B) as Hel.
  { intros x. unfold AB, B. rewrite !add_keys_elem, elem_of_nil. tauto. }
  destruct (projected_loaded (resolve klass <$> B)
              (projected (resolve klass <$> A) qs)) as (Hf1 & Ho1 & Ha1).
  destruct (projected_loaded (resolve klass <$> A) qs) as (Hf2 & Ho2 & Ha2).
  destruct (projected_loaded (resolve klass <$> AB) qs) as (Hf3 & Ho3 & Ha3).
  assert (_loaded_fields (projected (resolve klass <$> B)
                            (projected (resolve klass <$> A) qs)) =
          _loaded_fields (projected (resolve klass <$> AB) qs)) as Hloaded.
  { apply QueryFieldList_eq.
    - rewrite Hf1, Hf2, Hf3. apply map_eq. intros i.
      rewrite !lookup_union, !only_lookup.
      assert (i ∈ resolved_name <$> (resolve klass <$> AB) ↔
              i ∈ resolved_name <$> (resolve klass <$> A) ∨
              i ∈ resolved_name <$> (resolve klass <$> B)) as Hi.
      { rewrite <- !list_fmap_compose, !list_elem_of_fmap. split.
        - intros (x & -> & Hx). apply Hel in Hx as [Hx|Hx]; eauto.
        - intros [(x & -> & Hx)|(x & -> & Hx)]; exists x; split; auto;
            apply Hel; auto. }
      repeat case_decide; try tauto;
        destruct (fields_of (_loaded_fields qs) !! i); reflexivity.
    - rewrite Ho1, Ho2, Ho3, <- orb_assoc. f_equal.
      assert (AB = [] ↔ A = [] ∧ B = []) as Hnil.
      { split.
        - intros H. split; apply elem_of_nil_inv; intros x Hx;
            (assert (x ∈ AB) as Hx' by (apply Hel; auto));
            rewrite H in Hx'; by apply elem_of_nil in Hx'.
        - intros [HA HB]. apply elem_of_nil_inv. intros x Hx.
          apply Hel in Hx. rewrite HA, HB in Hx.
          destruct Hx as [Hx|Hx]; by apply elem_of_nil in Hx. }
      destruct A as [|xa A'], B as [|xb B'], AB as [|xab AB']; cbn; try done;
        exfalso; (destruct Hnil as [H1 H2]; try (by destruct (H1 eq_refl));
                  try (by specialize (H2 (conj eq_refl eq_refl)))).
    - rewrite Ha1, Ha2, Ha3. reflexivity. }
  assert (_reference_loaded_fields
            (projected (resolve klass <$> B)
               (projected (resolve klass <$> A) qs)) =
          _reference_loaded_fields (projected (resolve klass <$> AB) qs))
    as Hrefs.
  { cbn. rewrite <- foldl_app. apply foldl_file_same; intros u Hu.
    - apply elem_of_app in Hu.
      rewrite !list_elem_of_omap in Hu. apply list_elem_of_omap.
      destruct Hu as [(r & Hr & Hf)|(r & Hr & Hf)]; exists r; split; auto;
        apply list_elem_of_fmap in Hr as (x & -> & Hx);
        apply list_elem_of_fmap_2; apply Hel; auto.
    - apply list_elem_of_omap in Hu as (r & Hr & Hf).
      apply list_elem_of_fmap in Hr as (x & -> & Hx).
      apply elem_of_app. rewrite !list_elem_of_omap.
      apply Hel in Hx as [Hx|Hx]; [left|right];
        exists (resolve klass x); split; auto; by apply list_elem_of_fmap_2. }
  apply QuerySet_eq; try reflexivity; assumption.
Qed.

Lemma add_keys_absorb (l : list string) : ∀ keys,
  (∀ x, x ∈ l → x ∈ keys) → foldl add_key keys l = keys.
Proof.
  induction l as [|x l IH]; intros keys H; [reflexivity|]. cbn.
  unfold add_key at 2. rewrite decide_True by apply H, list_elem_of_here.
  apply IH. intros y Hy. by apply H, list_elem_of_further.
Qed.

Lemma only_keys_app a b :
  only_keys (a ++ b) = foldl add_key (only_keys a) (spec_name <$> b).
Proof. unfold only_keys. by rewrite fmap_app, foldl_app. Qed.

Lemma only_keys_twice a : only_keys (a ++ a) = only_keys a.
Proof.
  rewrite only_keys_app. apply add_keys_absorb. intros x Hx.
  unfold only_keys. apply add_keys_elem. by right.
Qed.

Lemma only_keys_field_names a :
  Forall (λ spec, is_field_name (spec_name spec)) a →
  Forall is_field_name (only_keys a).
Proof.
  intros H. apply add_keys_field_names; [constructor|]. by apply Forall_fmap.
Qed.

Lemma only_chain w a b :
  Forall (λ spec, is_field_name (spec_name spec)) (a ++ b) →
  outcome (only a ;; only b) w = outcome (only (a ++ b)) w ∧
  (outcome (only (a ++ b)) w = Ok tt →
   after (only a ;; only b) w = after (only (a ++ b)) w).
Proof.
  intros Hnames. apply Forall_app in Hnames as [Ha Hb].
  set (klass := __klass__ (self w)).
  rewrite !only_runs, only_keys_app.
  pose proof (fields_only_runs klass (only_keys a) w
                (only_keys_field_names a Ha) eq_refl) as HA.
  pose proof (fields_only_runs klass
                (foldl add_key (only_keys a) (spec_name <$> b)) w) as HAB.
  rewrite first_bad_add_keys in HAB.
  unfold outcome, after, bind in *.
  destruct (first_bad (resolve klass <$> only_keys a)) as [e|].
  - specialize (HAB (add_keys_field_names _ _ (only_keys_field_names a Ha)
                       (proj2 (Forall_fmap _ _ _) Hb)) eq_refl).
    destruct (fields true ((λ k, (k, ONLY)) <$> only_keys a) w)
      as [[[]|e'] wA] eqn:EA; cbn in HA; [discriminate|].
    cbn [fst snd]. rewrite HAB. split; [exact HA|discriminate].
  - rewrite HA.
    pose proof (fields_only_runs klass (only_keys b)
                  (with_self (projected (resolve klass <$> only_keys a)) w)
                  (only_keys_field_names b Hb) eq_refl) as HB.
    unfold only_keys at 1 in HB. rewrite first_bad_add_keys in HB. cbn in HB.
    specialize (HAB (add_keys_field_names _ _ (only_keys_field_names a Ha)
                       (proj2 (Forall_fmap _ _ _) Hb)) eq_refl).
    unfold outcome in *.
    destruct (first_bad (resolve klass <$> (spec_name <$> b))) as [e|].
    + rewrite HB, HAB. split; [reflexivity|discriminate].
    + fold (only_keys b) in HB. rewrite HB, HAB. split; [reflexivity|].
      intros _. cbn. unfold with_self. cbn. f_equal.
      apply (projected_twice klass (spec_name <$> a) (spec_name <$> b)).
Qed.

(** C7: on a new queryset, for lists [a] and [b] of field names, chaining
    [only(a).only(b)] raises what the single call [only(a, b)] raises, or
    else both return and leave the same queryset, with the same loaded
    fields and the same reference projections; and [only(a).only(a)] does as
    [only(a)].  The merge of projection sets is the one of the
    specification. *)
Theorem only_accumulates_a_union klass at_once a b :
  Forall (λ spec, is_field_name (spec_name spec)) (a ++ b) →
  (outcome (only a ;; only b) (world (__init__ klass) at_once) =
     outcome (only (a ++ b)) (world (__init__ klass) at_once) ∧
   (outcome (only (a ++ b)) (world (__init__ klass) at_once) = Ok tt →
    self (after (only a ;; only b) (world (__init__ klass) at_once)) =
    self (after (only (a ++ b)) (world (__init__ klass) at_once)))) ∧
  (outcome (only a ;; only a) (world (__init__ klass) at_once) =
     outcome (only a) (world (__init__ klass) at_once) ∧
   (outcome (only a) (world (__init__ klass) at_once) = Ok tt →
    self (after (only a ;; only a) (world (__init__ klass) at_once)) =
    self (after (only a) (world (__init__ klass) at_once)))).
Proof.
  intros Hnames. split.
  - destruct (only_chain (world (__init__ klass) at_once) a b Hnames)
      as [Ho Hs].
    split; [exact Ho|]. intros H. by rewrite (Hs H).
  - assert (only (a ++ a) = only a) as Htwice.
    { by rewrite !only_runs, only_keys_twice. }
    destruct (only_chain (world (__init__ klass) at_once) a a) as [Ho Hs].
    { apply Forall_app in Hnames as [Ha _]. by apply Forall_app. }
    rewrite Htwice in *. split; [exact Ho|]. intros H. by rewrite (Hs H).
Qed.

Lemma only_accumulates_a_union_witness :
  Forall (λ spec, is_field_name (spec_name spec))
    ([by_name "title"; by_name "author.name"] ++
     [by_name "comments__text"; by_name "title"]) ∧
  outcome (only [by_name "title"; by_name "author.name"] ;;
           only [by_name "comments__text"; by_name "title"])
    (world (__init__ BlogPost) later) = Ok tt ∧
  self (after (only [by_name "title"; by_name "author.name"] ;;
               only [by_name "comments__text"; by_name "title"])
          (world (__init__ BlogPost) later)) =
  self (after (only [by_name "title"; by_name "author.name";
                     by_name "comments__text"; by_name "title"])
          (world (__init__ BlogPost) later)).
Proof.
  assert (Forall (λ spec, is_field_name (spec_name spec))
            ([by_name "title"; by_name "author.name"] ++
             [by_name "comments__text"; by_name "title"])) as Hnames.
  { repeat constructor; intros op others E; vm_compute in E;
      inversion E; subst; vm_compute;
      intros H; apply list_elem_of_singleton in H; discriminate. }
  split; [exact Hnames|].
  destruct (only_accumulates_a_union BlogPost later
              [by_name "title"; by_name "author.name"]
              [by_name "comments__text"; by_name "title"] Hnames)
    as [[Ho Hs] _].
  split; [rewrite Ho; vm_compute; reflexivity|].
  apply Hs. vm_compute. reflexivity.
Defined.

(** * Further properties *)

(** ** Further properties of the projection builder *)

(** The loop returns normally on every path whose components are all
    declared and that does not end in an empty component. *)
Lemma walk_accepts kn fn v t before obj w :
  last (split_dots t) ≠ Some "" →
  undeclared obj (split_dots t) = false →
  ∃ r w', walk kn fn v (Some t) before obj w = (Ok r, w').
Proof.
  remember (S (String.length t)) as n eqn:Hn.
  assert (String.length t < n)%nat as Hlt by lia. clear Hn.
  revert t before obj Hlt.
  induction n as [|n IH]; intros t before obj Hlt Hlast Hu; [lia|].
  rewrite walk_some. unfold walk_step.
  rewrite split_dots_once in Hlast, Hu.
  destruct (split_once t) as [c r] eqn:E.
  pose proof (split_once_shorter _ _ _ E) as Hs.
  assert (tail_bool (Some t) = true) as ->.
  { destruct t; [|reflexivity]. simpl in E. inversion E; subst. done. }
  cbn zeta.
  assert (∀ o', undeclared o' match r with
                               | Some r' => split_dots r'
                               | None => []
                               end = false →
          ∃ r0 w', walk kn fn v r (before ++ [c]) o' w = (Ok r0, w')) as Hrec.
  { intros o' Hu'. destruct r as [r'|].
    - apply IH; [simpl in Hs; lia| |exact Hu'].
      rewrite last_cons_not_nil in Hlast by apply split_dots_not_nil.
      exact Hlast.
    - rewrite walk_equation_2. by eexists _, _. }
  assert (undeclared obj (c :: match r with
                               | Some r' => split_dots r'
                               | None => []
                               end) = false) as Hu'.
  { destruct r; exact Hu. }
  clear Hu. simpl in Hu'.
  assert (∃ r0 w', _fill_reference_loaded_fields (before ++ [c]) r fn v w =
                   (Ok r0, w')) as Hfill.
  { destruct (fill_reference_cases kn (before ++ [c]) r fn v) as [H|H|? ? H].
    - exfalso. unfold _fill_reference_loaded_fields in H.
      specialize (H w). destruct r as [t'|]; [|discriminate].
      destruct (tail_bool (Some t')); discriminate.
    - rewrite H. by eexists _, _.
    - rewrite H. by eexists _, _. }
  destruct obj as [o|]; [|discriminate].
  destruct (dict_get (_fields o) c) as [field|]; [|discriminate].
  destruct (kind field) as [| |?|base]; try (by apply Hrec); try exact Hfill.
  destruct (kind base); try (by apply Hrec); exact Hfill.
Qed.

(** X1: [_check_valid_field_name_to_project] raises exactly on the paths that
    have an undeclared component: for a path that is not the bare identity
    name and does not end in an empty component, the call raises if and only
    if the walk meets a component that is not declared on the type reached;
    when it raises, it raises the [ValueError] that names the whole path and
    the root class, and the queryset is as it was. *)
Theorem check_valid_raises_iff_undeclared path value w :
  path ≠ "_id" →
  last (split_dots path) ≠ Some "" →
  ((∃ e, outcome (_check_valid_field_name_to_project path value) w = Raise e)
   ↔ undeclared (Some (__klass__ (self w))) (split_dots path) = true) ∧
  (∀ e, outcome (_check_valid_field_name_to_project path value) w = Raise e →
        e = field_not_found path (__name__ (__klass__ (self w))) ∧
        after (_check_valid_field_name_to_project path value) w = w).
Proof.
  intros Hid Hlast.
  destruct (undeclared (Some (__klass__ (self w))) (split_dots path)) eqn:Hu.
  - assert (rejected (__klass__ (self w)) path) as Hrej by done.
    unfold outcome, after. rewrite (check_valid_rejects _ value _ Hrej). cbn.
    split; [split; eauto|]. intros e [= <-]. done.
  - assert (∃ r w', _check_valid_field_name_to_project path value w =
                    (Ok r, w')) as (r & w' & E).
    { unfold _check_valid_field_name_to_project, bind, get_self. cbn.
      destruct (negb (contains_dot path) && _); [by eexists _, _|].
      by apply walk_accepts. }
    unfold outcome, after. rewrite E. cbn.
    split; [split; [intros [e ?]|]; discriminate|]. intros e [=].
Qed.

Lemma check_valid_raises_iff_undeclared_witness :
  ((∃ e, outcome (_check_valid_field_name_to_project "meta.bogus" ONLY)
           (world (__init__ BlogPost) later) = Raise e)
   ↔ undeclared (Some BlogPost) (split_dots "meta.bogus") = true) ∧
  ((∃ e, outcome (_check_valid_field_name_to_project "comments.text" ONLY)
           (world (__init__ BlogPost) later) = Raise e)
   ↔ undeclared (Some BlogPost) (split_dots "comments.text") = true).
Proof.
  split.
  - apply (check_valid_raises_iff_undeclared "meta.bogus" ONLY
             (world (__init__ BlogPost) later)); vm_compute; congruence.
  - apply (check_valid_raises_iff_undeclared "comments.text" ONLY
             (world (__init__ BlogPost) later)); vm_compute; congruence.
Defined.

Lemma contains_dot_dotted r t : contains_dot (r +:+ "." +:+ t) = true.
Proof.
  induction r as [|c r IH]; [reflexivity|]. simpl. rewrite IH.
  apply orb_true_r.
Qed.

Lemma split_once_dotted r t :
  contains_dot r = false → split_once (r +:+ "." +:+ t) = (r, Some t).
Proof.
  induction r as [|c r IH]; [reflexivity|]. simpl.
  destruct (Ascii.eqb c _); [discriminate|]. simpl. intros H.
  rewrite (IH H). reflexivity.
Qed.

(** X2: a projection below a reference.  For a field [r] of the class that is
    a reference or a list of references, and a non-empty [rest], checking the
    path [r.rest] with any value returns the reference field itself with
    [ONLY], whatever the value was, and files [rest] with the value under
    [r] in the reference projections: [rest] then maps to the value, the
    other entries under [r] and the entries of the other fields are as they
    were, and nothing else of the world changes. *)
Theorem reference_path_is_filed w r rest value field :
  contains_dot r = false →
  rest ≠ "" →
  dict_get (_fields (__klass__ (self w))) r = Some field →
  (has_reference_type field = true ∨
   ∃ base, kind field = ListField base ∧ has_reference_type base = true) →
  _check_valid_field_name_to_project (r +:+ "." +:+ rest) value w =
    (Ok (r, ONLY), set_reference r rest value w) ∧
  (∃ m, _reference_loaded_fields (self (set_reference r rest value w)) !! r
          = Some m ∧
        m !! rest = Some value ∧
        ∀ rest', rest' ≠ rest →
          m !! rest' =
          default ∅ (_reference_loaded_fields (self w) !! r) !! rest') ∧
  (∀ r', r' ≠ r →
     _reference_loaded_fields (self (set_reference r rest value w)) !! r' =
     _reference_loaded_fields (self w) !! r') ∧
  _loaded_fields (self (set_reference r rest value w)) =
    _loaded_fields (self w) ∧
  same_calls w (set_reference r rest value w).
Proof.
  intros Hdot Hrest Hget Hkind. split; [|split; [|split; [|split]]].
  - unfold _check_valid_field_name_to_project, bind, get_self. cbn.
    rewrite contains_dot_dotted. cbn.
    rewrite walk_some. unfold walk_step.
    rewrite (split_once_dotted _ _ Hdot).
    assert (tail_bool (Some (r +:+ "." +:+ rest)) = true) as ->.
    { destruct r; reflexivity. }
    cbn zeta. rewrite Hget.
    assert (_fill_reference_loaded_fields ([] ++ [r]) (Some rest)
              (r +:+ "." +:+ rest) value w =
            (Ok (r, ONLY), set_reference r rest value w)) as Hfill.
    { unfold _fill_reference_loaded_fields.
      assert (tail_bool (Some rest) = true) as ->.
      { cbn. destruct (String.eqb_spec rest ""); [done|reflexivity]. }
      reflexivity. }
    destruct Hkind as [H|(base & Hk & H)].
    + unfold has_reference_type in H.
      destruct (kind field); try discriminate. exact Hfill.
    + rewrite Hk. unfold has_reference_type in H.
      destruct (kind base); try discriminate. exact Hfill.
  - cbn. rewrite lookup_insert_eq. eexists. split; [reflexivity|].
    split; [apply lookup_insert_eq|]. intros rest' Hne.
    by rewrite lookup_insert_ne.
  - intros r' Hne. cbn. by rewrite lookup_insert_ne.
  - reflexivity.
  - repeat split.
Qed.

Lemma reference_path_is_filed_witness :
  _check_valid_field_name_to_project ("author" +:+ "." +:+ "name") EXCLUDE
    (world (__init__ BlogPost) later) =
  (Ok ("author", ONLY),
   set_reference "author" "name" EXCLUDE (world (__init__ BlogPost) later)).
Proof.
  apply (reference_path_is_filed (world (__init__ BlogPost) later)
           "author" "name" EXCLUDE
           (BaseField "author" "author" false false None
              (ReferenceField "User"))).
  - reflexivity.
  - discriminate.
  - reflexivity.
  - left. reflexivity.
Defined.

Lemma same_but_references_trans q1 q2 q3 :
  same_but_references q1 q2 → same_but_references q2 q3 →
  same_but_references q1 q3.
Proof.
  unfold same_but_references.
  intros (-> & -> & -> & -> & -> & ->) (-> & -> & -> & -> & -> & ->). done.
Qed.

Lemma clean_field_keeps_loaded key value w :
  same_but_references (self w) (self (snd (clean_field key value w))).
Proof.
  unfold clean_field. destruct (transform_operator key value) as [k v].
  destruct (check_valid_cases (__klass__ (self w)) k v) as (m & Hm & E).
  rewrite (E w eq_refl). destruct Hm as [H|H|n r H]; rewrite H; repeat split.
Qed.

Lemma clean_fields_keeps_loaded kwargs cleaned w :
  same_but_references (self w) (self (snd (clean_fields kwargs cleaned w))).
Proof.
  revert cleaned w. induction kwargs as [|[key value] rest IH];
    intros cleaned w; cbn.
  - repeat split.
  - unfold bind.
    pose proof (clean_field_keeps_loaded key value w) as H.
    destruct (clean_field key value w) as [[c|e] w']; cbn in *; [|exact H].
    eapply same_but_references_trans; [exact H|apply IH].
Qed.

Lemma add_loaded_fields_keeps groups only_called w :
  always_include
    (_loaded_fields
       (self (after (for_each groups (add_loaded_fields only_called)) w))) =
  always_include (_loaded_fields (self w)) ∧
  _reference_loaded_fields
    (self (after (for_each groups (add_loaded_fields only_called)) w)) =
  _reference_loaded_fields (self w).
Proof.
  revert w. induction groups as [|g groups IH]; intros w; cbn.
  - repeat split.
  - unfold after, bind in *. cbn.
    match goal with |- context [for_each groups _ ?w'] =>
      destruct (IH w') as [Ha Hr]; rewrite Ha, Hr end.
    repeat split.
Qed.

(** X3: a call of [fields] (and so of [only] and [exclude]) that raises
    leaves the loaded fields, the filters, the limit, the skip and the sort
    order of the queryset as they were, and makes no call: the names are
    merged into the loaded fields only after every key was accepted.  The
    reference projections are not covered: those that the keys before the
    refused one filed stay filed. *)
Theorem refused_fields_keep_the_loaded_fields only_called kwargs w e :
  outcome (fields only_called kwargs) w = Raise e →
  same_but_references (self w) (self (after (fields only_called kwargs) w)) ∧
  same_calls w (after (fields only_called kwargs) w).
Proof.
  intros Hraise. split; [|apply fields_same_calls].
  unfold outcome, after, fields, bind in *.
  pose proof (clean_fields_keeps_loaded kwargs [] w) as H.
  destruct (clean_fields kwargs [] w) as [[c|err] w']; cbn in *; [|exact H].
  destruct (add_loaded_fields_same_calls (groupby (sorted c)) only_called w')
    as [Ho _].
  unfold outcome in Ho. rewrite Ho in Hraise. discriminate.
Qed.

Lemma refused_fields_keep_the_loaded_fields_witness :
  outcome (fields true [("author.name", ONLY); ("bogus", ONLY)])
    (world (__init__ BlogPost) later) =
    Raise (field_not_found "bogus" "BlogPost") ∧
  _loaded_fields
    (self (after (fields true [("author.name", ONLY); ("bogus", ONLY)])
             (world (__init__ BlogPost) later))) =
    _loaded_fields (__init__ BlogPost) ∧
  _reference_loaded_fields
    (self (after (fields true [("author.name", ONLY); ("bogus", ONLY)])
             (world (__init__ BlogPost) later))) !! "author" =
    Some {["name" := ONLY]}.
Proof.
  assert (outcome (fields true [("author.name", ONLY); ("bogus", ONLY)])
            (world (__init__ BlogPost) later) =
          Raise (field_not_found "bogus" "BlogPost")) as H
    by (vm_compute; reflexivity).
  split; [exact H|]. split.
  - apply (refused_fields_keep_the_loaded_fields true
             [("author.name", ONLY); ("bogus", ONLY)]
             (world (__init__ BlogPost) later) _ H).
  - vm_compute. reflexivity.
Defined.

(** X4: [all_fields] undoes what [fields], [only] and [exclude] did to the
    loaded fields, and nothing else: after a call of [fields] that returned,
    [all_fields] leaves the loaded fields as it would have left them without
    that call, empty, so that documents are no longer partly loaded; the
    reference projections that call filed are still there. *)
Theorem all_fields_undoes_fields only_called kwargs w :
  outcome (fields only_called kwargs) w = Ok tt →
  outcome (fields only_called kwargs ;; all_fields) w = Ok tt ∧
  _loaded_fields (self (after (fields only_called kwargs ;; all_fields) w)) =
    _loaded_fields (self (after all_fields w)) ∧
  QueryFieldList_bool
    (_loaded_fields (self (after (fields only_called kwargs ;; all_fields) w)))
    = false ∧
  _reference_loaded_fields
    (self (after (fields only_called kwargs ;; all_fields) w)) =
    _reference_loaded_fields (self (after (fields only_called kwargs) w)).
Proof.
  intros Hok.
  assert (always_include
            (_loaded_fields (self (after (fields only_called kwargs) w))) =
          always_include (_loaded_fields (self w))) as Halways.
  { unfold after, fields, bind in *. unfold outcome, fields, bind in Hok.
    destruct (clean_fields_keeps_loaded kwargs [] w)
      as (_ & _ & _ & _ & _ & Hl).
    destruct (clean_fields kwargs [] w) as [[c|err] w']; cbn in *;
      [|discriminate].
    destruct (add_loaded_fields_keeps (groupby (sorted c)) only_called w')
      as [Ha _].
    unfold after in Ha. rewrite Ha, Hl. reflexivity. }
  unfold outcome, after in *. unfold bind at 1 2 3 4.
  destruct (fields only_called kwargs w) as [[[]|err] w'] eqn:E; cbn in *;
    [|discriminate].
  rewrite Halways. repeat split.
Qed.

Lemma all_fields_undoes_fields_witness :
  _loaded_fields
    (self (after (fields true [("title", ONLY); ("author.name", ONLY)] ;;
                  all_fields)
             (world (__init__ BlogPost) later))) =
  _loaded_fields (self (after all_fields (world (__init__ BlogPost) later))).
Proof.
  apply (all_fields_undoes_fields true [("title", ONLY); ("author.name", ONLY)]
           (world (__init__ BlogPost) later)).
  vm_compute. reflexivity.
Defined.

(** ** filter and filter_not *)

Lemma with_self_id w : with_self (λ qs, qs) w = w.
Proof. destruct w; reflexivity. Qed.

Section Filtering.
Variable validate_fields : Klass → list (string * PyVal) → Result unit.
Variable raw : list (string * PyVal) → QNode.
Variable and_ : QNode → QNode → QNode.

Lemma filter_node_runs w q kwargs :
  QuerySet_filter validate_fields raw and_ [a_node q] kwargs w =
  (Ok tt, with_self (filtered_by and_ q) w).
Proof.
  unfold QuerySet_filter, bind, get_self, set_self, with_self, filtered_by.
  destruct (_filters (self w)); reflexivity.
Qed.

Lemma filter_chain_runs (nodes : list QNode) : ∀ w,
  for_each nodes
    (λ q, QuerySet_filter validate_fields raw and_ [a_node q] []) w =
  (Ok tt,
   with_self (λ qs, foldl (λ qs q, filtered_by and_ q qs) qs nodes) w).
Proof.
  induction nodes as [|q nodes IH]; intros w; cbn [for_each foldl].
  - by rewrite with_self_id.
  - unfold bind. rewrite filter_node_runs, IH. reflexivity.
Qed.

Lemma filtered_by_chain (nodes : list QNode) : ∀ q qs,
  foldl (λ qs q, filtered_by and_ q qs) (filtered_by and_ q qs) nodes =
  set_filters
    (Node (foldl and_ match _filters qs with
                      | Node p => and_ p q
                      | EmptyDict => q
                      end nodes)) qs.
Proof.
  induction nodes as [|q' nodes IH]; intros q qs; [reflexivity|].
  cbn [foldl]. rewrite IH. reflexivity.
Qed.

(** X5: chained [filter] calls reach the store as one conjunction, once.
    Every [filter] call with a node as its one argument returns normally,
    without validating anything.  After the calls for the nodes [q], [qs] on
    any queryset, the filter state is the conjunction of what was there
    before and the nodes, nested to the left in the order of the calls; the
    [find_all] that follows sends exactly that conjunction, compiled, and a
    [filter] after it starts afresh from its own node.  After an [update]
    instead, the next [filter] is conjoined with the earlier ones. *)
Theorem filter_chain_reaches_the_store w q (qs : list QNode) k lazy alias
    definition q' :
  let by_node := λ q, QuerySet_filter validate_fields raw and_ [a_node q] [] in
  let chain := for_each (q :: qs) by_node in
  let conjunction :=
    foldl and_ match _filters (self w) with
               | Node p => and_ p q
               | EmptyDict => q
               end qs in
  outcome chain w = Ok tt ∧
  self (after chain w) = set_filters (Node conjunction) (self w) ∧
  (∃ cursor length,
     calls (after (chain ;; find_all (caller k) lazy alias) w) =
       calls w ++ [to_list (target (self w) alias) cursor length
                     (handle_find_all (caller k) lazy)] ∧
     query_filters cursor =
       to_query conjunction (__name__ (__klass__ (self w)))) ∧
  _filters (self (after (chain ;; find_all (caller k) lazy alias ;;
                         by_node q') w)) = Node q' ∧
  _filters (self (after (chain ;; update definition (Some (caller k)) alias ;;
                         by_node q') w)) = Node (and_ conjunction q').
Proof.
  intros by_node chain conjunction.
  assert (chain w = (Ok tt, with_self (λ _, set_filters (Node conjunction)
                                              (self w)) w)) as Hchain.
  { unfold chain, by_node. rewrite filter_chain_runs. cbn [foldl].
    unfold with_self. by rewrite filtered_by_chain. }
  unfold outcome, after.
  split; [by rewrite Hchain|]. split; [by rewrite Hchain|]. split; [|split].
  - unfold bind. rewrite Hchain. cbv beta iota.
    rewrite find_all_runs. eexists _, _. split; reflexivity.
  - unfold bind. rewrite Hchain. cbv beta iota.
    rewrite find_all_runs. unfold by_node.
    rewrite filter_node_runs. reflexivity.
  - unfold bind. rewrite Hchain. cbv beta iota.
    rewrite update_runs. unfold by_node.
    rewrite filter_node_runs. reflexivity.
Qed.

(** X6: [filter_not] never validates and always conjoins a negation.
    Whatever its arguments and whatever [validate_fields] would answer,
    [filter_not] returns normally and conjoins the negation of one node with
    the filter state: of the node passed, when it is a [Q] or a combination;
    of the keyword comparisons otherwise.  A node that is itself a negation
    is not negated again: it is dropped, and the call does what the call
    without it does. *)
Theorem filter_not_conjoins_a_negation w arguments kwargs :
  (∃ q, filter_not validate_fields raw and_ arguments kwargs w =
        (Ok tt, with_self (filtered_by and_ (QNot q)) w)) ∧
  (∀ q, is_Q_or_QCombination q = true →
        filter_not validate_fields raw and_ [a_node q] kwargs w =
        (Ok tt, with_self (filtered_by and_ (QNot q)) w)) ∧
  (∀ q, filter_not validate_fields raw and_ [a_node (QNot q)] kwargs w =
        filter_not validate_fields raw and_ [] kwargs w) ∧
  filter_not validate_fields raw and_ [] kwargs w =
    (Ok tt, with_self (filtered_by and_ (QNot (Q kwargs))) w).
Proof.
  split; [|split; [|split]].
  - unfold filter_not.
    destruct arguments as [|[q|d|v] [|a rest]];
      try destruct (is_Q_or_QCombination q);
      rewrite filter_node_runs; eauto.
  - intros q Hq. unfold filter_not. rewrite Hq. apply filter_node_runs.
  - reflexivity.
  - unfold filter_not. apply filter_node_runs.
Qed.

(** X7: a [filter] call that raises changes nothing, and one that returns
    leaves a node.  [filter] raises only what [validate_fields] raised on the
    keyword comparisons, only when its arguments are not one node, and then
    the world is as it was.  When it returns, the filter state is a node,
    never empty again, and the rest of the queryset and the calls are as
    they were.  On a queryset that has a filter already, a dict passed as
    the one argument plays no part: the call does what the call without it
    does. *)
Theorem filter_raises_only_from_validation w arguments kwargs :
  (∀ e, outcome (QuerySet_filter validate_fields raw and_ arguments kwargs) w
        = Raise e →
        after (QuerySet_filter validate_fields raw and_ arguments kwargs) w
        = w ∧
        validate_fields (__klass__ (self w)) kwargs = Raise e ∧
        ∀ q, arguments ≠ [a_node q]) ∧
  (outcome (QuerySet_filter validate_fields raw and_ arguments kwargs) w
   = Ok tt →
   ∃ q, after (QuerySet_filter validate_fields raw and_ arguments kwargs) w
        = with_self (set_filters (Node q)) w) ∧
  (∀ p d, _filters (self w) = Node p →
          QuerySet_filter validate_fields raw and_ [a_dict d] kwargs w =
          QuerySet_filter validate_fields raw and_ [] kwargs w).
Proof.
  assert ((∃ q, arguments = [a_node q]) ∨ ∀ q, arguments ≠ [a_node q])
    as [[q ->]|Hnot].
  { destruct arguments as [|[q|d|v] [|a rest]]; eauto; right; congruence. }
  - unfold outcome, after. rewrite filter_node_runs. cbn.
    split; [intros e [=]|]. split.
    + intros _. unfold filtered_by, with_self. eauto.
    + intros p d Hp. unfold QuerySet_filter, bind, get_self.
      by rewrite Hp.
  - assert (QuerySet_filter validate_fields raw and_ arguments kwargs w =
            match validate_fields (__klass__ (self w)) kwargs with
            | Raise e => (Raise e, w)
            | Ok _ =>
                (Ok tt,
                 with_self (set_filters
                   (Node match _filters (self w) with
                         | Node p => and_ p (Q kwargs)
                         | EmptyDict =>
                             match arguments with
                             | [a_dict d] => raw d
                             | _ => Q kwargs
                             end
                         end)) w)
            end) as Hrun.
    { unfold QuerySet_filter, bind, get_self, set_self, with_self, raise.
      destruct arguments as [|[q|d|v] [|a rest]];
        try (by destruct (Hnot q));
        destruct (validate_fields (__klass__ (self w)) kwargs);
        destruct (_filters (self w)); reflexivity. }
    unfold outcome, after. rewrite Hrun.
    destruct (validate_fields (__klass__ (self w)) kwargs) as [[]|err]; cbn.
    + split; [intros e [=]|]. split; [eauto|].
      intros p d Hp. unfold QuerySet_filter, bind, get_self.
      by rewrite Hp.
    + split; [intros e [= <-]; by repeat split|]. split; [intros [=]|].
      intros p d Hp. unfold QuerySet_filter, bind, get_self.
      by rewrite Hp.
Qed.
End Filtering.

Lemma filter_raises_only_from_validation_witness :
  after (QuerySet_filter (λ _ _, Raise (ValueError "Invalid filter")) Q
           (QCombination true) [] [("nme", PStr "Bernardo")])
    (world (filtered BlogPost) later) = world (filtered BlogPost) later ∧
  QuerySet_filter (λ _ _, Raise (ValueError "Invalid filter")) Q
    (QCombination true) [a_dict [("name", PStr "Bernardo")]]
    [("nme", PStr "Bernardo")] (world (filtered BlogPost) later) =
  QuerySet_filter (λ _ _, Raise (ValueError "Invalid filter")) Q
    (QCombination true) [] [("nme", PStr "Bernardo")]
    (world (filtered BlogPost) later).
Proof.
  destruct (filter_raises_only_from_validation
              (λ _ _, Raise (ValueError "Invalid filter")) Q
              (QCombination true) (world (filtered BlogPost) later) []
              [("nme", PStr "Bernardo")]) as (Hraise & _ & Hdict).
  split.
  - apply (Hraise (ValueError "Invalid filter")). reflexivity.
  - apply (Hdict (Q [("name", PStr "Bernardo")])). reflexivity.
Defined.

Lemma filter_not_conjoins_a_negation_witness :
  filter_not (λ _ _, Raise (ValueError "Invalid filter")) Q (QCombination true)
    [a_node (Q [("name", PStr "Bernardo")])] []
    (world (__init__ BlogPost) later) =
  (Ok tt,
   with_self (filtered_by (QCombination true)
                (QNot (Q [("name", PStr "Bernardo")])))
     (world (__init__ BlogPost) later)).
Proof.
  destruct (filter_not_conjoins_a_negation
              (λ _ _, Raise (ValueError "Invalid filter")) Q
              (QCombination true) (world (__init__ BlogPost) later) [] [])
    as (_ & Hnode & _).
  apply Hnode. reflexivity.
Defined.

(** ** order_by, limit and skip *)






(** ** transform_definition *)

Lemma dict_get_set {A} (d : list (string * A)) k k' (v : A) :
  dict_get (dict_set d k v) k' =
  if decide (k = k') then Some v else dict_get d k'.
Proof.
  induction d as [|[k0 v0] d IH]; cbn.
  - destruct (decide (k = k')); reflexivity.
  - destruct (decide (k0 = k)) as [->|Hne]; cbn.
    + destruct (decide (k = k')); reflexivity.
    + rewrite IH. destruct (decide (k0 = k')) as [->|]; [|reflexivity].
      by rewrite decide_False.
Qed.

Lemma dict_set_keys {A} (d : list (string * A)) k (v : A) :
  fst <$> dict_set d k v = add_key (fst <$> d) k.
Proof.
  unfold add_key. induction d as [|[k0 v0] d IH]; [reflexivity|].
  cbn [fmap list_fmap dict_set fst]. destruct (decide (k0 = k)) as [->|Hne].
  - rewrite decide_True by apply list_elem_of_here. reflexivity.
  - cbn [fmap list_fmap fst]. rewrite IH.
    destruct (decide (k ∈ fst <$> d)) as [Hin|Hnin].
    + rewrite decide_True by (by apply list_elem_of_further). reflexivity.
    + rewrite decide_False; [reflexivity|].
      intros H. apply elem_of_cons in H as [->|H]; done.
Qed.

Lemma add_key_NoDup keys k : NoDup keys → NoDup (add_key keys k).
Proof.
  intros H. unfold add_key. destruct (decide (k ∈ keys)); [done|].
  apply NoDup_app. split; [done|]. split; [|apply NoDup_singleton].
  intros x Hx Hx'. apply list_elem_of_singleton in Hx'. by subst.
Qed.

Lemma transform_definition_lookup definition : ∀ result key,
  dict_get (transform_definition definition result) key =
    last_value definition key (dict_get result key) ∧
  (NoDup (fst <$> result) →
   NoDup (fst <$> transform_definition definition result)) ∧
  (∀ k, k ∈ fst <$> transform_definition definition result ↔
        k ∈ fst <$> result ∨
        ∃ entry, entry ∈ definition ∧ storage_key (fst entry) = k).
Proof.
  induction definition as [|[spec value] definition IH]; intros result key.
  - cbn. split; [done|]. split; [done|]. intros k. split; [auto|].
    intros [H|(e & He & _)]; [done|by apply elem_of_nil in He].
  - assert (transform_definition ((spec, value) :: definition) result =
            transform_definition definition
              (dict_set result (storage_key spec) value)) as ->
      by (by destruct spec).
    destruct (IH (dict_set result (storage_key spec) value) key)
      as (Hget & Hnd & Hkeys).
    split; [|split].
    + rewrite Hget, dict_get_set. reflexivity.
    + intros H. apply Hnd. rewrite dict_set_keys. by apply add_key_NoDup.
    + intros k.
      destruct (IH (dict_set result (storage_key spec) value) k)
        as (_ & _ & Hk).
      rewrite Hk, dict_set_keys. unfold add_key.
      split.
      * intros [H|(e & He & Hs)].
        -- destruct (decide (storage_key spec ∈ fst <$> result));
             [by left|].
           apply elem_of_app in H as [H|H]; [by left|].
           apply list_elem_of_singleton in H. right.
           exists (spec, value). split; [apply list_elem_of_here|done].
        -- right. exists e. split; [by apply list_elem_of_further|done].
      * intros [H|(e & He & Hs)].
        -- left. destruct (decide (storage_key spec ∈ fst <$> result));
             [done|]. apply elem_of_app. by left.
        -- apply elem_of_cons in He as [->|He].
           ++ left. cbn in Hs. subst k.
              destruct (decide (storage_key spec ∈ fst <$> result));
                [done|]. apply elem_of_app. right. apply list_elem_of_here.
           ++ right. eauto.
Qed.

(** X10: [transform_definition] files every entry of an update definition
    under its storage name, and the last entry under a name stands.  The
    result has no two entries with the same key; its keys are the storage
    names of the entries, the [db_field] of a field handle and the string
    itself of a string key; and under each key it holds the value of the
    last entry of the definition filed there, so that a handle and a string
    that name the same storage field make one entry.  This is the [$set]
    document [update] sends. *)
Theorem transform_definition_last_entry_stands definition :
  NoDup (fst <$> transform_definition definition []) ∧
  (∀ key, dict_get (transform_definition definition []) key =
          last_value definition key None) ∧
  (∀ key, key ∈ fst <$> transform_definition definition [] ↔
          ∃ entry, entry ∈ definition ∧ storage_key (fst entry) = key) ∧
  (∀ w callback alias,
     ∃ c spec, calls (after (update definition (Some callback) alias) w) =
               calls w ++ [update_multi c spec
                             (transform_definition definition [])
                             (handle_update_documents callback)]).
Proof.
  split; [|split; [|split]].
  - apply (transform_definition_lookup definition [] ""). apply NoDup_nil_2.
  - intros key. apply (transform_definition_lookup definition [] key).
  - intros key.
    destruct (transform_definition_lookup definition [] key) as (_ & _ & H).
    rewrite H. split; [|by right]. intros [H'|H']; [|done].
    by apply elem_of_nil in H'.
  - intros w callback alias. unfold after. rewrite update_runs.
    eexists _, _. reflexivity.
Qed.

(** ** The store answers *)

Lemma answer_issued c qs w arguments :
  answer (length (calls w)) arguments (issued c qs w) =
  Some (invoke (callback_of c) arguments (answered_last c qs w)).
Proof.
  unfold answer, issued. cbn.
  rewrite decide_True by (apply elem_of_app; right; apply list_elem_of_here).
  rewrite lookup_app_r by lia. rewrite Nat.sub_diag. reflexivity.
Qed.



(** X12: what [get] delivers.  When the store answers the [find_one] of [get]
    with no record, the continuation is invoked once with [None] and no
    further call is made.  When it answers with a record and the class is
    lazy, the continuation is invoked once with the document made of the
    record, partly loaded exactly when the loaded fields of the queryset are
    not empty.  When the class is not lazy, nothing is delivered yet: one
    [load_references] call is made for the document, and when that calls
    back with a result the document is delivered, once; when it calls back
    with no argument at all, [None] is. *)
Theorem get_delivers w id k alias kwargs c :
  get id (caller k) alias kwargs w = (Ok tt, issued c (self w) w) →
  let w1 := issued c (self w) w in
  let i := length (calls w) in
  (∃ w2, answer i [AVal PNone] w1 = Some (Ok tt, w2) ∧
         called w2 = called w ++ [(k, [AVal PNone])] ∧
         calls w2 = calls w1) ∧
  (∀ record,
     let doc := materialized (self w) record in
     is_partly_loaded doc = QueryFieldList_bool (_loaded_fields (self w)) ∧
     (__lazy__ (__klass__ (self w)) = true →
      ∃ w2, answer i [ARecord record] w1 = Some (Ok tt, w2) ∧
            called w2 = called w ++ [(k, [ADoc doc])] ∧
            calls w2 = calls w1) ∧
     (__lazy__ (__klass__ (self w)) = false →
      answers_at_once w doc = None →
      ∃ w2, answer i [ARecord record] w1 = Some (Ok tt, w2) ∧
            called w2 = called w ∧
            calls w2 = calls w1 ++
                       [load_references doc None
                          (handle_auto_load_references doc (caller k))] ∧
            (∀ a rest, ∃ w3,
               answer (S i) (a :: rest) w2 = Some (Ok tt, w3) ∧
               called w3 = called w ++ [(k, [ADoc doc])]) ∧
            (∃ w3, answer (S i) [] w2 = Some (Ok tt, w3) ∧
                   called w3 = called w ++ [(k, [AVal PNone])]))).
Proof.
  intros Hget w1 i.
  assert (callback_of c = handle_get (caller k)) as Hc.
  { revert Hget. unfold get, bind, get_self, coll, issue, ret, raise, issued.
    destruct id as [[]|], kwargs; cbn; intros [= H];
      apply app_inv_head in H; by inversion H. }
  subst w1 i. split.
  - rewrite answer_issued, Hc. eexists. split; [reflexivity|]. by split.
  - intros record doc. split; [reflexivity|]. split.
    + intros Hlazy. rewrite answer_issued, Hc. cbn [invoke].
      unfold bind, first_argument, ret, get_self. cbn.
      rewrite Hlazy. eexists. split; [reflexivity|]. by split.
    + intros Hlazy Hlater. rewrite answer_issued, Hc. cbn [invoke].
      unfold bind, first_argument, ret, get_self, at_once. cbn.
      rewrite Hlazy. fold (materialized (self w) record). fold doc.
      change (answers_at_once (answered_last c (self w) w) doc)
        with (answers_at_once w doc).
      rewrite Hlater. unfold issue. eexists. split; [reflexivity|]. cbn.
      split; [done|]. split; [done|]. split.
      * intros a rest. unfold answer. cbn.
        rewrite decide_True.
        2:{ apply elem_of_app. right. rewrite length_app. cbn.
            replace (length (calls w) + 1)%nat with (S (length (calls w)))
              by lia. apply list_elem_of_here. }
        rewrite lookup_app_r by (rewrite length_app; cbn; lia).
        rewrite length_app. cbn.
        replace (S (length (calls w)) - (length (calls w) + 1))%nat
          with 0%nat by lia. cbn.
        eexists. split; reflexivity.
      * unfold answer. cbn.
        rewrite decide_True.
        2:{ apply elem_of_app. right. rewrite length_app. cbn.
            replace (length (calls w) + 1)%nat with (S (length (calls w)))
              by lia. apply list_elem_of_here. }
        rewrite lookup_app_r by (rewrite length_app; cbn; lia).
        rewrite length_app. cbn.
        replace (S (length (calls w)) - (length (calls w) + 1))%nat
          with 0%nat by lia. cbn.
        eexists. split; reflexivity.
Qed.

Lemma get_delivers_witness :
  ∃ w2, answer 0 [AVal PNone]
          (issued (find_one (target (__init__ Comment) None)
                     (by_id (PObjectId "a1"))
                     (loaded_to_query (_loaded_fields (__init__ Comment))
                        "Comment")
                     (handle_get (caller 7%nat)))
             (__init__ Comment) (world (__init__ Comment) later)) =
        Some (Ok tt, w2) ∧
        called w2 = [(7%nat, [AVal PNone])].
Proof.
  destruct (get_delivers (world (__init__ Comment) later)
              (Some (PObjectId "a1")) 7%nat None []
              (find_one (target (__init__ Comment) None)
                 (by_id (PObjectId "a1"))
                 (loaded_to_query (_loaded_fields (__init__ Comment))
                    "Comment")
                 (handle_get (caller 7%nat))) eq_refl)
    as [(w2 & H1 & H2 & _) _].
  exists w2. split; [exact H1|exact H2].
Defined.


(** X14: [remove] and [delete] from the call to the continuation.  For an
    instance with a true identity [remove] makes one remove by that identity;
    for no instance, and so for [delete], one remove of the documents the
    filters match, or of all when there are no filters.  When the store
    answers with a write result, the continuation is invoked once with the
    number of documents removed.  When the store reports an error, with no
    result, the handler does not look at it: the error is not raised, a
    [TypeError] on the missing result is, and the continuation is not
    invoked. *)
Theorem remove_round_trip w instance k alias :
  (∀ d, instance = Some d → ∃ id, _id d = Some id ∧ truthy id = true) →
  let request := remove_call (self w) alias (caller k) instance in
  remove instance (Some (caller k)) alias w =
    (Ok tt, issued request (self w) w) ∧
  (instance = None →
   delete (Some (caller k)) alias w = (Ok tt, issued request (self w) w)) ∧
  (∀ n u, ∃ w2,
     answer (length (calls w)) [AWrite n u] (issued request (self w) w) =
       Some (Ok tt, w2) ∧
     called w2 = called w ++ [(k, [AVal (PInt n)])]) ∧
  (∀ e, ∃ w2,
     answer (length (calls w)) [AVal PNone; AErr e]
       (issued request (self w) w) =
       Some (Raise (TypeError "object is not subscriptable"), w2) ∧
     called w2 = called w).
Proof.
  intros Hid request.
  assert (remove instance (Some (caller k)) alias w =
          (Ok tt, issued request (self w) w)) as Hrun.
  { subst request. destruct instance as [d|].
    - destruct (Hid d eq_refl) as (id & Hd & Ht).
      run_method. rewrite Hd, Ht. reflexivity.
    - rewrite remove_filtered_runs. unfold remove_call.
      destruct (_filters (self w)); reflexivity. }
  assert (callback_of request = handle_remove (caller k)) as Hc.
  { subst request. unfold remove_call. destruct instance; [reflexivity|].
    destruct (_filters (self w)); reflexivity. }
  split; [exact Hrun|]. split; [intros ->; exact Hrun|]. split.
  - intros n u. rewrite answer_issued, Hc. eexists. split; reflexivity.
  - intros e. rewrite answer_issued, Hc. eexists. split; reflexivity.
Qed.

Lemma remove_round_trip_witness :
  remove (Some saved_post) (Some (caller 1%nat)) None
    (world (__init__ BlogPost) later) =
  (Ok tt,
   issued (remove_call (__init__ BlogPost) None (caller 1%nat)
             (Some saved_post))
     (__init__ BlogPost) (world (__init__ BlogPost) later)).
Proof.
  apply (remove_round_trip (world (__init__ BlogPost) later) (Some saved_post)
           1%nat None).
  intros d [= <-]. exists (PObjectId "5f1d7f3e"). split; reflexivity.
Defined.

(** X15: [count] from the call to the continuation.  [count] asks for the
    count of the very cursor [find_all] would drain on the same queryset:
    the compiled filters, and also the projection, the sort order, the limit
    and the skip.  When the store answers with a number the continuation is
    invoked once with it; when it reports an error, the error is raised and
    the continuation is not invoked. *)
Theorem count_round_trip w k lazy alias :
  let request :=
    count_documents (target (self w) alias) (cursor_of (self w))
      (handle_count (caller k)) in
  count (caller k) alias w =
    (Ok tt, issued request (without_filters (self w)) w) ∧
  (∃ length,
     calls (after (find_all (caller k) lazy alias) w) =
     calls w ++ [to_list (target (self w) alias) (cursor_of (self w)) length
                   (handle_find_all (caller k) lazy)]) ∧
  (∀ n, ∃ w2,
     answer (length (calls w)) [n]
       (issued request (without_filters (self w)) w) = Some (Ok tt, w2) ∧
     called w2 = called w ++ [(k, [n])]) ∧
  (∀ r e, ∃ w2,
     answer (length (calls w)) [r; AErr e]
       (issued request (without_filters (self w)) w) = Some (Raise e, w2) ∧
     called w2 = called w).
Proof.
  intros request. split; [apply count_runs|]. split; [|split].
  - unfold after. rewrite find_all_runs. eexists. reflexivity.
  - intros n. rewrite answer_issued. eexists. split; reflexivity.
  - intros r e. rewrite answer_issued. eexists. split; reflexivity.
Qed.

Lemma well_formed_answered_last c qs w :
  well_formed w → well_formed (answered_last c qs w).
Proof.
  intros [Hnd Hlt]. split; cbn.
  - apply NoDup_filter, NoDup_app. split; [exact Hnd|]. split.
    + intros i Hi Hi'. apply list_elem_of_singleton in Hi'.
      specialize (Hlt i Hi). lia.
    + apply NoDup_singleton.
  - intros i Hi. apply list_elem_of_filter in Hi as [Hne Hi].
    rewrite length_app. cbn. apply elem_of_app in Hi as [Hi|Hi].
    + specialize (Hlt i Hi). lia.
    + apply list_elem_of_singleton in Hi. done.
Qed.

Lemma waiting_answered_last c qs w i :
  well_formed w → i ∈ waiting (answered_last c qs w) →
  (i < length (calls w))%nat.
Proof.
  intros [_ Hlt] Hi. cbn in Hi. apply list_elem_of_filter in Hi as [Hne Hi].
  apply elem_of_app in Hi as [Hi|Hi]; [by apply Hlt|].
  apply list_elem_of_singleton in Hi. done.
Qed.

Lemma no_loads_when_lazy qs lazy records :
  __lazy__ (__klass__ qs) = true → lazy ≠ Some false →
  filter (λ doc, loads_references lazy doc = true)
    (materialized qs <$> records) = [].
Proof.
  intros Hlazy Hnot. induction records as [|r rs IH]; [reflexivity|].
  cbn [fmap list_fmap]. rewrite filter_cons_False; [exact IH|].
  unfold loads_references, materialized. cbn. rewrite Hlazy.
  destruct lazy as [[]|]; cbn; congruence.
Qed.

(** X16: what [find_all] delivers when no reference is to be loaded.  On a
    queryset with no call of its own outstanding, when the store answers the
    drain of [find_all] with the records of a batch, and the batch is empty,
    or the class is lazy and [lazy] was not passed as false, the
    continuation is invoked exactly once, within that callback, with the
    documents made of the records in their order (the empty list for an
    empty batch); each is partly loaded exactly when the loaded fields of
    the queryset are not empty; and no [load_references] call is made. *)
Theorem find_all_delivers_without_loading w k lazy alias records :
  well_formed w →
  (records = [] ∨
   (__lazy__ (__klass__ (self w)) = true ∧ lazy ≠ Some false)) →
  ∃ w2,
    answer (length (calls w)) [ARecords records]
      (after (find_all (caller k) lazy alias) w) = Some (Ok tt, w2) ∧
    called w2 =
      called w ++ [(k, [ADocs (materialized (self w) <$> records)])] ∧
    calls w2 = calls (after (find_all (caller k) lazy alias) w) ∧
    Forall (λ doc, is_partly_loaded doc =
                   QueryFieldList_bool (_loaded_fields (self w)))
      (materialized (self w) <$> records).
Proof.
  intros Hwf Hcase. unfold after. rewrite find_all_runs. cbn [snd].
  rewrite answer_issued. cbn [callback_of]. rewrite handle_find_all_runs.
  set (c := to_list _ _ _ _).
  set (w1 := answered_last c (without_filters (self w)) w).
  change (from_son (__klass__ (self w1)))
    with (from_son (__klass__ (self w))).
  change (λ doc : Son, from_son (__klass__ (self w)) doc
            (QueryFieldList_bool (_loaded_fields (self w1)))
            (_reference_loaded_fields (self w1)))
    with (materialized (self w)).
  set (result := materialized (self w) <$> records).
  assert (Forall (λ doc, is_partly_loaded doc =
                         QueryFieldList_bool (_loaded_fields (self w))) result)
    as Hpartly.
  { apply Forall_fmap, Forall_forall. by intros. }
  destruct result as [|doc0 rest] eqn:Eres.
  - eexists. split; [reflexivity|]. by repeat split.
  - destruct Hcase as [->|[Hlazy Hnot]]; [discriminate|].
    unfold find_all_deliver. cbv iota. rewrite <- Eres in *.
    assert (find_all_resolve (invoke (caller k)) (caller k) lazy result result
            = find_all_resolve (deliver k) (caller k) lazy result result)
      as -> by reflexivity.
    match goal with |- context [find_all_resolve _ _ _ _ _ ?w0] =>
      set (ws := w0) end.
    assert (well_formed ws) as Hwfs
      by (apply (well_formed_answered_last c (without_filters (self w)) w Hwf)).
    assert (∀ i, i ∈ waiting ws → (i < length (calls w))%nat) as Hbelow
      by (intros i Hi;
          by apply (waiting_answered_last c (without_filters (self w)) w)).
    assert (waiting_from (length (calls ws)) ws = []) as Hnone.
    { apply filter_all_below. intros i Hi. specialize (Hbelow i Hi).
      cbn. rewrite length_app. cbn. lia. }
    destruct (resolve_loop k (length (calls ws)) lazy result (called w)
                result ws) as (w2 & Hrun & Hwf2 & _ & Hc2 & Ho2 & _).
    + exact Hwfs.
    + lia.
    + intros i Hi Hb. specialize (Hbelow i Hi). cbn in Hb.
      rewrite length_app in Hb. cbn in Hb. lia.
    + rewrite Hnone, Nat.add_0_r.
      assert (length result = S (length rest)) as Hlen by (by rewrite Eres).
      rewrite Hlen. unfold outstanding. rewrite Hlen.
      split; [|split; [|reflexivity]].
      * change (current_count (self ws)) with (Val 0). f_equal. lia.
      * change (result_size (self ws))
          with (Val (Z.of_nat (length records))).
        rewrite <- Hlen. unfold result. by rewrite length_fmap.
    + assert (filter (λ doc, loads_references lazy doc = true) result = [])
        as Hno by (by apply no_loads_when_lazy).
      rewrite Hno, app_nil_r in Hc2.
      assert (waiting_from (length (calls ws)) w2 = []) as Hnone2.
      { apply filter_all_below. intros i Hi. rewrite <- Hc2.
        by apply Hwf2. }
      rewrite Hnone2 in Ho2. cbn in Ho2.
      exists w2. rewrite Hrun. split; [reflexivity|].
      split; [exact Ho2|]. split; [exact Hc2|exact Hpartly].
Qed.

Lemma find_all_delivers_without_loading_witness :
  ∃ w2,
    answer 0 [ARecords [[("text", PStr "first")]; [("text", PStr "second")]]]
      (after (find_all (caller 2%nat) None None) (world (__init__ Comment) later))
      = Some (Ok tt, w2) ∧
    called w2 =
      [(2%nat, [ADocs (materialized (__init__ Comment) <$>
                         [[("text", PStr "first")];
                          [("text", PStr "second")]])])].
Proof.
  destruct (find_all_delivers_without_loading
              (world (__init__ Comment) later) 2%nat None None
              [[("text", PStr "first")]; [("text", PStr "second")]])
    as (w2 & H1 & H2 & _).
  - split; [apply NoDup_nil_2|]. intros i Hi. by apply elem_of_nil in Hi.
  - right. split; [reflexivity|discriminate].
  - exists w2. split; [exact H1|exact H2].
Defined.

(** ** save *)

Lemma hooks_keep_identity fields document creating :
  _id (update_field_on_save_values fields document creating) = _id document ∧
  doc_klass (update_field_on_save_values fields document creating) =
    doc_klass document ∧
  is_partly_loaded (update_field_on_save_values fields document creating) =
    is_partly_loaded document.
Proof.
  revert document. induction fields as [|[field_name field] rest IH];
    intros document; cbn; [done|].
  destruct (on_save field) as [hook|]; [|apply IH].
  destruct (IH (setattr document field_name (PCall hook creating)))
    as (-> & -> & ->). done.
Qed.

Lemma indexes_saved_runs document callback alias id arguments w :
  _id document = Some id →
  invoke (indexes_saved_before_save document callback alias) arguments w =
  (Ok tt, issued (save_write (self w) alias callback document) (self w) w).
Proof.
  intros Hid. cbn [invoke].
  unfold bind, get_self, id_is_not_None, coll, ret, issue, save_write, issued,
    target.
  assert (∀ c, _id (update_field_on_save_values
                      (_fields (__klass__ (self w))) document c) = Some id)
    as Hk.
  { intros c. by destruct (hooks_keep_identity (_fields (__klass__ (self w)))
                             document c) as (-> & _ & _). }
  rewrite Hid.
  destruct id; cbn; rewrite Hk; reflexivity.
Qed.

Lemma ensure_index_issues w callback alias :
  ensure_index callback alias w =
  match indexed_fields (__klass__ (self w)) with
  | [] => invoke callback [AVal (PInt 0)]
  | _ => ret tt
  end
    {| self := self w;
       calls := calls w ++
                (ensure_call (self w) alias callback (fresh (dom (lists w)))
                   <$> indexed_fields (__klass__ (self w)));
       waiting := waiting w ++
                  seq (length (calls w))
                    (length (indexed_fields (__klass__ (self w))));
       called := called w;
       lists := <[fresh (dom (lists w)) := []]> (lists w);
       answers_at_once := answers_at_once w |}.
Proof.
  unfold ensure_index. unfold bind at 1. unfold get_self.
  unfold bind at 1. unfold new_list.
  unfold bind at 1.
  rewrite (issue_each _
    (λ c field, ensure_index_on c (db_field field) (unique field)
                  (sparse field)
                  (handle_ensure_index callback (fresh (dom (lists w)))
                     (length (filter (λ field, unique field || sparse field = true)
                                (snd <$> _fields (__klass__ (self w)))))))).
  cbn. fold (indexed_fields (__klass__ (self w))). unfold ensure_call.
  destruct (indexed_fields (__klass__ (self w))) as [|f fs] eqn:E; reflexivity.
Qed.

Lemma succeeds_reply arguments : succeeds arguments = true → reply arguments = Ok tt.
Proof.
  unfold succeeds, reply. destruct arguments as [|a rest]; [discriminate|].
  destruct (reported_error (a :: rest)); [discriminate|done].
Qed.

Lemma fails_reply arguments callback cell total w :
  succeeds arguments = false →
  invoke (handle_ensure_index callback cell total) arguments w =
  (reply arguments, w).
Proof.
  unfold succeeds, reply. intros H. cbn [invoke].
  destruct arguments as [|a rest]; [reflexivity|].
  destruct (reported_error (a :: rest)) as [e|]; [|discriminate].
  destruct e; reflexivity.
Qed.

(** The callback of an index-ensure call, whatever callback it hands on to. *)
Lemma handle_ensure_index_any callback cell total arguments w :
  succeeds arguments = true →
  invoke (handle_ensure_index callback cell total) arguments w =
  (if (created cell w + 1 <? total)%nat then ret tt
   else invoke callback [AVal (PInt (Z.of_nat total))])
    {| self := self w; calls := calls w; waiting := waiting w;
       called := called w;
       lists := <[cell := default [] (lists w !! cell) ++
                          [default (AVal PNone) (head arguments)]]> (lists w);
       answers_at_once := answers_at_once w |}.
Proof.
  unfold succeeds. intros H. destruct arguments as [|a rest]; [discriminate|].
  destruct (reported_error (a :: rest)) eqn:E; [discriminate|].
  cbn [invoke]. rewrite E.
  unfold bind, first_argument, list_append, list_len, ret, created.
  cbn -[Nat.ltb].
  rewrite lookup_insert_eq. cbn -[Nat.ltb]. rewrite length_app.
  cbn -[Nat.ltb]. destruct (Nat.ltb _ total); reflexivity.
Qed.

Lemma filter_answered_shorter (P : nat → Prop) `{∀ i, Decision (P i)} i
    (l : list nat) :
  i ∈ l → P i →
  (length (filter P (filter (λ j, j ≠ i) l)) < length (filter P l))%nat.
Proof.
  intros Hin Hb.
  replace (filter P (filter (λ j, j ≠ i) l))
    with (filter (λ j, j ≠ i) (filter P l)).
  2:{ rewrite !list_filter_filter. apply list_filter_iff. tauto. }
  apply (length_filter_lt _ _ i).
  - apply list_elem_of_filter. by split.
  - intros H'. by apply H'.
Qed.

Section SaveCallbacks.
Variables (base total cell : nat) (callback : Closure) (write : Call).
Variable qs : QuerySet.
Hypothesis callback_writes : ∀ arguments w,
  self w = qs → invoke callback arguments w = (Ok tt, issued write qs w).

Lemma answer_save i arguments w :
  self w = qs →
  awaits_in base total (handle_ensure_index callback cell total) w →
  i ∈ waiting w → (base ≤ i < base + total)%nat →
  ∃ w1,
    answer i arguments w = Some (reply arguments, w1) ∧
    self w1 = qs ∧
    created cell w1 =
      (created cell w + if succeeds arguments then 1 else 0)%nat ∧
    called w1 = called w ∧
    calls w1 =
      calls w ++
      (if succeeds arguments && negb (created cell w + 1 <? total)%nat
       then [write] else []) ∧
    waiting w1 =
      filter (λ j, j ≠ i) (waiting w) ++
      (if succeeds arguments && negb (created cell w + 1 <? total)%nat
       then [length (calls w)] else []).
Proof.
  intros Hs Haw Hin Hb. destruct (Haw i Hin Hb) as (c & Hc & Hh).
  unfold answer. rewrite decide_True by done. rewrite Hc, Hh.
  destruct (succeeds arguments) eqn:Es.
  - rewrite (handle_ensure_index_any _ _ _ _ _ Es).
    rewrite (succeeds_reply _ Es).
    change (created cell {| self := self w; calls := calls w;
                            waiting := filter (λ j, j ≠ i) (waiting w);
                            called := called w; lists := lists w;
                            answers_at_once := answers_at_once w |})
      with (created cell w).
    destruct (Nat.ltb_spec (created cell w + 1) total); cbn -[Nat.ltb].
    + eexists. split; [reflexivity|]. unfold created. cbn.
      rewrite lookup_insert_eq. cbn. rewrite length_app, !app_nil_r. cbn.
      by repeat split.
    + rewrite callback_writes by exact Hs.
      eexists. split; [reflexivity|]. unfold created. cbn.
      rewrite lookup_insert_eq. cbn. rewrite length_app. cbn.
      by repeat split.
  - rewrite (fails_reply _ _ _ _ _ Es). eexists. split; [reflexivity|].
    cbn. rewrite !app_nil_r, Nat.add_0_r. by repeat split.
Qed.

Lemma play_save events : ∀ w rs w',
  self w = qs →
  awaits_in base total (handle_ensure_index callback cell total) w →
  Forall (λ e, base ≤ fst e < base + total)%nat events →
  (created cell w + length (waiting_in base total w) ≤ total)%nat →
  (base + total ≤ length (calls w))%nat →
  play events w = Some (rs, w') →
  rs = (λ e, reply (snd e)) <$> events ∧
  self w' = qs ∧ called w' = called w ∧
  created cell w' = (created cell w + successes events)%nat ∧
  (created cell w' + length (waiting_in base total w') ≤ total)%nat ∧
  calls w' =
    calls w ++
    (if decide (created cell w < total ∧ created cell w' = total)%nat
     then [write] else []) ∧
  waiting w' =
    filter (λ j, j ∉ (fst <$> events)) (waiting w) ++
    (if decide (created cell w < total ∧ created cell w' = total)%nat
     then [length (calls w)] else []).
Proof.
  induction events as [|[i arguments] events IH];
    intros w rs w' Hs Haw Hrange Hbound Hcalls Hplay.
  - cbn in Hplay. inversion Hplay; subst rs w'. cbn [fmap list_fmap].
    rewrite filter_not_in_nil. unfold successes. cbn [filter list_filter length].
    rewrite Nat.add_0_r. rewrite !decide_False by lia.
    rewrite !app_nil_r. by repeat split.
  - cbn in Hplay. apply Forall_cons in Hrange as [Hb Hrange]. cbn in Hb.
    destruct (decide (i ∈ waiting w)) as [Hin|Hnin].
    2:{ unfold answer in Hplay. rewrite decide_False in Hplay by done.
        discriminate. }
    destruct (answer_save i arguments w Hs Haw Hin Hb)
      as (w1 & Ha & Hs1 & Hn1 & Hd1 & Hc1 & Hw1).
    rewrite Ha in Hplay.
    destruct (play events w1) as [[rs1 w2]|] eqn:Hp; [|discriminate].
    inversion Hplay; subst rs w'. clear Hplay.
    set (fire := succeeds arguments && negb (created cell w + 1 <? total)%nat)
      in *.
    assert (waiting_in base total w1 =
            filter (λ j, base ≤ j < base + total)%nat
              (filter (λ j, j ≠ i) (waiting w))) as Hin1.
    { unfold waiting_in. rewrite Hw1, filter_app.
      destruct fire; [|by rewrite app_nil_r].
      rewrite filter_cons_False by lia. by rewrite app_nil_r. }
    assert (length (waiting_in base total w1) <
            length (waiting_in base total w))%nat as Hless.
    { rewrite Hin1. unfold waiting_in.
      by apply (filter_answered_shorter (λ j, base ≤ j < base + total)%nat). }
    assert (awaits_in base total (handle_ensure_index callback cell total) w1)
      as Haw1.
    { intros j Hj Hbj. rewrite Hw1 in Hj.
      apply elem_of_app in Hj as [Hj|Hj].
      - apply list_elem_of_filter in Hj as [_ Hj].
        destruct (Haw j Hj Hbj) as (c & Hc & Hh). exists c. split; [|done].
        rewrite Hc1. rewrite lookup_app_l; [done|].
        by apply lookup_lt_Some in Hc.
      - destruct fire; [|by apply elem_of_nil in Hj].
        apply list_elem_of_singleton in Hj. lia. }
    assert (created cell w1 + length (waiting_in base total w1) ≤ total)%nat
      as Hbound1.
    { rewrite Hn1. destruct (succeeds arguments); lia. }
    assert (base + total ≤ length (calls w1))%nat as Hcalls1.
    { rewrite Hc1, length_app. lia. }
    destruct (IH w1 rs1 w2 Hs1 Haw1 Hrange Hbound1 Hcalls1 Hp)
      as (Hrs & Hs2 & Hd2 & Hn2 & Hb2 & Hc2 & Hw2).
    assert (successes ((i, arguments) :: events) =
            ((if succeeds arguments then 1 else 0) + successes events)%nat)
      as Hsucc.
    { unfold successes. destruct (succeeds arguments) eqn:Es.
      - rewrite filter_cons_True by exact Es. reflexivity.
      - rewrite filter_cons_False; [reflexivity|]. cbn. congruence. }
    assert (length (calls w) ∉ fst <$> events) as Hfresh.
    { intros Hel. apply list_elem_of_fmap in Hel as (e & He & Hel).
      rewrite Forall_forall in Hrange. specialize (Hrange e Hel). lia. }
    split; [cbn; by rewrite Hrs|]. split; [exact Hs2|].
    split; [congruence|]. split; [rewrite Hn2, Hn1, Hsucc; lia|].
    split; [exact Hb2|].
    rewrite Hc2, Hw2, Hc1, Hw1, filter_app, <- !app_assoc.
    rewrite filter_not_in_cons. cbn [fmap list_fmap fst].
    subst fire.
    destruct (succeeds arguments);
      destruct (Nat.ltb_spec (created cell w + 1) total);
      cbn [andb negb] in *;
      destruct (decide (created cell w1 < total ∧ created cell w2 = total)%nat);
      destruct (decide (created cell w < total ∧ created cell w2 = total)%nat);
      try lia;
      rewrite ?app_nil_r, ?filter_nil, ?app_nil_r;
      try (split; reflexivity).
    rewrite filter_cons_True by exact Hfresh.
    rewrite filter_nil. split; reflexivity.
Qed.
End SaveCallbacks.

Lemma save_runs w document callback alias :
  savable (self w) document →
  save document callback alias w =
  ensure_index (indexes_saved_before_save document callback alias) alias w.
Proof.
  intros (Hp & Hn & Hv & _). unfold save, validate_document.
  rewrite Hp. unfold bind at 1. unfold bind at 1. unfold get_self.
  rewrite decide_True by exact Hn. rewrite Hv. reflexivity.
Qed.

(** [save] and the callbacks of its index-ensure calls, whatever their
    order. *)
Lemma save_pipeline w document callback alias events rs w' :
  well_formed w → savable (self w) document →
  Forall (λ e, length (calls w) ≤ fst e <
               length (calls w) +
               length (indexed_fields (__klass__ (self w))))%nat events →
  play events (after (save document callback alias) w) = Some (rs, w') →
  outcome (save document callback alias) w = Ok tt ∧
  calls (after (save document callback alias) w) =
    calls w ++ save_ensures w alias callback document ++
    (if decide (length (indexed_fields (__klass__ (self w))) = 0%nat)
     then [save_write (self w) alias callback document] else []) ∧
  called (after (save document callback alias) w) = called w ∧
  rs = (λ e, reply (snd e)) <$> events ∧
  self w' = self w ∧ called w' = called w ∧
  calls w' =
    calls w ++ save_ensures w alias callback document ++
    (if decide (successes events =
                length (indexed_fields (__klass__ (self w))))
     then [save_write (self w) alias callback document] else []) ∧
  (successes events = length (indexed_fields (__klass__ (self w))) →
   (length (calls w) + length (indexed_fields (__klass__ (self w))))%nat
     ∈ waiting w').
Proof.
  intros Hwf Hsav Hrange Hplay.
  destruct Hsav as (Hp & Hn & Hv & [id Hid]).
  assert (savable (self w) document) as Hsav by (repeat split; eauto).
  unfold outcome, after in *. rewrite (save_runs _ _ _ _ Hsav) in *.
  rewrite ensure_index_issues in *. fold (save_ensures w alias callback document) in *.
  set (total := length (indexed_fields (__klass__ (self w)))) in *.
  set (cb := indexes_saved_before_save document callback alias) in *.
  set (W := save_write (self w) alias callback document).
  assert (∀ arguments w0, self w0 = self w →
            invoke cb arguments w0 = (Ok tt, issued W (self w) w0)) as Hcb.
  { intros arguments w0 Hs. unfold cb, W.
    rewrite (indexes_saved_runs _ _ _ id) by exact Hid. by rewrite Hs. }
  assert (length (save_ensures w alias callback document) = total) as Hlen.
  { unfold save_ensures. by rewrite length_fmap. }
  destruct (decide (total = 0%nat)) as [Ht|Ht].
  - assert (indexed_fields (__klass__ (self w)) = []) as Ei
      by (by apply length_zero_iff_nil).
    rewrite Ht in *. rewrite Ei in Hplay |- *.
    rewrite Hcb in * by reflexivity. cbn [fst snd] in *.
    destruct events as [|[i a] events].
    2:{ apply Forall_cons in Hrange as [Hb _]. cbn in Hb. lia. }
    cbn in Hplay. inversion Hplay; subst rs w'. clear Hplay.
    unfold successes. cbn [filter list_filter length].
    rewrite !decide_True by done. unfold issued. cbn.
    unfold save_ensures. rewrite Ei. cbn. rewrite !app_nil_r.
    split; [done|]. split; [done|]. split; [done|]. split; [done|].
    split; [done|]. split; [done|]. split; [done|]. intros _.
    rewrite Nat.add_0_r. apply elem_of_app. right. apply list_elem_of_here.
  - assert (match indexed_fields (__klass__ (self w)) with
            | [] => invoke cb [AVal (PInt 0)]
            | _ :: _ => ret tt
            end = ret tt) as Hret.
    { unfold total in Ht.
      by destruct (indexed_fields (__klass__ (self w))). }
    rewrite Hret in *. unfold ret in *. cbn [fst snd] in *.
    match type of Hplay with play events ?w0 = _ => set (w1 := w0) in * end.
    destruct (play_save (length (calls w)) total (fresh (dom (lists w))) cb W
                (self w) Hcb events w1 rs w')
      as (Hrs & Hs2 & Hd2 & Hn2 & Hb2 & Hc2 & Hw2).
    + reflexivity.
    + intros i Hi Hb. cbn in Hi. apply elem_of_app in Hi as [Hi|Hi].
      { destruct Hwf as [_ Hlt]. specialize (Hlt i Hi). lia. }
      cbn. rewrite lookup_app_r by lia. unfold save_ensures.
      rewrite list_lookup_fmap.
      destruct (lookup_lt_is_Some_2 (indexed_fields (__klass__ (self w)))
                  (i - length (calls w))) as [field Hf]; [fold total; lia|].
      rewrite Hf. cbn. eexists. split; [reflexivity|]. reflexivity.
    + exact Hrange.
    + unfold created, waiting_in. cbn. rewrite lookup_insert_eq. cbn.
      rewrite filter_app, length_app.
      rewrite (proj2 (length_zero_iff_nil (filter _ (waiting w)))).
      2:{ destruct Hwf as [_ Hlt]. clear -Hlt.
          induction (waiting w) as [|x l IH]; [reflexivity|].
          rewrite filter_cons_False.
          - apply IH. intros i Hi. apply Hlt. by apply list_elem_of_further.
          - specialize (Hlt x (list_elem_of_here _ _)). lia. }
      pose proof (length_filter (λ i, length (calls w) ≤ i <
                                     length (calls w) + total)%nat
                    (seq (length (calls w)) total)) as Hle.
      rewrite length_seq in Hle. lia.
    + cbn. rewrite length_app, Hlen. lia.
    + exact Hplay.
    + assert (created (fresh (dom (lists w))) w1 = 0%nat) as Hzero.
      { unfold created. cbn. by rewrite lookup_insert_eq. }
      rewrite Hzero in *. cbn [Nat.add] in *.
      rewrite ?app_nil_r.
      split; [done|]. split; [done|]. split; [done|]. split; [exact Hrs|].
      split; [exact Hs2|]. split; [exact Hd2|]. split.
      * rewrite Hc2. cbn. rewrite <- app_assoc. f_equal. f_equal.
        apply decide_ext. lia.
      * intros Hall. rewrite Hw2. apply elem_of_app. right.
        rewrite decide_True by lia. cbn. rewrite length_app, Hlen.
        apply list_elem_of_here.
Qed.

(** X17: [save] refuses before any call.  A partly loaded document makes [save]
    raise [PartlyLoadedDocumentError], before its class is looked at; a
    fully loaded document of another class makes it raise [ValueError]; what
    [validate()] raises is raised; and when [validate()] answers false,
    [save] returns normally.  In each of the four cases the world is as it
    was: no index is ensured, nothing is written, and the continuation is
    never invoked. *)
Theorem save_refuses_before_any_call w document callback alias :
  (is_partly_loaded document = true →
   ∃ msg, save document callback alias w =
          (Raise (PartlyLoadedDocumentError msg), w)) ∧
  (is_partly_loaded document = false →
   __name__ (doc_klass document) ≠ __name__ (__klass__ (self w)) →
   ∃ msg, save document callback alias w = (Raise (ValueError msg), w)) ∧
  (is_partly_loaded document = false →
   __name__ (doc_klass document) = __name__ (__klass__ (self w)) →
   (∀ e, validate document = Raise e →
         save document callback alias w = (Raise e, w)) ∧
   (validate document = Ok false →
    save document callback alias w = (Ok tt, w))).
Proof.
  unfold save, validate_document. split; [|split].
  - intros ->. eexists. reflexivity.
  - intros -> Hne. unfold bind, get_self. rewrite decide_False by exact Hne.
    eexists. reflexivity.
  - intros -> He. unfold bind, get_self. rewrite decide_True by exact He.
    split; [intros e ->|intros ->]; reflexivity.
Qed.

Lemma save_refuses_before_any_call_witness :
  ∃ msg, save (materialized (__init__ Comment) [("text", PStr "first")])
           (caller 0%nat) None (world (__init__ BlogPost) later) =
         (Raise (ValueError msg), world (__init__ BlogPost) later).
Proof.
  apply (save_refuses_before_any_call (world (__init__ BlogPost) later)
           (materialized (__init__ Comment) [("text", PStr "first")])
           (caller 0%nat) None).
  - reflexivity.
  - discriminate.
Defined.

(** X18: [save] writes once, after every index.  For a document [save]
    accepts, on a queryset with no call of its own outstanding: [save] first
    makes the index-ensure calls of the class, one for each unique or sparse
    field, and the write only if there is none.  Whatever the order in which
    the index-ensure calls are answered, and whatever they answer, the
    write is made exactly when the last of them has reported success, and
    once; while one of them has not, or when one has failed, nothing is
    written.  The write is an insert for a document whose identity is
    [None] and an update by identity otherwise, of the record of the
    document with its [on_save] hooks applied.  The continuation is not
    invoked by any of this. *)
Theorem save_writes_once_after_every_index w document callback alias events
    rs w' :
  well_formed w → savable (self w) document →
  Forall (λ e, length (calls w) ≤ fst e <
               length (calls w) +
               length (indexed_fields (__klass__ (self w))))%nat events →
  play events (after (save document callback alias) w) = Some (rs, w') →
  outcome (save document callback alias) w = Ok tt ∧
  calls (after (save document callback alias) w) =
    calls w ++ save_ensures w alias callback document ++
    (if decide (length (indexed_fields (__klass__ (self w))) = 0%nat)
     then [save_write (self w) alias callback document] else []) ∧
  rs = (λ e, reply (snd e)) <$> events ∧
  calls w' =
    calls w ++ save_ensures w alias callback document ++
    (if decide (successes events =
                length (indexed_fields (__klass__ (self w))))
     then [save_write (self w) alias callback document] else []) ∧
  called w' = called w ∧ self w' = self w.
Proof.
  intros Hwf Hsav Hrange Hplay.
  destruct (save_pipeline w document callback alias events rs w'
              Hwf Hsav Hrange Hplay)
    as (H1 & H2 & _ & H3 & H4 & H5 & H6 & _).
  by repeat split.
Qed.

Lemma save_writes_once_after_every_index_witness :
  ∃ rs w',
    play [(1%nat, [AVal (PStr "slug_1")]); (0%nat, [AVal (PStr "title_1")])]
      (after (save (unsaved BlogPost [("title", PStr "Hello")])
                (caller 0%nat) None)
         (world (__init__ BlogPost) later)) = Some (rs, w') ∧
    calls w' =
      calls (world (__init__ BlogPost) later) ++
      save_ensures (world (__init__ BlogPost) later) None (caller 0%nat)
        (unsaved BlogPost [("title", PStr "Hello")]) ++
      (if decide (successes
                    [(1%nat, [AVal (PStr "slug_1")]);
                     (0%nat, [AVal (PStr "title_1")])] =
                  length (indexed_fields
                            (__klass__
                               (self (world (__init__ BlogPost) later)))))
       then [save_write (self (world (__init__ BlogPost) later)) None
               (caller 0%nat) (unsaved BlogPost [("title", PStr "Hello")])]
       else []).
Proof.
  destruct (play [(1%nat, [AVal (PStr "slug_1")]);
                  (0%nat, [AVal (PStr "title_1")])]
              (after (save (unsaved BlogPost [("title", PStr "Hello")])
                        (caller 0%nat) None)
                 (world (__init__ BlogPost) later)))
    as [[rs w']|] eqn:E; [|vm_compute in E; discriminate].
  exists rs, w'. split; [reflexivity|].
  apply (save_writes_once_after_every_index
           (world (__init__ BlogPost) later)
           (unsaved BlogPost [("title", PStr "Hello")]) (caller 0%nat) None
           [(1%nat, [AVal (PStr "slug_1")]); (0%nat, [AVal (PStr "title_1")])]
           rs w').
  - split; [apply NoDup_nil_2|]. intros i Hi. by apply elem_of_nil in Hi.
  - repeat split. by eexists.
  - repeat constructor.
  - exact E.
Defined.

(** X19: [save] from the call to the continuation.  For a document [save]
    accepts, once every index-ensure call has reported success, in whatever
    order, the write is waiting for the store.  When the store answers the
    insert of a document without an identity with a new identity, the
    continuation is invoked once, with the document carrying that identity
    and the values its [on_save] hooks set.  When it answers the update of a
    document that has an identity, the continuation is invoked once with the
    document, whose identity is the one it had.  When the store reports an
    error instead, the callback raises and the continuation is not
    invoked. *)
Theorem save_round_trip w document k alias events rs w' :
  well_formed w → savable (self w) document →
  Forall (λ e, length (calls w) ≤ fst e <
               length (calls w) +
               length (indexed_fields (__klass__ (self w))))%nat events →
  play events (after (save document (caller k) alias) w) = Some (rs, w') →
  successes events = length (indexed_fields (__klass__ (self w))) →
  let written :=
    (length (calls w) + length (indexed_fields (__klass__ (self w))))%nat in
  let saved := saved_document (self w) document in
  (_id document = Some PNone →
   ∀ id, ∃ w'', answer written [AVal id] w' = Some (Ok tt, w'') ∧
                called w'' = called w ++ [(k, [ADoc (set_id saved id)])]) ∧
  (_id document ≠ Some PNone →
   ∀ a, ∃ w'', answer written [a] w' = Some (Ok tt, w'') ∧
               called w'' = called w ++ [(k, [ADoc saved])] ∧
               _id saved = _id document) ∧
  (∀ r e, ∃ e' w'', answer written [r; AErr e] w' = Some (Raise e', w'') ∧
                    called w'' = called w).
Proof.
  intros Hwf Hsav Hrange Hplay Hall written saved.
  destruct (save_pipeline w document (caller k) alias events rs w'
              Hwf Hsav Hrange Hplay)
    as (_ & _ & _ & _ & Hs & Hd & Hc & Hw).
  specialize (Hw Hall). rewrite decide_True in Hc by exact Hall.
  assert (calls w' !! written =
          Some (save_write (self w) alias (caller k) document)) as Hlook.
  { rewrite Hc. rewrite lookup_app_r by (unfold written; lia).
    rewrite lookup_app_r
      by (unfold save_ensures, written; rewrite length_fmap; lia).
    unfold save_ensures, written. rewrite length_fmap.
    replace (_ - _ - _)%nat with 0%nat by lia. reflexivity. }
  assert (∀ arguments,
            answer written arguments w' =
            Some (invoke (callback_of (save_write (self w) alias (caller k)
                                         document)) arguments
                    {| self := self w'; calls := calls w';
                       waiting := filter (λ j, j ≠ written) (waiting w');
                       called := called w'; lists := lists w';
                       answers_at_once := answers_at_once w' |})) as Hans.
  { intros arguments. unfold answer. rewrite decide_True by exact Hw.
    by rewrite Hlook. }
  destruct Hsav as (_ & _ & _ & [id0 Hid]).
  unfold save_write in Hans. fold (saved_document (self w) document) in Hans.
  fold saved in Hans.
  split; [|split].
  - intros Hnone id. rewrite Hans, Hnone.
    rewrite bool_decide_eq_true_2 by done. cbn.
    eexists. split; [reflexivity|]. cbn. by rewrite Hd.
  - intros Hsome a. rewrite Hans.
    rewrite bool_decide_eq_false_2 by exact Hsome. cbn.
    eexists. split; [reflexivity|]. cbn. rewrite Hd. split; [done|].
    apply hooks_keep_identity.
  - intros r e. rewrite Hans.
    destruct (bool_decide (_id document = Some PNone)); cbn.
    + destruct e; eexists _, _; (split; [reflexivity|exact Hd]).
    + eexists _, _. split; [reflexivity|exact Hd].
Qed.

Lemma save_round_trip_witness :
  ∃ rs w' w'',
    play [] (after (save (unsaved Note [("text", PStr "Hello")])
                      (caller 3%nat) None)
               (world (__init__ Note) later)) = Some (rs, w') ∧
    answer 0 [AVal (PObjectId "c3")] w' = Some (Ok tt, w'') ∧
    called w'' =
      [(3%nat,
        [ADoc (set_id (saved_document (__init__ Note)
                         (unsaved Note [("text", PStr "Hello")]))
                 (PObjectId "c3"))])].
Proof.
  destruct (play [] (after (save (unsaved Note [("text", PStr "Hello")])
                              (caller 3%nat) None)
                       (world (__init__ Note) later)))
    as [[rs w']|] eqn:E; [|vm_compute in E; discriminate].
  destruct (save_round_trip (world (__init__ Note) later)
              (unsaved Note [("text", PStr "Hello")]) 3%nat None [] rs w')
    as [H _].
  - split; [apply NoDup_nil_2|]. intros i Hi. by apply elem_of_nil in Hi.
  - repeat split. by eexists.
  - constructor.
  - exact E.
  - reflexivity.
  - destruct (H eq_refl (PObjectId "c3")) as (w'' & Ha & Hc).
    exists rs, w', w''. split; [reflexivity|]. split; [exact Ha|exact Hc].
Defined.

(** ** on_save hooks *)

Lemma dict_get_absent {A} (d : list (string * A)) key :
  key ∉ fst <$> d → dict_get d key = None.
Proof.
  induction d as [|[k v] d IH]; intros H; [reflexivity|].
  cbn in *. apply not_elem_of_cons in H as [Hne H].
  rewrite decide_False by congruence. by apply IH.
Qed.

(** X20: the [on_save] hooks set their own fields and nothing else.  After
    [update_field_on_save_values], a field of the class that has an
    [on_save] hook holds what the hook returned for the document and the
    flag passed, a field without a hook and a value that is no field of the
    class hold what they held, and the identity of the document, its class
    and its partly loaded flag are as they were.  [save] passes as the flag
    whether the document has an identity already, and sends the record so
    made. *)
Theorem on_save_hooks_set_their_fields fields document creating field_name :
  NoDup (fst <$> fields) →
  dict_get (values (update_field_on_save_values fields document creating))
    field_name =
    match dict_get fields field_name with
    | Some field =>
        match on_save field with
        | Some hook => Some (PCall hook creating)
        | None => dict_get (values document) field_name
        end
    | None => dict_get (values document) field_name
    end ∧
  _id (update_field_on_save_values fields document creating) = _id document ∧
  ∀ qs alias callback,
    let record :=
      values (update_field_on_save_values (_fields (__klass__ qs)) document
                (negb (bool_decide (_id document = Some PNone)))) in
    (∃ c handler,
       save_write qs alias callback document = insert c record handler) ∨
    (∃ c id handler,
       save_write qs alias callback document =
       update_one c id record handler).
Proof.
  intros Hnd. split; [|split; [apply hooks_keep_identity|]].
  - revert document Hnd.
    induction fields as [|[k f] rest IH]; intros document Hnd; [reflexivity|].
    cbn [fmap list_fmap fst] in Hnd. apply NoDup_cons in Hnd as [Hk Hnd].
    cbn [update_field_on_save_values dict_get].
    rewrite IH by exact Hnd.
    destruct (decide (k = field_name)) as [->|Hne].
    + rewrite (dict_get_absent rest _ Hk).
      destruct (on_save f) as [hook|]; [|reflexivity].
      cbn. rewrite dict_get_set. by rewrite decide_True.
    + assert (dict_get (values match on_save f with
                               | Some hook =>
                                   setattr document k (PCall hook creating)
                               | None => document
                               end) field_name =
              dict_get (values document) field_name) as ->.
      { destruct (on_save f); [|reflexivity]. cbn. rewrite dict_get_set.
        by rewrite decide_False. }
      reflexivity.
  - intros qs alias callback record. unfold save_write.
    destruct (negb _).
    + right. eexists _, _, _. reflexivity.
    + left. eexists _, _. reflexivity.
Qed.

Lemma on_save_hooks_set_their_fields_witness :
  dict_get (values (update_field_on_save_values (_fields Note)
                      (unsaved Note [("text", PStr "Hello")]) false))
    "stamp" =
  match dict_get (_fields Note) "stamp" with
  | Some field =>
      match on_save field with
      | Some hook => Some (PCall hook false)
      | None => dict_get (values (unsaved Note [("text", PStr "Hello")]))
                  "stamp"
      end
  | None => dict_get (values (unsaved Note [("text", PStr "Hello")])) "stamp"
  end.
Proof.
  apply (on_save_hooks_set_their_fields (_fields Note)
           (unsaved Note [("text", PStr "Hello")]) false "stamp").
  apply (bool_decide_unpack _). vm_compute. exact I.
Defined.



(** ** bulk_insert *)

Lemma validate_document_keeps document w :
  snd (validate_document document w) = w.
Proof.
  unfold validate_document, bind, get_self.
  destruct (decide _); [|reflexivity]. destruct (validate document); reflexivity.
Qed.

Lemma validate_document_valid document w :
  valid_for (self w) document → validate_document document w = (Ok true, w).
Proof.
  intros [Hn Hv]. unfold validate_document, bind, get_self.
  rewrite decide_True by exact Hn. by rewrite Hv.
Qed.

Lemma bulk_validate_valid good : ∀ rest document_index docs w,
  Forall (valid_for (self w)) good →
  bulk_validate (good ++ rest) document_index docs w =
  bulk_validate rest (document_index + length good)
    (docs ++ (to_son <$> good)) w.
Proof.
  induction good as [|document good IH]; intros rest i docs w Hall.
  - cbn. by rewrite Nat.add_0_r, app_nil_r.
  - apply Forall_cons in Hall as [Hv Hall]. cbn [app bulk_validate].
    rewrite (validate_document_valid _ _ Hv). rewrite IH by exact Hall.
    cbn [length fmap list_fmap]. rewrite <- app_assoc.
    replace (S i + length good)%nat with (i + S (length good))%nat by lia.
    reflexivity.
Qed.

(** X22: [bulk_insert] validates the documents in order and inserts all or
    none.  When [validate_document] answers true for every document, the
    one insert is made with the records of all the documents in their
    order, also when there is no document at all; whether a document is
    partly loaded plays no part.  When the documents before one are valid
    and [validate_document] raises for that one, because it is of another
    class or because its [validate()] raised, [bulk_insert] raises a
    [ValueError] that carries the position of that document, counted from
    zero, and the text of the error, and makes no insert.  When
    [validate()] answers false for it, [bulk_insert] returns normally
    without making the insert, and so without ever invoking the
    continuation.  In every case the world is as it was. *)
Theorem bulk_insert_validates_in_order w good bad rest callback alias :
  Forall (valid_for (self w)) good →
  bulk_insert good callback alias w =
    (Ok (Some {| bulk_coll := target (self w) alias;
                 docs_to_insert := to_son <$> good;
                 bulk_documents := good;
                 bulk_callback := callback |}), w) ∧
  (∀ err, outcome (validate_document bad) w = Raise err →
          bulk_insert (good ++ bad :: rest) callback alias w =
          (Raise (ValueError (bulk_validation_message (length good) err)),
           w)) ∧
  (outcome (validate_document bad) w = Ok false →
   bulk_insert (good ++ bad :: rest) callback alias w = (Ok None, w)).
Proof.
  intros Hall. unfold bulk_insert, bind. split; [|split].
  - rewrite <- (app_nil_r good) at 1.
    rewrite bulk_validate_valid by exact Hall. reflexivity.
  - intros err Herr. rewrite bulk_validate_valid by exact Hall.
    cbn [bulk_validate]. unfold outcome in Herr.
    pose proof (validate_document_keeps bad w) as Hk.
    destruct (validate_document bad w) as [r w0]. cbn in Herr, Hk.
    subst r w0. reflexivity.
  - intros Hfalse. rewrite bulk_validate_valid by exact Hall.
    cbn [bulk_validate]. unfold outcome in Hfalse.
    pose proof (validate_document_keeps bad w) as Hk.
    destruct (validate_document bad w) as [r w0]. cbn in Hfalse, Hk.
    subst r w0. reflexivity.
Qed.

Lemma bulk_insert_validates_in_order_witness :
  bulk_insert
    ([unsaved Note [("text", PStr "one")]] ++
     [materialized (__init__ Comment) [("text", PStr "two")]])
    (caller 0%nat) None (world (__init__ Note) later) =
  (Raise (ValueError
            (bulk_validation_message
               (length [unsaved Note [("text", PStr "one")]])
               (ValueError
                  "This queryset for class 'Note' can't save an instance of type 'Comment'."))),
   world (__init__ Note) later) ∧
  bulk_validation_message
    (length [unsaved Note [("text", PStr "one")]]) (ValueError "boom") =
  "Validation for document 1 in the documents you are saving failed with: boom".
Proof.
  split; [|vm_compute; reflexivity].
  assert (Forall (valid_for (self (world (__init__ Note) later)))
            [unsaved Note [("text", PStr "one")]]) as Hvalid
    by (repeat constructor).
  destruct (bulk_insert_validates_in_order (world (__init__ Note) later)
              [unsaved Note [("text", PStr "one")]]
              (materialized (__init__ Comment) [("text", PStr "two")])
              [] (caller 0%nat) None Hvalid) as (_ & Hraise & _).
  apply Hraise. reflexivity.
Defined.

Lemma assign_ids_enough ids : ∀ documents,
  (length ids ≤ length documents)%nat →
  assign_ids documents ids =
  Ok (zip_with set_id documents ids ++ drop (length ids) documents).
Proof.
  induction ids as [|id ids IH]; intros documents Hlen.
  - destruct documents; reflexivity.
  - destruct documents as [|document documents]; cbn in Hlen; [lia|].
    cbn. rewrite IH by lia. reflexivity.
Qed.

Lemma assign_ids_short ids : ∀ documents,
  (length documents < length ids)%nat →
  assign_ids documents ids = Raise (IndexError "list index out of range").
Proof.
  induction ids as [|id ids IH]; intros documents Hlen; cbn in Hlen; [lia|].
  destruct documents as [|document documents]; [reflexivity|].
  cbn in *. rewrite IH by lia. reflexivity.
Qed.

(** X23: [handle_bulk_insert] assigns the identities in order.  When the
    store answers a batch insert with as many identities as there are
    documents, or fewer, the continuation is invoked once with all the
    documents in their order, the first ones carrying the identities in the
    order of the answer and the others the identity they had.  When it
    answers with more identities than documents the callback raises
    [IndexError], and when it reports an error the callback raises that
    error; in both cases the continuation is not invoked. *)
Theorem handle_bulk_insert_assigns_in_order documents k ids w :
  ((length ids ≤ length documents)%nat →
   handle_bulk_insert documents (caller k) ids None w =
   (Ok tt,
    after (deliver k [ADocs (zip_with set_id documents ids ++
                             drop (length ids) documents)]) w) ∧
   length (zip_with set_id documents ids ++ drop (length ids) documents) =
     length documents ∧
   ∀ i document id, documents !! i = Some document → ids !! i = Some id →
     (zip_with set_id documents ids ++ drop (length ids) documents) !! i =
     Some (set_id document id)) ∧
  ((length documents < length ids)%nat →
   handle_bulk_insert documents (caller k) ids None w =
   (Raise (IndexError "list index out of range"), w)) ∧
  (∀ e, handle_bulk_insert documents (caller k) ids (Some (AErr e)) w =
        (Raise e, w)).
Proof.
  split; [|split].
  - intros Hlen. unfold handle_bulk_insert.
    rewrite assign_ids_enough by exact Hlen. split; [reflexivity|]. split.
    + rewrite length_app, length_zip_with, length_drop. lia.
    + intros i document id Hd Hi.
      rewrite lookup_app_l.
      2:{ rewrite length_zip_with. apply lookup_lt_Some in Hd, Hi. lia. }
      rewrite lookup_zip_with, Hd. cbn. by rewrite Hi.
  - intros Hlen. unfold handle_bulk_insert.
    by rewrite assign_ids_short by exact Hlen.
  - reflexivity.
Qed.

Lemma handle_bulk_insert_assigns_in_order_witness :
  handle_bulk_insert
    [unsaved Note [("text", PStr "one")]; unsaved Note [("text", PStr "two")]]
    (caller 4%nat) [PObjectId "a"; PObjectId "b"; PObjectId "c"] None
    (world (__init__ Note) later) =
  (Raise (IndexError "list index out of range"), world (__init__ Note) later).
Proof.
  destruct (handle_bulk_insert_assigns_in_order
              [unsaved Note [("text", PStr "one")];
               unsaved Note [("text", PStr "two")]]
              4%nat [PObjectId "a"; PObjectId "b"; PObjectId "c"]
              (world (__init__ Note) later)) as (_ & Hmore & _).
  apply Hmore. cbn. lia.
Defined.
